(** * A Tomasulo pipeline simulator: shallow embedding and verification

    This development embeds the cycle engine of the simulator
    ([services/tomasulo.ts], the variant with the INTEGER unit class,
    issue-time address resolution, memory disambiguation and loop
    re-entry), its cache model and its assembly parser
    ([services/parser.ts]), and proves properties of them.

    Modelling conventions.
    - JavaScript numbers are rendered as [Z]: cycles, program counters,
      instruction identities, latencies, addresses and register contents
      are integer-valued.  Sums, differences and products are exact on
      integers; the quotient of a DIV is rendered with [Z.div].  The
      block size of the cache is taken to be non-zero (the tag
      [Math.floor(addr / 0)] is not a finite number).
    - [null] is [None]; a nullable field is an [option].
    - JavaScript objects used as dictionaries ([registers], [memory],
      [labels]) are [gmap]s; keys are assumed not to collide with
      properties inherited from [Object.prototype].
    - Arrays are [list]s; the in-place update of an element becomes
      [<[k := x]>] at the index the source computes.
    - Strings are byte strings; [toUpperCase] and white space act on
      ASCII.
    - The engine mutates the objects of the state it is given and returns
      them; the embedding returns the resulting state as a value.
    - Log lines are kept as structured entries rather than formatted text. *)

From Stdlib Require Import ZArith Ascii String List Lia Bool.
From stdpp Require Import base option list gmap strings pretty.

#[local] Set Warnings "-clear-no-such-hyp".
Local Open Scope Z_scope.

(** ** Data model ([types.ts]) *)

Module OpType.
Inductive t := LOAD | STORE | ADD | SUB | MULT | DIV | INTEGER | BRANCH.
#[global] Instance eq_dec : EqDecision t.
Proof. solve_decision. Defined.
End OpType.

(** The class of a reservation station (the [type] field). *)
Module RSType.
Inductive t := ADD | MULT | LOAD | STORE | INTEGER.
#[global] Instance eq_dec : EqDecision t.
Proof. solve_decision. Defined.
End RSType.

Record CacheConfig := {
  enabled : bool;
  blockSize : Z;
  cacheSize : Z;
  hitLatency : Z;
  missPenalty : Z;
}.

Record SystemConfig := {
  rsSizes : RSType.t -> Z;
  latencies : OpType.t -> Z;
  cacheConfig : CacheConfig;
  memorySize : Z;
}.

Record InstructionLine := {
  inst_id : Z;
  raw : string;
  op : string;
  dest : string;
  src1 : string;
  src2 : string;
  immediate : Z;
  pcAddress : Z;
  issueCycle : option Z;
  execStartCycle : option Z;
  execEndCycle : option Z;
  writeCycle : option Z;
}.

Record ReservationStation := {
  rs_id : string;
  rs_type : RSType.t;
  busy : bool;
  rs_op : option string;
  vj : option Z;
  vk : option Z;
  qj : option string;
  qk : option string;
  a : option Z;
  instId : option Z;
  timeLeft : Z;
  result : option Z;
}.

Record Register := {
  name : string;
  value : Z;
  qi : option string;
}.

Record CacheBlock := {
  tag : Z;
  valid : bool;
  data : list Z;
  lastAccess : Z;
}.

Record Cdb := {
  cdb_tag : string;
  cdb_value : Z;
}.

(** The lines the engine appends to [log], one constructor per template
    string of the source. *)
Inductive LogEntry :=
| LogInitialized
| LogBroadcast (cycle : Z) (station : string) (res : Z)
| LogCacheMiss (cycle : Z) (opcode : string) (addr : Z)
| LogBranchTaken (cycle : Z) (label : string)
| LogCompleted.

Record SimulationState := {
  cycle : Z;
  pc : Z;
  instructions : list InstructionLine;
  reservationStations : list ReservationStation;
  registers : gmap string Register;
  memory : gmap Z Z;
  cache : list CacheBlock;
  cdb : option Cdb;
  log : list LogEntry;
  isFinished : bool;
  branchStall : bool;
}.

#[global] Instance InstructionLine_eq_dec : EqDecision InstructionLine.
Proof. solve_decision. Defined.
#[global] Instance ReservationStation_eq_dec : EqDecision ReservationStation.
Proof. solve_decision. Defined.
#[global] Instance Register_eq_dec : EqDecision Register.
Proof. solve_decision. Defined.
#[global] Instance CacheBlock_eq_dec : EqDecision CacheBlock.
Proof. solve_decision. Defined.
#[global] Instance Cdb_eq_dec : EqDecision Cdb.
Proof. solve_decision. Defined.

(** ** String helpers (the [String.prototype] methods the source calls) *)

Definition upper_ascii (c : ascii) : ascii :=
  let n := nat_of_ascii c in
  if ((97 <=? n) && (n <=? 122))%nat then ascii_of_nat (n - 32) else c.

Fixpoint toUpperCase (s : string) : string :=
  match s with
  | EmptyString => EmptyString
  | String c s' => String (upper_ascii c) (toUpperCase s')
  end.

Definition startsWith (s p : string) : bool := String.prefix p s.

(** [includes s o]: [o] occurs in [s] as a contiguous substring. *)
Fixpoint includes (s o : string) : bool :=
  String.prefix o s ||
  match s with
  | EmptyString => false
  | String _ s' => includes s' o
  end.

Definition str_in (s : string) (l : list string) : bool :=
  bool_decide (s ∈ l).

(** ** Opcode classification *)

Definition getOpType (o : string) : OpType.t :=
  let o := toUpperCase o in
  if str_in o ["L.D"; "LW"; "LD"; "L.S"] then OpType.LOAD
  else if str_in o ["S.D"; "SW"; "SD"; "S.S"] then OpType.STORE
  else if str_in o ["ADD.D"; "ADD.S"] then OpType.ADD
  else if str_in o ["SUB.D"; "SUB.S"] then OpType.SUB
  else if str_in o ["MUL"; "MUL.D"; "MUL.S"] then OpType.MULT
  else if str_in o ["DIV"; "DIV.D"; "DIV.S"] then OpType.DIV
  else if str_in o ["ADD"; "ADDI"; "DADDI"; "DADD"; "SUB"; "SUBI"; "DSUBI"; "DSUB"]
       then OpType.INTEGER
  else if str_in o ["BNE"; "BEQ"; "BNEZ"; "BEQZ"] then OpType.BRANCH
  else OpType.INTEGER.

Definition getRSType (opType : OpType.t) : RSType.t :=
  match opType with
  | OpType.LOAD => RSType.LOAD
  | OpType.STORE => RSType.STORE
  | OpType.MULT | OpType.DIV => RSType.MULT
  | OpType.ADD | OpType.SUB => RSType.ADD
  | OpType.INTEGER | OpType.BRANCH => RSType.INTEGER
  end.

(** ** Cache model ([accessCache]) *)

(** [Array.prototype.sort] with the comparator
    [(a, b) => a.lastAccess - b.lastAccess]: ascending in [lastAccess],
    stable (blocks with equal [lastAccess] keep their relative order). *)
Fixpoint insertByLastAccess (x : CacheBlock) (l : list CacheBlock) : list CacheBlock :=
  match l with
  | [] => [x]
  | y :: l' =>
      if lastAccess x <=? lastAccess y then x :: y :: l'
      else y :: insertByLastAccess x l'
  end.

Definition sortByLastAccess (l : list CacheBlock) : list CacheBlock :=
  foldr insertByLastAccess [] l.

(** [len < cacheSize / blockSize], the quotient being the exact one of the
    source (no rounding): decided by cross-multiplication. *)
Definition belowMaxBlocks (len : nat) (c : CacheConfig) : bool :=
  if 0 <? blockSize c then Z.of_nat len * blockSize c <? cacheSize c
  else if blockSize c <? 0 then cacheSize c <? Z.of_nat len * blockSize c
  else 0 <? cacheSize c.

(** [arr[0] = x]: overwrites the first element, or creates it. *)
Definition setFirst {A} (x : A) (l : list A) : list A :=
  match l with
  | [] => [x]
  | _ :: l' => x :: l'
  end.

Record CacheAccess := {
  hit : bool;
  penalty : Z;
  newCache : list CacheBlock;
}.

Definition touch (c : Z) (b : CacheBlock) : CacheBlock :=
  {| tag := tag b; valid := valid b; data := data b; lastAccess := c |}.

Definition accessCache (addr : Z) (config : SystemConfig)
    (cache : list CacheBlock) (cycle : Z) : CacheAccess :=
  let cc := cacheConfig config in
  if negb (enabled cc) then {| hit := true; penalty := 0; newCache := cache |}
  else
    let blockIndex := addr / blockSize cc in
    let tg := blockIndex in
    match list_find (λ b, tag b = tg) cache with
    | Some (existingBlockIdx, b) =>
        {| hit := true; penalty := 0;
           newCache := <[existingBlockIdx := touch cycle b]> cache |}
    | None =>
        let newBlock := {| tag := tg; valid := true; data := []; lastAccess := cycle |} in
        {| hit := false; penalty := missPenalty cc;
           newCache :=
             if belowMaxBlocks (length cache) cc then cache ++ [newBlock]
             else setFirst newBlock (sortByLastAccess cache) |}
    end.

(** ** Record updates *)

Definition set_issueCycle (c : option Z) (i : InstructionLine) : InstructionLine :=
  {| inst_id := inst_id i; raw := raw i; op := op i; dest := dest i;
     src1 := src1 i; src2 := src2 i; immediate := immediate i;
     pcAddress := pcAddress i; issueCycle := c;
     execStartCycle := execStartCycle i; execEndCycle := execEndCycle i;
     writeCycle := writeCycle i |}.

Definition set_execStartCycle (c : option Z) (i : InstructionLine) : InstructionLine :=
  {| inst_id := inst_id i; raw := raw i; op := op i; dest := dest i;
     src1 := src1 i; src2 := src2 i; immediate := immediate i;
     pcAddress := pcAddress i; issueCycle := issueCycle i;
     execStartCycle := c; execEndCycle := execEndCycle i;
     writeCycle := writeCycle i |}.

Definition set_execEndCycle (c : option Z) (i : InstructionLine) : InstructionLine :=
  {| inst_id := inst_id i; raw := raw i; op := op i; dest := dest i;
     src1 := src1 i; src2 := src2 i; immediate := immediate i;
     pcAddress := pcAddress i; issueCycle := issueCycle i;
     execStartCycle := execStartCycle i; execEndCycle := c;
     writeCycle := writeCycle i |}.

Definition set_writeCycle (c : option Z) (i : InstructionLine) : InstructionLine :=
  {| inst_id := inst_id i; raw := raw i; op := op i; dest := dest i;
     src1 := src1 i; src2 := src2 i; immediate := immediate i;
     pcAddress := pcAddress i; issueCycle := issueCycle i;
     execStartCycle := execStartCycle i; execEndCycle := execEndCycle i;
     writeCycle := c |}.

Definition set_timeLeft (t : Z) (r : ReservationStation) : ReservationStation :=
  {| rs_id := rs_id r; rs_type := rs_type r; busy := busy r; rs_op := rs_op r;
     vj := vj r; vk := vk r; qj := qj r; qk := qk r; a := a r;
     instId := instId r; timeLeft := t; result := result r |}.

Definition set_result (v : option Z) (r : ReservationStation) : ReservationStation :=
  {| rs_id := rs_id r; rs_type := rs_type r; busy := busy r; rs_op := rs_op r;
     vj := vj r; vk := vk r; qj := qj r; qk := qk r; a := a r;
     instId := instId r; timeLeft := timeLeft r; result := v |}.

Definition set_j (v : option Z) (q : option string) (r : ReservationStation)
    : ReservationStation :=
  {| rs_id := rs_id r; rs_type := rs_type r; busy := busy r; rs_op := rs_op r;
     vj := v; vk := vk r; qj := q; qk := qk r; a := a r;
     instId := instId r; timeLeft := timeLeft r; result := result r |}.

Definition set_k (v : option Z) (q : option string) (r : ReservationStation)
    : ReservationStation :=
  {| rs_id := rs_id r; rs_type := rs_type r; busy := busy r; rs_op := rs_op r;
     vj := vj r; vk := v; qj := qj r; qk := q; a := a r;
     instId := instId r; timeLeft := timeLeft r; result := result r |}.

(** [{ ...rs, busy: false, op: null, vj: null, vk: null, qj: null,
       qk: null, a: null, instId: null, result: null }] *)
Definition clearStation (r : ReservationStation) : ReservationStation :=
  {| rs_id := rs_id r; rs_type := rs_type r; busy := false; rs_op := None;
     vj := None; vk := None; qj := None; qk := None; a := None;
     instId := None; timeLeft := timeLeft r; result := None |}.

Definition set_qi (q : option string) (r : Register) : Register :=
  {| name := name r; value := value r; qi := q |}.

Definition set_cycle_cdb (c : Z) (b : option Cdb) (s : SimulationState) : SimulationState :=
  {| cycle := c; pc := pc s; instructions := instructions s;
     reservationStations := reservationStations s; registers := registers s;
     memory := memory s; cache := cache s; cdb := b; log := log s;
     isFinished := isFinished s; branchStall := branchStall s |}.

Definition set_pc (p : Z) (s : SimulationState) : SimulationState :=
  {| cycle := cycle s; pc := p; instructions := instructions s;
     reservationStations := reservationStations s; registers := registers s;
     memory := memory s; cache := cache s; cdb := cdb s; log := log s;
     isFinished := isFinished s; branchStall := branchStall s |}.

Definition set_instructions (l : list InstructionLine) (s : SimulationState)
    : SimulationState :=
  {| cycle := cycle s; pc := pc s; instructions := l;
     reservationStations := reservationStations s; registers := registers s;
     memory := memory s; cache := cache s; cdb := cdb s; log := log s;
     isFinished := isFinished s; branchStall := branchStall s |}.

Definition set_reservationStations (l : list ReservationStation) (s : SimulationState)
    : SimulationState :=
  {| cycle := cycle s; pc := pc s; instructions := instructions s;
     reservationStations := l; registers := registers s;
     memory := memory s; cache := cache s; cdb := cdb s; log := log s;
     isFinished := isFinished s; branchStall := branchStall s |}.

Definition set_registers (m : gmap string Register) (s : SimulationState)
    : SimulationState :=
  {| cycle := cycle s; pc := pc s; instructions := instructions s;
     reservationStations := reservationStations s; registers := m;
     memory := memory s; cache := cache s; cdb := cdb s; log := log s;
     isFinished := isFinished s; branchStall := branchStall s |}.

Definition set_memory (m : gmap Z Z) (s : SimulationState) : SimulationState :=
  {| cycle := cycle s; pc := pc s; instructions := instructions s;
     reservationStations := reservationStations s; registers := registers s;
     memory := m; cache := cache s; cdb := cdb s; log := log s;
     isFinished := isFinished s; branchStall := branchStall s |}.

Definition set_cache (c : list CacheBlock) (s : SimulationState) : SimulationState :=
  {| cycle := cycle s; pc := pc s; instructions := instructions s;
     reservationStations := reservationStations s; registers := registers s;
     memory := memory s; cache := c; cdb := cdb s; log := log s;
     isFinished := isFinished s; branchStall := branchStall s |}.

Definition push_log (e : LogEntry) (s : SimulationState) : SimulationState :=
  {| cycle := cycle s; pc := pc s; instructions := instructions s;
     reservationStations := reservationStations s; registers := registers s;
     memory := memory s; cache := cache s; cdb := cdb s; log := log s ++ [e];
     isFinished := isFinished s; branchStall := branchStall s |}.

Definition set_isFinished (b : bool) (s : SimulationState) : SimulationState :=
  {| cycle := cycle s; pc := pc s; instructions := instructions s;
     reservationStations := reservationStations s; registers := registers s;
     memory := memory s; cache := cache s; cdb := cdb s; log := log s;
     isFinished := b; branchStall := branchStall s |}.

Definition set_branchStall (b : bool) (s : SimulationState) : SimulationState :=
  {| cycle := cycle s; pc := pc s; instructions := instructions s;
     reservationStations := reservationStations s; registers := registers s;
     memory := memory s; cache := cache s; cdb := cdb s; log := log s;
     isFinished := isFinished s; branchStall := b |}.

(** ** Initialization ([initializeState]) *)

Definition rsPrefix (ty : RSType.t) : string :=
  match ty with
  | RSType.ADD => "A"
  | RSType.MULT => "M"
  | RSType.LOAD => "L"
  | RSType.STORE => "S"
  | RSType.INTEGER => "I"
  end.

Definition freshStation (ty : RSType.t) (i : nat) : ReservationStation :=
  {| rs_id := rsPrefix ty +:+ pretty (Z.of_nat i + 1); rs_type := ty;
     busy := false; rs_op := None; vj := None; vk := None; qj := None;
     qk := None; a := None; instId := None; timeLeft := 0; result := None |}.

Definition initialStations (config : SystemConfig) : list ReservationStation :=
  flat_map (λ ty, freshStation ty <$> seq 0 (Z.to_nat (rsSizes config ty)))
    [RSType.ADD; RSType.MULT; RSType.LOAD; RSType.STORE; RSType.INTEGER].

Definition initializeState (instructions : list InstructionLine)
    (config : SystemConfig) (initialRegs : gmap string Z) : SimulationState :=
  {| cycle := 0; pc := 0; instructions := instructions;
     reservationStations := initialStations config;
     registers :=
       map_imap (λ n v, Some {| name := n; value := v; qi := None |}) initialRegs;
     memory := ∅; cache := []; cdb := None; log := [LogInitialized];
     isFinished := false; branchStall := false |}.

(** ** The cycle engine ([nextCycle]) *)

(** [instructions.find((i) => i.id === iid)], with the position of the
    instruction found; a [null] identity matches nothing. *)
Definition findInst (iid : option Z) (insts : list InstructionLine)
    : option (nat * InstructionLine) :=
  list_find (λ i, Some (inst_id i) = iid) insts.

(** *** Phase 1: write result (broadcast on the CDB) *)

Definition readyToWrite (r : ReservationStation) : Prop :=
  busy r = true ∧ timeLeft r = 0 ∧ result r ≠ None.

#[global] Instance readyToWrite_dec r : Decision (readyToWrite r).
Proof. unfold readyToWrite. apply _. Defined.

Definition captureRegister (t : string) (v : Z) (reg : Register) : Register :=
  if decide (qi reg = Some t)
  then {| name := name reg; value := v; qi := None |}
  else reg.

Definition captureOperands (t : string) (v : Z) (rs : ReservationStation)
    : ReservationStation :=
  if busy rs then
    let rs1 := if decide (qj rs = Some t) then set_j (Some v) None rs else rs in
    if decide (qk rs1 = Some t) then set_k (Some v) None rs1 else rs1
  else rs.

Definition writeResult (s : SimulationState) : SimulationState :=
  match list_find readyToWrite (reservationStations s) with
  | None => s
  | Some (producerIndex, cdbProducer) =>
      (* [cdbProducer.result!]: not null, by the filter *)
      let res := default 0 (result cdbProducer) in
      let t := rs_id cdbProducer in
      let s := set_cycle_cdb (cycle s) (Some {| cdb_tag := t; cdb_value := res |}) s in
      let s := push_log (LogBroadcast (cycle s) t res) s in
      let s :=
        set_instructions
          match findInst (instId cdbProducer) (instructions s) with
          | Some (ik, inst) =>
              <[ik := set_writeCycle (Some (cycle s)) inst]> (instructions s)
          | None => instructions s
          end s in
      let s := set_registers (captureRegister t res <$> registers s) s in
      let s := set_reservationStations
                 (captureOperands t res <$> reservationStations s) s in
      set_reservationStations
        (alter clearStation producerIndex (reservationStations s)) s
  end.

(** *** Phase 2: execute *)

(** Start of execution: stamps [execStartCycle] and loads the timer. *)
Definition startExecution (config : SystemConfig) (rs : ReservationStation)
    (inst : InstructionLine) (s : SimulationState)
    : ReservationStation * InstructionLine * SimulationState :=
  match execStartCycle inst with
  | Some _ => (rs, inst, s)
  | None =>
      let inst := set_execStartCycle (Some (cycle s)) inst in
      let opType := getOpType (op inst) in
      if decide (opType = OpType.LOAD ∨ opType = OpType.STORE) then
        let effectiveAddr := default 0 (a rs) in
        if decide (opType = OpType.LOAD) then
          let r := accessCache effectiveAddr config (cache s) (cycle s) in
          let s := set_cache (newCache r) s in
          let latency :=
            latencies config OpType.LOAD + (if hit r then 0 else penalty r) in
          let s :=
            if hit r then s
            else push_log (LogCacheMiss (cycle s) (op inst) effectiveAddr) s in
          (set_timeLeft latency rs, inst, s)
        else (set_timeLeft (latencies config OpType.STORE) rs, inst, s)
      else (set_timeLeft (latencies config opType) rs, inst, s)
  end.

Definition tick (rs : ReservationStation) : ReservationStation :=
  if 0 <? timeLeft rs then set_timeLeft (timeLeft rs - 1) rs else rs.

Definition isAddName (o : string) : bool :=
  existsb (λ x, includes (toUpperCase o) x)
    ["ADD"; "ADDI"; "DADDI"; "ADD.D"; "ADD.S"].

(** The [switch (opType)] of the execute phase for the operations that
    leave a result in the station. *)
Definition aluResult (opType : OpType.t) (o : string) (v1 v2 : Z)
    (rs : ReservationStation) (mem : gmap Z Z) : Z :=
  match opType with
  | OpType.ADD | OpType.INTEGER => if isAddName o then v1 + v2 else v1 - v2
  | OpType.SUB => v1 - v2
  | OpType.MULT => v1 * v2
  | OpType.DIV => if decide (v2 ≠ 0) then v1 / v2 else 0
  | OpType.LOAD => default 0 (mem !! default 0 (a rs))
  | OpType.STORE | OpType.BRANCH => 0
  end.

Definition branchTaken (o : string) (v1 v2 : Z) : bool :=
  let isBNE := startsWith (toUpperCase o) "BNE" in
  let isBEQ := startsWith (toUpperCase o) "BEQ" in
  (isBNE && bool_decide (v1 ≠ v2)) || (isBEQ && bool_decide (v1 = v2)).

(** End of execution.  A STORE writes memory, a BRANCH redirects the PC
    and releases the stall; both retire at once (their station is reset,
    so the [NaN] the source leaves in [result] is not kept).  Every other
    operation leaves its result in the station for a later write-back. *)
Definition finishExecution (labels : gmap string Z) (rs : ReservationStation)
    (inst : InstructionLine) (s : SimulationState)
    : ReservationStation * InstructionLine * SimulationState :=
  if decide (timeLeft rs = 0 ∧ execEndCycle inst = None) then
    let inst := set_execEndCycle (Some (cycle s)) inst in
    let opType := getOpType (op inst) in
    let v1 := default 0 (vj rs) in
    let v2 := default 0 (vk rs) in
    match opType with
    | OpType.STORE =>
        let s := set_memory (<[default 0 (a rs) := default 0 (vk rs)]> (memory s)) s in
        (clearStation rs, set_writeCycle (Some (cycle s)) inst, s)
    | OpType.BRANCH =>
        let s :=
          if branchTaken (op inst) v1 v2 then
            let targetLabel := src2 inst in
            match labels !! targetLabel with
            | Some target =>
                push_log (LogBranchTaken (cycle s) targetLabel) (set_pc target s)
            | None => s
            end
          else s in
        let s := set_branchStall false s in
        (clearStation rs, set_writeCycle (Some (cycle s)) inst, s)
    | _ =>
        (set_result (Some (aluResult opType (op inst) v1 v2 rs (memory s))) rs,
         inst, s)
    end
  else (rs, inst, s).

(** The body of [reservationStations.forEach] for the station at index [k]. *)
Definition executeStation (config : SystemConfig) (labels : gmap string Z)
    (s : SimulationState) (k : nat) : SimulationState :=
  match reservationStations s !! k with
  | None => s
  | Some rs =>
      if negb (busy rs) then s
      else if decide (qj rs = None ∧ qk rs = None) then
        match findInst (instId rs) (instructions s) with
        | None => s
        | Some (ik, inst) =>
            let '(rs, inst, s) := startExecution config rs inst s in
            let rs := tick rs in
            let '(rs, inst, s) := finishExecution labels rs inst s in
            set_reservationStations (<[k := rs]> (reservationStations s))
              (set_instructions (<[ik := inst]> (instructions s)) s)
        end
      else s
  end.

Definition execute (config : SystemConfig) (labels : gmap string Z)
    (s : SimulationState) : SimulationState :=
  foldl (executeStation config labels) s
    (seq 0 (length (reservationStations s))).

(** *** Phase 3: issue *)

(** Dynamic loop handling: the un-issued instruction at [pc] if there is
    one; otherwise a clone of the first instruction at [pc], pushed at the
    end of the list.  Returns the list and the position of [issueInst]. *)
Definition maxId (insts : list InstructionLine) : Z :=
  foldl (λ mx i, Z.max mx (inst_id i)) 0 insts.

Definition cloneInst (template : InstructionLine) (newId : Z) : InstructionLine :=
  {| inst_id := newId; raw := raw template; op := op template;
     dest := dest template; src1 := src1 template; src2 := src2 template;
     immediate := immediate template; pcAddress := pcAddress template;
     issueCycle := None; execStartCycle := None; execEndCycle := None;
     writeCycle := None |}.

Definition selectIssueInst (insts : list InstructionLine) (pc : Z)
    : list InstructionLine * option (nat * InstructionLine) :=
  match list_find (λ i, pcAddress i = pc ∧ issueCycle i = None) insts with
  | Some found => (insts, Some found)
  | None =>
      match list_find (λ i, pcAddress i = pc) insts with
      | Some (_, template) =>
          let newInst := cloneInst template (maxId insts + 1) in
          (insts ++ [newInst], Some (length insts, newInst))
      | None => (insts, None)
      end
  end.

(** A tag string is truthy when it is not empty. *)
Definition tagOf (r : Register) : option string :=
  match qi r with
  | Some "" => None
  | q => q
  end.

Definition cdbHas (b : option Cdb) (t : string) : bool :=
  match b with
  | Some c => bool_decide (cdb_tag c = t)
  | None => false
  end.

Definition cdbValue (b : option Cdb) : Z :=
  match b with
  | Some c => cdb_value c
  | None => 0
  end.

(** The helper [resolveOperand]: value or producing tag of a register. *)
Definition resolveOperand (regs : gmap string Register) (b : option Cdb)
    (regName : string) : option Z * option string :=
  match regs !! regName with
  | None => (Some 0, None)
  | Some r =>
      match tagOf r with
      | Some t =>
          if cdbHas b t then (Some (cdbValue b), None) else (None, Some t)
      | None => (Some (value r), None)
      end
  end.

(** Step 3a, first half: effective address of a LOAD or STORE.  Returns
    [(effectiveAddr, stallIssue)]. *)
Definition resolveAddress (regs : gmap string Register) (b : option Cdb)
    (issueInst : InstructionLine) : option Z * bool :=
  let baseReg := src1 issueInst in
  let offset := immediate issueInst in
  match regs !! baseReg with
  | Some r =>
      match qi r with
      | Some t =>
          if cdbHas b t then (Some (cdbValue b + offset), false)
          else (None, true)
      | None => (Some (value r + offset), false)
      end
  | None => (Some (0 + offset), false)
  end.

(** The operation class of the instruction a station is bound to, as the
    hazard check computes it ([INTEGER] when the instruction is not found). *)
Definition boundOpType (insts : list InstructionLine) (iid : option Z) : OpType.t :=
  match findInst iid insts with
  | Some (_, checkInst) => getOpType (op checkInst)
  | None => OpType.INTEGER
  end.

Definition conflicts (opType checkOp : OpType.t) : bool :=
  bool_decide (opType = OpType.LOAD ∧ checkOp = OpType.STORE) ||
  bool_decide (opType = OpType.STORE ∧
               (checkOp = OpType.LOAD ∨ checkOp = OpType.STORE)).

Definition isEarlier (iid : option Z) (candidate : Z) : bool :=
  match iid with
  | Some i => i <? candidate
  | None => false
  end.

(** Step 3a, second half: the body of the [for (const checkRS of ...)] loop. *)
Definition hazardStep (insts : list InstructionLine) (issueInst : InstructionLine)
    (opType : OpType.t) (effectiveAddr : option Z)
    (stallIssue : bool) (checkRS : ReservationStation) : bool :=
  if busy checkRS && isEarlier (instId checkRS) (inst_id issueInst) then
    if decide (a checkRS = effectiveAddr) then
      if conflicts opType (boundOpType insts (instId checkRS)) then true
      else stallIssue
    else stallIssue
  else stallIssue.

Definition memoryHazard (stations : list ReservationStation)
    (insts : list InstructionLine) (issueInst : InstructionLine)
    (opType : OpType.t) (effectiveAddr : option Z) : bool :=
  foldl (hazardStep insts issueInst opType effectiveAddr) false stations.

(** Step 3a as a whole. *)
Definition addressAndHazard (s : SimulationState) (issueInst : InstructionLine)
    : option Z * bool :=
  let opType := getOpType (op issueInst) in
  if decide (opType = OpType.LOAD ∨ opType = OpType.STORE) then
    let '(effectiveAddr, stallIssue) :=
      resolveAddress (registers s) (cdb s) issueInst in
    if stallIssue then (effectiveAddr, true)
    else (effectiveAddr,
          memoryHazard (reservationStations s) (instructions s) issueInst
            opType effectiveAddr)
  else (None, false).

Definition nonEmpty (x : string) : bool := negb (bool_decide (x = "")).

(** Operand mapping: the contents [(vj, qj, vk, qk, a)] of the station. *)
Definition firstOperand (regs : gmap string Register) (b : option Cdb)
    (opType : OpType.t) (issueInst : InstructionLine) : option Z * option string :=
  if decide (opType = OpType.BRANCH) then
    if nonEmpty (dest issueInst) then resolveOperand regs b (dest issueInst)
    else (None, None)
  else if nonEmpty (src1 issueInst) then resolveOperand regs b (src1 issueInst)
  else (None, None).

Definition secondOperand (regs : gmap string Register) (b : option Cdb)
    (opType : OpType.t) (issueInst : InstructionLine) : option Z * option string :=
  match opType with
  | OpType.STORE => resolveOperand regs b (dest issueInst)
  | OpType.BRANCH =>
      if nonEmpty (src1 issueInst) then resolveOperand regs b (src1 issueInst)
      else (None, None)
  | OpType.LOAD => (None, None)
  | _ =>
      match regs !! src2 issueInst with
      | Some _ => resolveOperand regs b (src2 issueInst)
      | None => (Some (immediate issueInst), None)
      end
  end.

Definition addressSlot (opType : OpType.t) (effectiveAddr : option Z) : option Z :=
  match opType with
  | OpType.STORE | OpType.LOAD => effectiveAddr
  | _ => None
  end.

Definition occupy (freeRS : ReservationStation) (issueInst : InstructionLine)
    (j k : option Z * option string) (addr : option Z) : ReservationStation :=
  {| rs_id := rs_id freeRS; rs_type := rs_type freeRS; busy := true;
     rs_op := Some (op issueInst); vj := j.1; vk := k.1; qj := j.2; qk := k.2;
     a := addr; instId := Some (inst_id issueInst); timeLeft := 0;
     result := None |}.

Definition writesRegister (opType : OpType.t) : bool :=
  bool_decide (opType ≠ OpType.STORE) && bool_decide (opType ≠ OpType.BRANCH).

(** Update of the register alias table. *)
Definition renameDest (opType : OpType.t) (d : string) (t : string)
    (regs : gmap string Register) : gmap string Register :=
  if writesRegister opType then
    match regs !! d with
    | Some r => <[d := set_qi (Some t) r]> regs
    | None => regs
    end
  else regs.

(** Step 3b once a free station has been found: the issue proper. *)
Definition commitIssue (s : SimulationState) (ik : nat) (issueInst : InstructionLine)
    (effectiveAddr : option Z) (rsIndex : nat) (freeRS : ReservationStation)
    : SimulationState :=
  let opType := getOpType (op issueInst) in
  let s := set_instructions
             (<[ik := set_issueCycle (Some (cycle s)) issueInst]> (instructions s)) s in
  let s := set_pc (pc s + 4) s in
  let s := if decide (opType = OpType.BRANCH) then set_branchStall true s else s in
  let j := firstOperand (registers s) (cdb s) opType issueInst in
  let k := secondOperand (registers s) (cdb s) opType issueInst in
  let s := set_reservationStations
             (<[rsIndex := occupy freeRS issueInst j k (addressSlot opType effectiveAddr)]>
                (reservationStations s)) s in
  set_registers (renameDest opType (dest issueInst) (rs_id freeRS) (registers s)) s.

Definition freeStation (rsType : RSType.t) (r : ReservationStation) : Prop :=
  rs_type r = rsType ∧ busy r = false.

#[global] Instance freeStation_dec ty r : Decision (freeStation ty r).
Proof. unfold freeStation. apply _. Defined.

Definition issue (s : SimulationState) : SimulationState :=
  if branchStall s then s
  else
    let '(insts, sel) := selectIssueInst (instructions s) (pc s) in
    let s := set_instructions insts s in
    match sel with
    | None => s
    | Some (ik, issueInst) =>
        let opType := getOpType (op issueInst) in
        let rsType := getRSType opType in
        let '(effectiveAddr, stallIssue) := addressAndHazard s issueInst in
        if stallIssue then s
        else
          match list_find (freeStation rsType) (reservationStations s) with
          | None => s
          | Some (rsIndex, freeRS) =>
              commitIssue s ik issueInst effectiveAddr rsIndex freeRS
          end
    end.

(** *** Completion check *)

Definition allWritten (s : SimulationState) : bool :=
  forallb (λ i, bool_decide (writeCycle i ≠ None)) (instructions s).

Definition pcIsValid (s : SimulationState) : bool :=
  existsb (λ i, bool_decide (pcAddress i = pc s)) (instructions s).

Definition checkCompletion (s : SimulationState) : SimulationState :=
  if allWritten s && negb (pcIsValid s)
  then push_log LogCompleted (set_isFinished true s)
  else s.

(** *** One clock cycle *)

Definition beginCycle (s : SimulationState) : SimulationState :=
  set_cycle_cdb (cycle s + 1) None s.

(** The state at the start of the issue phase. *)
Definition beforeIssue (s : SimulationState) (config : SystemConfig)
    (labels : gmap string Z) : SimulationState :=
  execute config labels (writeResult (beginCycle s)).

Definition nextCycle (state : SimulationState) (config : SystemConfig)
    (labels : gmap string Z) : SimulationState :=
  if isFinished state then state
  else checkCompletion (issue (beforeIssue state config labels)).

(** [n] consecutive cycles. *)
Fixpoint run (n : nat) (s : SimulationState) (config : SystemConfig)
    (labels : gmap string Z) : SimulationState :=
  match n with
  | O => s
  | S n' => nextCycle (run n' s config labels) config labels
  end.

(** ** Assembly parser ([parseAssembly]) *)

(** Strings are byte strings; white space is the ASCII white space
    (tab, line feed, vertical tab, form feed, carriage return, space). *)
Definition isSpace (c : ascii) : bool := Ascii.is_space c.

Fixpoint trimStart (s : string) : string :=
  match s with
  | String c s' => if isSpace c then trimStart s' else s
  | EmptyString => EmptyString
  end.

Definition trim (s : string) : string :=
  String.rev (trimStart (String.rev (trimStart s))).

(** [s.split(c)] for a one-character separator. *)
Fixpoint split (c : ascii) (s : string) : list string :=
  match s with
  | EmptyString => [EmptyString]
  | String x s' =>
      if decide (x = c) then EmptyString :: split c s'
      else
        match split c s' with
        | h :: t => String x h :: t
        | [] => [String x EmptyString]
        end
  end.

(** [s.split(/\s+/)]: [inRun] tells that the preceding character was
    white space. *)
Fixpoint splitSpaces (inRun : bool) (s : string) : list string :=
  match s with
  | EmptyString => [EmptyString]
  | String x s' =>
      if isSpace x then
        if inRun then splitSpaces true s'
        else EmptyString :: splitSpaces true s'
      else
        match splitSpaces false s' with
        | h :: t => String x h :: t
        | [] => [String x EmptyString]
        end
  end.

(** [s.replace(/,/g, ' ')] *)
Fixpoint commasToSpaces (s : string) : string :=
  match s with
  | EmptyString => EmptyString
  | String c s' =>
      String (if decide (c = ","%char) then " "%char else c) (commasToSpaces s')
  end.

Definition hasChar (c : ascii) (s : string) : bool :=
  bool_decide (c ∈ list_ascii_of_string s).

(** Digits.  [digitVal radix c] is the value of [c] as a digit of the
    radix, if it is one. *)
Definition digitVal (radix : Z) (c : ascii) : option Z :=
  let n := Z.of_nat (nat_of_ascii c) in
  let v :=
    if (48 <=? n) && (n <=? 57) then Some (n - 48)
    else if (97 <=? n) && (n <=? 122) then Some (n - 87)
    else if (65 <=? n) && (n <=? 90) then Some (n - 55)
    else None in
  match v with
  | Some d => if d <? radix then Some d else None
  | None => None
  end.

(** Reads the longest prefix of digits; [None] when there is none. *)
Fixpoint readDigits (radix : Z) (acc : option Z) (s : string) : option Z :=
  match s with
  | EmptyString => acc
  | String c s' =>
      match digitVal radix c with
      | Some d => readDigits radix (Some (default 0 acc * radix + d)) s'
      | None => acc
      end
  end.

(** [parseInt(s)] without a radix: optional white space and sign, then a
    hexadecimal literal after [0x]/[0X] or a decimal one; [None] is [NaN]. *)
Definition parseInt (s : string) : option Z :=
  let s := trimStart s in
  let '(sign, s) :=
    match s with
    | String "-"%char s' => (-1, s')
    | String "+"%char s' => (1, s')
    | _ => (1, s)
    end in
  let magnitude :=
    match s with
    | String "0"%char (String x s') =>
        if bool_decide (x = "x"%char ∨ x = "X"%char)
        then readDigits 16 None s'
        else readDigits 10 None s
    | _ => readDigits 10 None s
    end in
  Z.mul sign <$> magnitude.

(** [src1.match(/^(-?\d+)\((.+)\)$/)]: the two captured groups. *)
Fixpoint spanDigits (s : string) : string * string :=
  match s with
  | String c s' =>
      if bool_decide (is_Some (digitVal 10 c)) then
        let '(d, r) := spanDigits s' in (String c d, r)
      else (EmptyString, s)
  | EmptyString => (EmptyString, EmptyString)
  end.

Definition matchOffsetBase (s : string) : option (string * string) :=
  let '(sign, body) :=
    match s with
    | String "-"%char s' => ("-", s')
    | _ => ("", s)
    end in
  let '(digits, rest) := spanDigits body in
  match digits, rest with
  | String _ _, String "("%char inner =>
      match String.rev inner with
      | String ")"%char (String c r) => Some (sign +:+ digits, String.rev (String c r))
      | _ => None
      end
  | _, _ => None
  end.

Record CleanLine := {
  cl_raw : string;
  cl_pc : Z;
}.

Record FirstPass := {
  fp_labels : gmap string Z;
  fp_pcCounter : Z;
  fp_cleanLines : list CleanLine;
}.

(** [xs[i] || ''] *)
Definition part (i : nat) (parts : list string) : string := default "" (parts !! i).

(** First pass: labels and clean lines. *)
Definition firstPassLine (acc : FirstPass) (line : string) : FirstPass :=
  let '(labels, currentLine) :=
    if hasChar ":"%char line then
      let parts := split ":"%char line in
      let label := trim (part 0 parts) in
      (<[label := fp_pcCounter acc]> (fp_labels acc), trim (part 1 parts))
    else (fp_labels acc, line) in
  if nonEmpty currentLine then
    {| fp_labels := labels; fp_pcCounter := fp_pcCounter acc + 4;
       fp_cleanLines :=
         fp_cleanLines acc ++ [{| cl_raw := currentLine; cl_pc := fp_pcCounter acc |}] |}
  else
    {| fp_labels := labels; fp_pcCounter := fp_pcCounter acc;
       fp_cleanLines := fp_cleanLines acc |}.

(** Second pass: one instruction per clean line. *)
Definition parseLine (labels : gmap string Z) (index : nat) (item : CleanLine)
    : InstructionLine :=
  let parts := splitSpaces false (commasToSpaces (cl_raw item)) in
  let o := toUpperCase (part 0 parts) in
  let d := part 1 parts in
  let s1 := part 2 parts in
  let s2 := part 3 parts in
  let '(s1, s2, imm) :=
    if hasChar "("%char s1 && hasChar ")"%char s1 then
      match matchOffsetBase s1 with
      | Some (off, baseReg) =>
          let imm := default 0 (parseInt off) in
          (baseReg, pretty imm, imm)
      | None => (s1, s2, 0)
      end
    else
      let imm := default 0 (parseInt s2) in
      match labels !! s2 with
      | Some _ => (s1, s2, imm)
      | None =>
          if bool_decide (is_Some (labels !! s1)) && negb (nonEmpty s2)
          then (s1, s1, imm)
          else (s1, s2, imm)
      end in
  {| inst_id := Z.of_nat index; raw := cl_raw item; op := o; dest := d;
     src1 := s1; src2 := s2; immediate := imm; pcAddress := cl_pc item;
     issueCycle := None; execStartCycle := None; execEndCycle := None;
     writeCycle := None |}.

Record Parsed := {
  p_instructions : list InstructionLine;
  p_labels : gmap string Z;
}.

Definition newline : ascii := ascii_of_nat 10.

Definition sourceLines (code : string) : list string :=
  filter (λ l, nonEmpty l = true) (trim <$> split newline code).

Definition parseAssembly (code : string) : Parsed :=
  let lines := sourceLines code in
  let fp := foldl firstPassLine
              {| fp_labels := ∅; fp_pcCounter := 0; fp_cleanLines := [] |} lines in
  {| p_instructions := imap (parseLine (fp_labels fp)) (fp_cleanLines fp);
     p_labels := fp_labels fp |}.


(** ** Notions used in the statements *)

(** The block a miss inserts. *)
Definition newBlock (t c : Z) : CacheBlock :=
  {| tag := t; valid := true; data := []; lastAccess := c |}.

(** [v], found at position [i] of [l], is the eviction victim: its
    [lastAccess] is the smallest, and strictly smaller than that of every
    block before it in the array. *)
Definition lruVictim (l : list CacheBlock) (i : nat) (v : CacheBlock) : Prop :=
  l !! i = Some v ∧
  (∀ j w, l !! j = Some w → lastAccess v ≤ lastAccess w) ∧
  (∀ j w, l !! j = Some w → (j < i)%nat → lastAccess v < lastAccess w).


(** The fields the state gets from a visit of the execute phase that does
    something: the station and its instruction are rewritten in place. *)
Definition executed (s s' : SimulationState) (k : nat) : Prop :=
  ∃ rs ik inst (retire : bool) t v stc e w,
    reservationStations s !! k = Some rs ∧ busy rs = true ∧
    findInst (instId rs) (instructions s) = Some (ik, inst) ∧
    instructions s' =
      <[ik := set_writeCycle w (set_execEndCycle e (set_execStartCycle stc inst))]>
        (instructions s) ∧
    reservationStations s' =
      <[k := if retire then clearStation (set_timeLeft t rs)
             else set_result v (set_timeLeft t rs)]> (reservationStations s) ∧
    (branchStall s' = branchStall s ∨ branchStall s' = false) ∧
    (e = execEndCycle inst ∨ execEndCycle inst = None) ∧
    (execEndCycle inst = None → e ≠ None →
     getOpType (op inst) = OpType.BRANCH → branchStall s' = false).

(** The condition under which the step declares the run finished. *)
Definition completed (s : SimulationState) : Prop :=
  (∀ i, i ∈ instructions s → writeCycle i ≠ None) ∧
  (∀ i, i ∈ instructions s → pcAddress i ≠ pc s).

(** The issue phase finds [issueInst] at position [ik], resolves its
    address to [effectiveAddr] without a stall and takes the free station
    [freeRS] at position [rsIndex]. *)
Definition issues (s : SimulationState) (ik : nat) (issueInst : InstructionLine)
    (effectiveAddr : option Z) (rsIndex : nat) (freeRS : ReservationStation)
    : Prop :=
  let sel := selectIssueInst (instructions s) (pc s) in
  branchStall s = false ∧
  sel.2 = Some (ik, issueInst) ∧
  addressAndHazard (set_instructions sel.1 s) issueInst = (effectiveAddr, false) ∧
  list_find (freeStation (getRSType (getOpType (op issueInst))))
    (reservationStations s) = Some (rsIndex, freeRS).

(** The issue phase issues nothing: at most a clone is appended. *)
Definition issuesNothing (s : SimulationState) : Prop :=
  issue s = set_instructions (selectIssueInst (instructions s) (pc s)).1 s.

(** The station [rs] forces a stall of the candidate. *)
Definition blocks (insts : list InstructionLine) (issueInst : InstructionLine)
    (opType : OpType.t) (effectiveAddr : option Z) (rs : ReservationStation)
    : Prop :=
  busy rs = true ∧ (∃ i, instId rs = Some i ∧ i < inst_id issueInst) ∧
  a rs = effectiveAddr ∧
  conflicts opType (boundOpType insts (instId rs)) = true.

(** The invariant of a reservation station: busy exactly when bound to an
    instruction; empty operand slots when idle; never both a value and a
    tag in one operand slot. *)
Definition stationInv (r : ReservationStation) : Prop :=
  (busy r = true ↔ instId r ≠ None) ∧
  (busy r = false → vj r = None ∧ qj r = None ∧ vk r = None ∧ qk r = None) ∧
  (vj r = None ∨ qj r = None) ∧
  (vk r = None ∨ qk r = None).

(** The instruction at position [k] had its [issueCycle] set between the
    lists [before] and [after] (it may be new in [after]). *)
Definition issuedAt (before after : list InstructionLine) (k : nat) : Prop :=
  ∃ i', after !! k = Some i' ∧ issueCycle i' ≠ None ∧
        ∀ i, before !! k = Some i → issueCycle i = None.

(** The instruction at position [k] had its [execEndCycle] set between
    the lists [before] and [after]. *)
Definition finishedAt (before after : list InstructionLine) (k : nat) : Prop :=
  ∃ i i', before !! k = Some i ∧ execEndCycle i = None ∧
          after !! k = Some i' ∧ execEndCycle i' ≠ None.

(** The state at the end of the write-back phase. *)
Definition afterWriteBack (s : SimulationState) : SimulationState :=
  writeResult (beginCycle s).

(** Across the execute phase: an instruction keeps its opcode, and if a
    BRANCH gets its [execEndCycle] the flag is down at the end. *)
Definition executeTrace (s0 s : SimulationState) : Prop :=
  ∀ k i', instructions s !! k = Some i' →
    ∃ i, instructions s0 !! k = Some i ∧ op i' = op i ∧
         (execEndCycle i' = execEndCycle i ∨
          (execEndCycle i = None ∧
           (getOpType (op i) = OpType.BRANCH → branchStall s = false))).

(** A source line without its [LABEL:] prefix, as the first pass of the
    parser computes it. *)
Definition stripLabel (line : string) : string :=
  if hasChar ":"%char line then trim (part 1 (split ":"%char line)) else line.

(** The clean lines the first pass produces from [ls] when the PC counter
    stands at [pc]. *)
Fixpoint cleanFrom (pc : Z) (ls : list string) : list CleanLine :=
  match ls with
  | [] => []
  | l :: ls' =>
      if nonEmpty (stripLabel l)
      then {| cl_raw := stripLabel l; cl_pc := pc |} :: cleanFrom (pc + 4) ls'
      else cleanFrom pc ls'
  end.

(** The opcode token of a clean line. *)
Definition opcodeToken (rawLine : string) : string :=
  part 0 (splitSpaces false (commasToSpaces rawLine)).

(** The opcodes [getOpType] knows. *)
Definition recognizedOpcode (o : string) : bool :=
  str_in (toUpperCase o)
    ["L.D"; "LW"; "LD"; "L.S"; "S.D"; "SW"; "SD"; "S.S"; "ADD.D"; "ADD.S";
     "SUB.D"; "SUB.S"; "MUL"; "MUL.D"; "MUL.S"; "DIV"; "DIV.D"; "DIV.S";
     "ADD"; "ADDI"; "DADDI"; "DADD"; "SUB"; "SUBI"; "DSUBI"; "DSUB";
     "BNE"; "BEQ"; "BNEZ"; "BEQZ"].

(** The operation classes whose second operand is [src2] or the
    immediate. *)
Definition isArithmetic (o : OpType.t) : Prop :=
  o ≠ OpType.LOAD ∧ o ≠ OpType.STORE ∧ o ≠ OpType.BRANCH.

(** ** Notions used in the further properties *)

(** The operations that retire at the end of their execution, without a
    broadcast on the CDB. *)
Definition retiresAtExecute (o : OpType.t) : bool :=
  bool_decide (o = OpType.STORE ∨ o = OpType.BRANCH).

(** [inst.execStartCycle = c] unless it is already set. *)
Definition stampStart (c : Z) (i : InstructionLine) : InstructionLine :=
  match execStartCycle i with
  | Some _ => i
  | None => set_execStartCycle (Some c) i
  end.

(** What a visit of the execute phase at cycle [c] makes of a station and
    of the instruction it is bound to: the timer runs; or the instruction
    completes and retires; or it completes and leaves a result. *)
Inductive visitOutcome (c : Z) (rs : ReservationStation) (inst : InstructionLine)
    : ReservationStation → InstructionLine → Prop :=
| VisitRunning t :
    visitOutcome c rs inst (set_timeLeft t rs) (stampStart c inst)
| VisitRetire t :
    execEndCycle inst = None →
    retiresAtExecute (getOpType (op inst)) = true →
    visitOutcome c rs inst (clearStation (set_timeLeft t rs))
      (set_writeCycle (Some c) (set_execEndCycle (Some c) (stampStart c inst)))
| VisitResult t v :
    execEndCycle inst = None →
    retiresAtExecute (getOpType (op inst)) = false →
    visitOutcome c rs inst (set_result (Some v) (set_timeLeft t rs))
      (set_execEndCycle (Some c) (stampStart c inst)).

(** The four timestamps of an instruction are consistent: each one that is
    set has its predecessor set; an instruction starts executing after the
    cycle of its issue, completes no earlier than it starts, and writes its
    result in the cycle of its completion when it retires at execute and in
    a later cycle otherwise.  [bi], [be] and [bw] bound the issue, the
    execution and the write timestamps. *)
Definition stampsOk (bi be bw : Z) (i : InstructionLine) : Prop :=
  (∀ c, issueCycle i = Some c → c ≤ bi) ∧
  (∀ c, execStartCycle i = Some c →
        c ≤ be ∧ ∃ c0, issueCycle i = Some c0 ∧ c0 < c) ∧
  (∀ c, execEndCycle i = Some c →
        c ≤ be ∧ ∃ c0, execStartCycle i = Some c0 ∧ c0 ≤ c) ∧
  (∀ c, writeCycle i = Some c →
        c ≤ bw ∧ ∃ c0, execEndCycle i = Some c0 ∧
                 if retiresAtExecute (getOpType (op i)) then c0 = c else c0 < c).

(** No timestamp is set. *)
Definition unstamped (i : InstructionLine) : Prop :=
  issueCycle i = None ∧ execStartCycle i = None ∧
  execEndCycle i = None ∧ writeCycle i = None.

(** The busy station [rs] holds the instruction [inst]. *)
Definition bound (rs : ReservationStation) (inst : InstructionLine) : Prop :=
  instId rs = Some (inst_id inst) ∧
  issueCycle inst ≠ None ∧ writeCycle inst = None ∧
  rs_op rs = Some (op inst) ∧
  rs_type rs = getRSType (getOpType (op inst)) ∧
  (result rs ≠ None →
   execEndCycle inst ≠ None ∧
   retiresAtExecute (getOpType (op inst)) = false).

(** The invariant of the engine. *)
Record engineInv (bi be bw : Z) (s : SimulationState) : Prop := {
  inv_ids : NoDup (inst_id <$> instructions s);
  inv_stamps : Forall (stampsOk bi be bw) (instructions s);
  inv_bound :
    ∀ k rs, reservationStations s !! k = Some rs → busy rs = true →
      ∃ j inst, instructions s !! j = Some inst ∧ bound rs inst;
  inv_inj :
    ∀ k1 k2 r1 r2,
      reservationStations s !! k1 = Some r1 →
      reservationStations s !! k2 = Some r2 →
      busy r1 = true → busy r2 = true → instId r1 = instId r2 → k1 = k2;
}.

(** The station [r'] holds what [r] holds. *)
Definition sameBinding (r r' : ReservationStation) : Prop :=
  instId r' = instId r ∧ rs_op r' = rs_op r ∧ rs_type r' = rs_type r ∧
  result r' = result r.

(** The invariant between two steps: the timestamps are bounded by the
    cycle counter. *)
Definition wellFormed (s : SimulationState) : Prop :=
  engineInv (cycle s) (cycle s) (cycle s) s.

(** [i'] is a later state of the dynamic instruction [i]: the fields the
    parser fills are the same, and a timestamp that is set keeps its
    value. *)
Definition extends (i i' : InstructionLine) : Prop :=
  inst_id i' = inst_id i ∧ raw i' = raw i ∧ op i' = op i ∧ dest i' = dest i ∧
  src1 i' = src1 i ∧ src2 i' = src2 i ∧ immediate i' = immediate i ∧
  pcAddress i' = pcAddress i ∧
  (∀ c, issueCycle i = Some c → issueCycle i' = Some c) ∧
  (∀ c, execStartCycle i = Some c → execStartCycle i' = Some c) ∧
  (∀ c, execEndCycle i = Some c → execEndCycle i' = Some c) ∧
  (∀ c, writeCycle i = Some c → writeCycle i' = Some c).

(** Every instruction of [l] is still in [l'], at the same position. *)
Definition grows (l l' : list InstructionLine) : Prop :=
  ∀ k i, l !! k = Some i → ∃ i', l' !! k = Some i' ∧ extends i i'.

(** The tag [t] names a busy station whose operation broadcasts its
    result. *)
Definition producing (s : SimulationState) (t : string) : Prop :=
  ∃ k rs o, reservationStations s !! k = Some rs ∧ rs_id rs = t ∧
            busy rs = true ∧ rs_op rs = Some o ∧
            retiresAtExecute (getOpType o) = false.

(** No tag dangles: every tag a register or an operand slot of a busy
    station waits for names a producing station. *)
Definition tagsLive (s : SimulationState) : Prop :=
  (∀ n r t, registers s !! n = Some r → qi r = Some t → producing s t) ∧
  (∀ k rs t, reservationStations s !! k = Some rs → busy rs = true →
             qj rs = Some t ∨ qk rs = Some t → producing s t).

(** The fields of an instruction the parser fills and the engine only
    reads. *)
Definition staticFields (i : InstructionLine)
    : string * string * string * string * string * Z * Z :=
  (raw i, op i, dest i, src1 i, src2 i, immediate i, pcAddress i).

(** Every instruction of [l'] is an instance of an instruction of [l]. *)
Definition instancesOf (l l' : list InstructionLine) : Prop :=
  ∀ i', i' ∈ l' → ∃ i, i ∈ l ∧ staticFields i' = staticFields i.

(** The name (the tag broadcast on the CDB) and the class of a station. *)
Definition stationName (r : ReservationStation) : string * RSType.t :=
  (rs_id r, rs_type r).

(** The execution times an instruction may be given when it starts: the
    latency of its class, or, for a LOAD that misses the cache, that
    latency plus the miss penalty. *)
Definition allowedLatency (config : SystemConfig) (i : InstructionLine) (L : Z)
    : Prop :=
  L = latencies config (getOpType (op i)) ∨
  (getOpType (op i) = OpType.LOAD ∧ enabled (cacheConfig config) = true ∧
   L = latencies config OpType.LOAD + missPenalty (cacheConfig config)).

(** The instruction completed in the last cycle of its execution time. *)
Definition ranForLatency (config : SystemConfig) (i : InstructionLine) : Prop :=
  ∀ c0 c1, execStartCycle i = Some c0 → execEndCycle i = Some c1 →
    ∃ L, allowedLatency config i L ∧ c1 = c0 + L - 1.

(** The station [rs] holds the instruction [i], visited by the execute
    phase up to cycle [c]: if [i] is executing, the operands are there and
    the timer shows the cycles that remain. *)
Definition onTime (config : SystemConfig) (c : Z) (rs : ReservationStation)
    (i : InstructionLine) : Prop :=
  ∀ c0, execStartCycle i = Some c0 → execEndCycle i = None →
    qj rs = None ∧ qk rs = None ∧ 0 < timeLeft rs ∧
    ∃ L, allowedLatency config i L ∧ timeLeft rs = c0 + L - 1 - c.

(** The timing invariant; [f k] is the cycle up to which the station at
    position [k] has been visited. *)
Definition timingInv (config : SystemConfig) (f : nat → Z) (s : SimulationState)
    : Prop :=
  Forall (ranForLatency config) (instructions s) ∧
  ∀ k rs j i,
    reservationStations s !! k = Some rs → busy rs = true →
    instructions s !! j = Some i → instId rs = Some (inst_id i) →
    onTime config (f k) rs i.

(** The fields the timing depends on. *)
Definition sameTiming (i i' : InstructionLine) : Prop :=
  inst_id i' = inst_id i ∧ op i' = op i ∧
  execStartCycle i' = execStartCycle i ∧ execEndCycle i' = execEndCycle i.

(** Every character of [s] is a decimal digit. *)
Fixpoint allDigits (s : string) : bool :=
  match s with
  | EmptyString => true
  | String c s' => bool_decide (is_Some (digitVal 10 c)) && allDigits s'
  end.

(** A branch is in flight in the station at position [k]. *)
Definition branchAt (s : SimulationState) (k : nat) : Prop :=
  ∃ rs o, reservationStations s !! k = Some rs ∧ busy rs = true ∧
          rs_op rs = Some o ∧ getOpType o = OpType.BRANCH.

(** The stall flag is up exactly while a branch is in flight, and at most
    one branch is. *)
Definition stallInv (s : SimulationState) : Prop :=
  (branchStall s = true ↔ ∃ k, branchAt s k) ∧
  (∀ k1 k2, branchAt s k1 → branchAt s k2 → k1 = k2).

(** The address field of a LOAD or STORE station in the engine of
    [services/tomasulo.ts]: the offset of its instruction until the
    execution starts, the base value plus the offset from then on. *)
Definition addressed (rs : ReservationStation) (i : InstructionLine) : Prop :=
  getOpType (op i) = OpType.LOAD ∨ getOpType (op i) = OpType.STORE →
  match execStartCycle i with
  | None => a rs = Some (immediate i)
  | Some _ => qj rs = None ∧ a rs = Some (default 0 (vj rs) + immediate i)
  end.

Definition addressInv (s : SimulationState) : Prop :=
  ∀ k rs j i,
    reservationStations s !! k = Some rs → busy rs = true →
    instructions s !! j = Some i → instId rs = Some (inst_id i) →
    addressed rs i.

(** ** The cycle engine of [services/tomasulo.ts]

    The engine the application imports.  It shares [getOpType],
    [getRSType], [accessCache] and [initializeState] with the engine
    above, and differs from it in four places: the write-back phase finds
    the station to reset by its name; the effective address of a LOAD or
    STORE is computed when its execution starts, from the first operand
    and the offset; the issue phase has neither the loop re-entry nor the
    address and hazard check, and maps the operands otherwise; and the run
    is finished as soon as every instruction is written. *)
Module Services.

Definition set_a (x : option Z) (r : ReservationStation) : ReservationStation :=
  {| rs_id := rs_id r; rs_type := rs_type r; busy := busy r; rs_op := rs_op r;
     vj := vj r; vk := vk r; qj := qj r; qk := qk r; a := x;
     instId := instId r; timeLeft := timeLeft r; result := result r |}.

(** *** Phase 1: write result *)

Definition writeResult (s : SimulationState) : SimulationState :=
  match list_find readyToWrite (reservationStations s) with
  | None => s
  | Some (_, cdbProducer) =>
      let res := default 0 (result cdbProducer) in
      let t := rs_id cdbProducer in
      let s := set_cycle_cdb (cycle s) (Some {| cdb_tag := t; cdb_value := res |}) s in
      let s := push_log (LogBroadcast (cycle s) t res) s in
      let s :=
        set_instructions
          match findInst (instId cdbProducer) (instructions s) with
          | Some (ik, inst) =>
              <[ik := set_writeCycle (Some (cycle s)) inst]> (instructions s)
          | None => instructions s
          end s in
      let s := set_registers (captureRegister t res <$> registers s) s in
      let s := set_reservationStations
                 (captureOperands t res <$> reservationStations s) s in
      (* [findIndex((r) => r.id === cdbProducer.id)] *)
      match list_find (λ r, rs_id r = t) (reservationStations s) with
      | Some (producerIndex, _) =>
          set_reservationStations
            (alter clearStation producerIndex (reservationStations s)) s
      | None => s
      end
  end.

(** *** Phase 2: execute *)

Definition startExecution (config : SystemConfig) (rs : ReservationStation)
    (inst : InstructionLine) (s : SimulationState)
    : ReservationStation * InstructionLine * SimulationState :=
  match execStartCycle inst with
  | Some _ => (rs, inst, s)
  | None =>
      let inst := set_execStartCycle (Some (cycle s)) inst in
      let opType := getOpType (op inst) in
      if decide (opType = OpType.LOAD ∨ opType = OpType.STORE) then
        (* base value in [vj], offset in [a] *)
        let effectiveAddr := default 0 (vj rs) + default 0 (a rs) in
        let rs := set_a (Some effectiveAddr) rs in
        if decide (opType = OpType.LOAD) then
          let r := accessCache effectiveAddr config (cache s) (cycle s) in
          let s := set_cache (newCache r) s in
          let latency :=
            latencies config OpType.LOAD + (if hit r then 0 else penalty r) in
          let s :=
            if hit r then s
            else push_log (LogCacheMiss (cycle s) (op inst) effectiveAddr) s in
          (set_timeLeft latency rs, inst, s)
        else (set_timeLeft (latencies config OpType.STORE) rs, inst, s)
      else (set_timeLeft (latencies config opType) rs, inst, s)
  end.

Definition isSubName (o : string) : bool :=
  existsb (λ x, includes (toUpperCase o) x)
    ["SUB"; "SUBI"; "DSUBI"; "SUB.D"; "SUB.S"].

Definition aluResult (opType : OpType.t) (o : string) (v1 v2 : Z)
    (rs : ReservationStation) (mem : gmap Z Z) : Z :=
  match opType with
  | OpType.ADD | OpType.INTEGER =>
      if isAddName o then v1 + v2
      else if isSubName o then v1 - v2
      else 0
  | OpType.SUB => v1 - v2
  | OpType.MULT => v1 * v2
  | OpType.DIV => if decide (v2 ≠ 0) then v1 / v2 else 0
  | OpType.LOAD => default 0 (mem !! default 0 (a rs))
  | OpType.STORE | OpType.BRANCH => 0
  end.

Definition finishExecution (labels : gmap string Z) (rs : ReservationStation)
    (inst : InstructionLine) (s : SimulationState)
    : ReservationStation * InstructionLine * SimulationState :=
  if decide (timeLeft rs = 0 ∧ execEndCycle inst = None) then
    let inst := set_execEndCycle (Some (cycle s)) inst in
    let opType := getOpType (op inst) in
    let v1 := default 0 (vj rs) in
    let v2 := default 0 (vk rs) in
    match opType with
    | OpType.STORE =>
        let s := set_memory (<[default 0 (a rs) := default 0 (vk rs)]> (memory s)) s in
        (clearStation rs, set_writeCycle (Some (cycle s)) inst, s)
    | OpType.BRANCH =>
        let s :=
          if branchTaken (op inst) v1 v2 then
            let targetLabel := src2 inst in
            match labels !! targetLabel with
            | Some target =>
                push_log (LogBranchTaken (cycle s) targetLabel) (set_pc target s)
            | None => s
            end
          else s in
        let s := set_branchStall false s in
        (clearStation rs, set_writeCycle (Some (cycle s)) inst, s)
    | _ =>
        (set_result (Some (aluResult opType (op inst) v1 v2 rs (memory s))) rs,
         inst, s)
    end
  else (rs, inst, s).

Definition executeStation (config : SystemConfig) (labels : gmap string Z)
    (s : SimulationState) (k : nat) : SimulationState :=
  match reservationStations s !! k with
  | None => s
  | Some rs =>
      if negb (busy rs) then s
      else if decide (qj rs = None ∧ qk rs = None) then
        match findInst (instId rs) (instructions s) with
        | None => s
        | Some (ik, inst) =>
            let '(rs, inst, s) := startExecution config rs inst s in
            let rs := tick rs in
            let '(rs, inst, s) := finishExecution labels rs inst s in
            set_reservationStations (<[k := rs]> (reservationStations s))
              (set_instructions (<[ik := inst]> (instructions s)) s)
        end
      else s
  end.

Definition execute (config : SystemConfig) (labels : gmap string Z)
    (s : SimulationState) : SimulationState :=
  foldl (executeStation config labels) s
    (seq 0 (length (reservationStations s))).

(** *** Phase 3: issue *)

(** The value or the tag of a register; nothing for a name that is not a
    register. *)
Definition readRegister (regs : gmap string Register) (b : option Cdb)
    (regName : string) : option Z * option string :=
  match regs !! regName with
  | None => (None, None)
  | Some r =>
      match tagOf r with
      | Some t =>
          if cdbHas b t then (Some (cdbValue b), None) else (None, Some t)
      | None => (Some (value r), None)
      end
  end.

Definition firstOperand (regs : gmap string Register) (b : option Cdb)
    (issueInst : InstructionLine) : option Z * option string :=
  if nonEmpty (src1 issueInst) then readRegister regs b (src1 issueInst)
  else (None, None).

Definition secondOperand (regs : gmap string Register) (b : option Cdb)
    (opType : OpType.t) (issueInst : InstructionLine) : option Z * option string :=
  match opType with
  | OpType.LOAD => (None, None)
  | OpType.STORE => readRegister regs b (dest issueInst)
  | OpType.BRANCH => readRegister regs b (src2 issueInst)
  | _ =>
      match regs !! src2 issueInst with
      | Some _ => readRegister regs b (src2 issueInst)
      | None => (Some (immediate issueInst), None)
      end
  end.

(** The offset; the base is added when the execution starts. *)
Definition addressSlot (opType : OpType.t) (issueInst : InstructionLine)
    : option Z :=
  match opType with
  | OpType.LOAD | OpType.STORE => Some (immediate issueInst)
  | _ => None
  end.

Definition commitIssue (s : SimulationState) (ik : nat) (issueInst : InstructionLine)
    (rsIndex : nat) (freeRS : ReservationStation) : SimulationState :=
  let opType := getOpType (op issueInst) in
  let s := set_instructions
             (<[ik := set_issueCycle (Some (cycle s)) issueInst]> (instructions s)) s in
  let s := set_pc (pc s + 4) s in
  let s := if decide (opType = OpType.BRANCH) then set_branchStall true s else s in
  let j := firstOperand (registers s) (cdb s) issueInst in
  let k := secondOperand (registers s) (cdb s) opType issueInst in
  let s := set_reservationStations
             (<[rsIndex := occupy freeRS issueInst j k (addressSlot opType issueInst)]>
                (reservationStations s)) s in
  set_registers (renameDest opType (dest issueInst) (rs_id freeRS) (registers s)) s.

Definition issue (s : SimulationState) : SimulationState :=
  if branchStall s then s
  else
    match list_find (λ i, pcAddress i = pc s ∧ issueCycle i = None)
            (instructions s) with
    | None => s
    | Some (ik, issueInst) =>
        let rsType := getRSType (getOpType (op issueInst)) in
        match list_find (freeStation rsType) (reservationStations s) with
        | None => s
        | Some (rsIndex, freeRS) => commitIssue s ik issueInst rsIndex freeRS
        end
    end.

(** *** Completion check *)

Definition checkCompletion (s : SimulationState) : SimulationState :=
  if allWritten s then push_log LogCompleted (set_isFinished true s) else s.

(** *** One clock cycle *)

Definition beforeIssue (s : SimulationState) (config : SystemConfig)
    (labels : gmap string Z) : SimulationState :=
  execute config labels (writeResult (beginCycle s)).

Definition nextCycle (state : SimulationState) (config : SystemConfig)
    (labels : gmap string Z) : SimulationState :=
  if isFinished state then state
  else checkCompletion (issue (beforeIssue state config labels)).

Fixpoint run (n : nat) (s : SimulationState) (config : SystemConfig)
    (labels : gmap string Z) : SimulationState :=
  match n with
  | O => s
  | S n' => nextCycle (run n' s config labels) config labels
  end.

End Services.
(** ** Concrete configurations and programs *)

Definition exampleSizes (t : RSType.t) : Z :=
  match t with
  | RSType.ADD => 3
  | RSType.MULT => 2
  | RSType.LOAD => 3
  | RSType.STORE => 3
  | RSType.INTEGER => 2
  end.

Definition exampleLatencies (o : OpType.t) : Z :=
  match o with
  | OpType.LOAD => 2
  | OpType.STORE => 2
  | OpType.ADD => 2
  | OpType.SUB => 2
  | OpType.MULT => 10
  | OpType.DIV => 40
  | OpType.INTEGER => 1
  | OpType.BRANCH => 1
  end.

Definition cacheOf (on : bool) (block size : Z) : CacheConfig :=
  {| enabled := on; blockSize := block; cacheSize := size; hitLatency := 1;
     missPenalty := 10 |}.

(** The configuration of [DEFAULT_CONFIG], completed for the INTEGER class
    (two stations, latency 1). *)
Definition exampleConfig : SystemConfig :=
  {| rsSizes := exampleSizes; latencies := exampleLatencies;
     cacheConfig := cacheOf true 4 16; memorySize := 256 |}.

Definition configWithCache (c : CacheConfig) : SystemConfig :=
  {| rsSizes := exampleSizes; latencies := exampleLatencies;
     cacheConfig := c; memorySize := 256 |}.

(** The registers of [INITIAL_REGISTERS], all zero. *)
Definition exampleRegs : gmap string Z :=
  list_to_map ((λ n, (n, 0)) <$>
    ["F0"; "F2"; "F4"; "F6"; "F8"; "F10"; "F12"; "F14"; "F16"; "F18"; "F20";
     "R1"; "R2"; "R3"; "R4"]).

(** A source text, given line by line. *)
Definition lines (l : list string) : string :=
  foldr (λ x acc,
           match acc with
           | EmptyString => x
           | _ => x +:+ String newline acc
           end) EmptyString l.

(** Latencies under which a multiply issued one cycle before an add
    completes in the same cycle as the add. *)
Definition racingLatencies (o : OpType.t) : Z :=
  match o with
  | OpType.MULT => 3
  | _ => exampleLatencies o
  end.

Definition racingConfig : SystemConfig :=
  {| rsSizes := exampleSizes; latencies := racingLatencies;
     cacheConfig := cacheOf true 4 16; memorySize := 256 |}.

Definition racingProgram : Parsed :=
  parseAssembly (lines ["MUL.D F0, F2, F4"; "ADD.D F6, F8, F2"]).

Definition racingRegs : gmap string Z :=
  <["F2" := 3]> (<["F4" := 5]> (<["F8" := 7]> exampleRegs)).

(** The state after four cycles of [racingProgram]. *)
Definition racingState : SimulationState :=
  run 4 (initializeState (p_instructions racingProgram) racingConfig racingRegs)
    racingConfig (p_labels racingProgram).

(** A loop whose body is a long division: the branch sends the PC back to
    the division while its first instance is still executing. *)
Definition loopProgram : Parsed :=
  parseAssembly (lines ["LOOP: DIV.D F0, F2, F4"; "BEQ R1, R1, LOOP"]).

(** The state after two cycles of [loopProgram]. *)
Definition loopState : SimulationState :=
  run 2 (initializeState (p_instructions loopProgram) exampleConfig exampleRegs)
    exampleConfig (p_labels loopProgram).

(** The sequential sample program ([SAMPLE_CODE_SEQUENTIAL]). *)
Definition sequentialProgram : Parsed :=
  parseAssembly (lines
    ["L.D F6, 0(R2)"; "L.D F2, 8(R2)"; "MUL.D F0, F2, F4"; "SUB.D F8, F2, F6";
     "DIV.D F10, F0, F6"; "ADD.D F6, F8, F2"; "S.D F6, 8(R2)"]).

Definition sequentialStart : SimulationState :=
  initializeState (p_instructions sequentialProgram) exampleConfig exampleRegs.

(** The sequential program at the start of the issue phase of cycle 7:
    the PC is at the final store, whose address 8 is that of the load
    still in flight in station [L2]. *)
Definition storeAtIssue : SimulationState :=
  beforeIssue (run 6 sequentialStart exampleConfig (p_labels sequentialProgram))
    exampleConfig (p_labels sequentialProgram).

(** A state entering the issue phase in which the base register [R2] of
    the load at the PC carries the tag the CDB is broadcasting. *)
Definition forwardingState : SimulationState :=
  {| cycle := 1; pc := 0;
     instructions := p_instructions sequentialProgram;
     reservationStations := initialStations exampleConfig;
     registers := <["R2" := {| name := "R2"; value := 0; qi := Some "I1" |}]>
                    (registers sequentialStart);
     memory := ∅; cache := [];
     cdb := Some {| cdb_tag := "I1"; cdb_value := 100 |};
     log := [LogInitialized]; isFinished := false; branchStall := false |}.

(** A program that starts with a branch. *)
Definition branchProgram : Parsed :=
  parseAssembly (lines ["BNE R1, R2, DONE"; "ADD.D F0, F2, F4"]).

Definition branchStart : SimulationState :=
  initializeState (p_instructions branchProgram) exampleConfig exampleRegs.

(** A program whose destination register [F1] is not in the register
    file ([INITIAL_REGISTERS] holds the even floating-point registers). *)
Definition oddProgram : Parsed :=
  parseAssembly (lines ["ADD.D F1, F2, F4"]).

Definition oddStart : SimulationState :=
  initializeState (p_instructions oddProgram) exampleConfig exampleRegs.

(** A source text with an opcode the simulator does not know and a
    memory operand that lacks its closing parenthesis. *)
Definition brokenSource : string :=
  lines ["FROB F0, F2, F4"; "L.D F6, 8(R2"].

(** The loop sample program ([SAMPLE_CODE_LOOP]). *)
Definition loopSample : Parsed :=
  parseAssembly (lines
    ["DADDI R1, R1, 24"; "DADDI R2, R2, 0"; "LOOP: L.D F0, 0(R1)";
     "MUL.D F4, F0, F2"; "S.D F4, 0(R1)"; "SUBI R1, R1, 8"; "BNE R1, R2, LOOP"]).

(** The four timestamps of every dynamic instruction, with its opcode. *)
Definition timeline (s : SimulationState)
    : list (string * option Z * option Z * option Z * option Z) :=
  (λ i, (op i, issueCycle i, execStartCycle i, execEndCycle i, writeCycle i)) <$>
    instructions s.


(** * Checks of the embedding on the sample programs *)

(** Closed statements about concrete programs are settled by evaluation. *)
Ltac by_evaluation := vm_compute; repeat split; reflexivity.

Example getOpType_samples :
  getOpType "l.d" = OpType.LOAD ∧ getOpType "S.D" = OpType.STORE ∧
  getOpType "ADD.D" = OpType.ADD ∧ getOpType "SUB.D" = OpType.SUB ∧
  getOpType "MUL.D" = OpType.MULT ∧ getOpType "DIV.D" = OpType.DIV ∧
  getOpType "DADDI" = OpType.INTEGER ∧ getOpType "BNE" = OpType.BRANCH ∧
  getOpType "NOP" = OpType.INTEGER.
Proof. by_evaluation. Qed.

Example parseInt_samples :
  parseInt "24" = Some 24 ∧ parseInt "-8" = Some (-8) ∧
  parseInt "12abc" = Some 12 ∧ parseInt "0x1F" = Some 31 ∧
  parseInt "F4" = None ∧ parseInt "" = None ∧ parseInt "LOOP" = None.
Proof. by_evaluation. Qed.

Example splitSpaces_samples :
  splitSpaces false "L.D F0  0(R1)" = ["L.D"; "F0"; "0(R1)"] ∧
  splitSpaces false " A" = [""; "A"] ∧ splitSpaces false "A " = ["A"; ""] ∧
  split ":"%char "LOOP: L.D F0, 0(R1)" = ["LOOP"; " L.D F0, 0(R1)"].
Proof. by_evaluation. Qed.

(** The loop sample: [L.D F0, 0(R1)] becomes dest [F0], base [R1], offset
    0; the branch keeps its label in [src2]; [LOOP] is bound to PC 8. *)
Example parse_loop_sample :
  (λ i, (inst_id i, op i, dest i, src1 i, src2 i, immediate i, pcAddress i)) <$>
    p_instructions loopSample
  = [(0, "DADDI", "R1", "R1", "24", 24, 0);
     (1, "DADDI", "R2", "R2", "0", 0, 4);
     (2, "L.D", "F0", "R1", "0", 0, 8);
     (3, "MUL.D", "F4", "F0", "F2", 0, 12);
     (4, "S.D", "F4", "R1", "0", 0, 16);
     (5, "SUBI", "R1", "R1", "8", 8, 20);
     (6, "BNE", "R1", "R2", "LOOP", 0, 24)] ∧
  p_labels loopSample = {["LOOP" := 8]}.
Proof. split; vm_compute; reflexivity. Qed.

(** The sequential sample runs to completion in 65 cycles; the final
    store waits at issue for the load of the same address. *)
Example run_sequential_sample :
  let s := run 65 sequentialStart exampleConfig (p_labels sequentialProgram) in
  isFinished s = true ∧ cycle s = 65 ∧
  timeline s
  = [("L.D", Some 1, Some 2, Some 13, Some 14);
     ("L.D", Some 2, Some 3, Some 14, Some 15);
     ("MUL.D", Some 3, Some 15, Some 24, Some 25);
     ("SUB.D", Some 4, Some 15, Some 16, Some 17);
     ("DIV.D", Some 5, Some 25, Some 64, Some 65);
     ("ADD.D", Some 6, Some 17, Some 18, Some 19);
     ("S.D", Some 15, Some 19, Some 20, Some 20)] ∧
  isFinished (run 64 sequentialStart exampleConfig (p_labels sequentialProgram))
  = false.
Proof. by_evaluation. Qed.

(** The loop sample: the branch is taken twice and falls through the
    third time, which gives three dynamic instances of the loop body. *)
Example run_loop_sample :
  let s := run 59 (initializeState (p_instructions loopSample) exampleConfig
                     exampleRegs) exampleConfig (p_labels loopSample) in
  isFinished s = true ∧ pc s = 28 ∧
  (λ i, (inst_id i, op i)) <$> instructions s
  = [(0, "DADDI"); (1, "DADDI");
     (2, "L.D"); (3, "MUL.D"); (4, "S.D"); (5, "SUBI"); (6, "BNE");
     (7, "L.D"); (8, "MUL.D"); (9, "S.D"); (10, "SUBI"); (11, "BNE");
     (12, "L.D"); (13, "MUL.D"); (14, "S.D"); (15, "SUBI"); (16, "BNE")] ∧
  value <$> registers s !! "R1" = Some 0.
Proof. by_evaluation. Qed.

(** Three loads of addresses 0, 4 and 8 on a two-block cache: three
    misses, the third in place of the block accessed least recently. *)
Example cache_three_loads :
  let cfg := configWithCache (cacheOf true 4 8) in
  let r1 := accessCache 0 cfg [] 2 in
  let r2 := accessCache 4 cfg (newCache r1) 3 in
  let r3 := accessCache 8 cfg (newCache r2) 4 in
  (hit r1, hit r2, hit r3) = (false, false, false) ∧
  (penalty r1, penalty r2, penalty r3) = (10, 10, 10) ∧
  newCache r3 = [newBlock 2 4; newBlock 1 3].
Proof. by_evaluation. Qed.

(** [ADD.D F1, F2, F4] with no register [F1]: the sum is computed and
    broadcast in cycle 4, and the register file ends as it started. *)
Example run_odd_program :
  let s := run 4 oddStart exampleConfig (p_labels oddProgram) in
  isFinished s = true ∧
  timeline s = [("ADD.D", Some 1, Some 2, Some 3, Some 4)] ∧
  cdb s = Some {| cdb_tag := "A1"; cdb_value := 0 |} ∧
  map_to_list (registers s) = map_to_list (registers oddStart).
Proof. by_evaluation. Qed.
(** * Verification *)

(** ** The cache model *)

Lemma insertByLastAccess_perm x l : insertByLastAccess x l ≡ₚ x :: l.
Proof.
  induction l as [|y l IH]; simpl; [done|].
  destruct (lastAccess x <=? lastAccess y); [done|].
  rewrite IH. apply Permutation_swap.
Qed.

Lemma sortByLastAccess_perm l : sortByLastAccess l ≡ₚ l.
Proof.
  induction l as [|x l IH]; simpl; [done|].
  rewrite insertByLastAccess_perm. by f_equiv.
Qed.

Lemma sortByLastAccess_length l : length (sortByLastAccess l) = length l.
Proof. by rewrite sortByLastAccess_perm. Qed.

Lemma sortByLastAccess_head l :
  l ≠ [] →
  ∃ i v rest,
    sortByLastAccess l = v :: rest ∧ lruVictim l i v ∧ rest ≡ₚ delete i l.
Proof.
  induction l as [|x l IH]; [done|]. intros _.
  destruct l as [|y l'].
  { exists 0%nat, x, []. repeat split; simpl; try done.
    - intros [|j] w Hw; simplify_eq/=; lia.
    - intros j w _ Hj. lia. }
  destruct IH as (i & v & rest & Hs & (Hi & Hmin & Hfst) & Hrest); [done|].
  change (sortByLastAccess (x :: y :: l'))
    with (insertByLastAccess x (sortByLastAccess (y :: l'))).
  rewrite Hs. simpl.
  destruct (lastAccess x <=? lastAccess v) eqn:Hle.
  - apply Z.leb_le in Hle.
    exists 0%nat, x, (v :: rest). repeat split; try done.
    + intros [|j] w Hw; simplify_eq/=; [lia|].
      specialize (Hmin j w Hw). lia.
    + intros j w _ Hj. lia.
    + simpl. rewrite <- Hs. apply sortByLastAccess_perm.
  - apply Z.leb_gt in Hle.
    exists (S i), v, (insertByLastAccess x rest). repeat split; try done.
    + intros [|j] w Hw; simplify_eq/=; [lia|]. by eapply Hmin.
    + intros [|j] w Hw Hj; simplify_eq/=; [lia|].
      eapply Hfst; [done|lia].
    + rewrite insertByLastAccess_perm. simpl. by f_equiv.
Qed.

Lemma belowMaxBlocks_multiple len c k :
  0 < blockSize c → cacheSize c = k * blockSize c →
  belowMaxBlocks len c = true ↔ Z.of_nat len < k.
Proof.
  intros Hb Hc. unfold belowMaxBlocks.
  destruct (0 <? blockSize c) eqn:E; [|apply Z.ltb_ge in E; lia].
  rewrite Z.ltb_lt, Hc. split; [|nia]. intros H. nia.
Qed.

Lemma accessCache_disabled addr config cache cycle :
  enabled (cacheConfig config) = false →
  accessCache addr config cache cycle
  = {| hit := true; penalty := 0; newCache := cache |}.
Proof. intros H. unfold accessCache. by rewrite H. Qed.

Lemma accessCache_hit addr config cache cycle i b :
  enabled (cacheConfig config) = true →
  list_find (λ b, tag b = addr / blockSize (cacheConfig config)) cache = Some (i, b) →
  accessCache addr config cache cycle
  = {| hit := true; penalty := 0; newCache := <[i := touch cycle b]> cache |}.
Proof. intros H Hf. unfold accessCache. by rewrite H, Hf. Qed.

Lemma accessCache_miss addr config cache cycle :
  enabled (cacheConfig config) = true →
  list_find (λ b, tag b = addr / blockSize (cacheConfig config)) cache = None →
  accessCache addr config cache cycle
  = {| hit := false; penalty := missPenalty (cacheConfig config);
       newCache :=
         if belowMaxBlocks (length cache) (cacheConfig config)
         then cache ++ [newBlock (addr / blockSize (cacheConfig config)) cycle]
         else setFirst (newBlock (addr / blockSize (cacheConfig config)) cycle)
                (sortByLastAccess cache) |}.
Proof. intros H Hf. unfold accessCache. by rewrite H, Hf. Qed.

Lemma setFirst_length {A} (x : A) l :
  length (setFirst x l) = Nat.max 1 (length l).
Proof. destruct l; simpl; lia. Qed.

(** The number of blocks after an access, in all cases. *)
Lemma accessCache_length addr config cache cycle :
  let r := accessCache addr config cache cycle in
  length (newCache r) =
    if hit r then length cache
    else if belowMaxBlocks (length cache) (cacheConfig config)
         then S (length cache)
         else Nat.max 1 (length cache).
Proof.
  unfold accessCache.
  destruct (enabled (cacheConfig config)); simpl; [|done].
  destruct (list_find _ cache) as [[i b]|]; simpl.
  - by rewrite length_insert.
  - destruct (belowMaxBlocks _ _).
    + rewrite length_app. simpl. lia.
    + by rewrite setFirst_length, sortByLastAccess_length.
Qed.




(** ** Frame properties of the phases *)

Lemma foldl_preserved {A B C} (f : A → B → A) (g : A → C) (l : list B) (x : A) :
  (∀ y b, g (f y b) = g y) → g (foldl f x l) = g x.
Proof.
  intros H. revert x. induction l as [|b l IH]; intros x; simpl; [done|].
  by rewrite IH, H.
Qed.

Lemma foldl_invariant {A B} (P : A → Prop) (f : A → B → A) (l : list B) (x : A) :
  (∀ y b, P y → P (f y b)) → P x → P (foldl f x l).
Proof.
  intros H. revert x. induction l as [|b l IH]; intros x Hx; simpl; auto.
Qed.

Lemma set_timeLeft_id r : set_timeLeft (timeLeft r) r = r.
Proof. by destruct r. Qed.

Lemma set_result_id r : set_result (result r) r = r.
Proof. by destruct r. Qed.

Lemma set_execStartCycle_id i : set_execStartCycle (execStartCycle i) i = i.
Proof. by destruct i. Qed.

Lemma set_execEndCycle_id i : set_execEndCycle (execEndCycle i) i = i.
Proof. by destruct i. Qed.

Lemma set_writeCycle_id i : set_writeCycle (writeCycle i) i = i.
Proof. by destruct i. Qed.

(** What the write-back phase leaves alone. *)
Lemma writeResult_frame s :
  cycle (writeResult s) = cycle s ∧ pc (writeResult s) = pc s ∧
  memory (writeResult s) = memory s ∧ cache (writeResult s) = cache s ∧
  isFinished (writeResult s) = isFinished s ∧
  branchStall (writeResult s) = branchStall s.
Proof. unfold writeResult. by destruct (list_find _ _) as [[??]|]. Qed.

(** The CDB after the write-back phase: the first ready station, in the
    order of the station array. *)
Lemma writeResult_cdb s :
  cdb (writeResult s) =
    match list_find readyToWrite (reservationStations s) with
    | Some (_, r) => Some {| cdb_tag := rs_id r; cdb_value := default 0 (result r) |}
    | None => cdb s
    end.
Proof. unfold writeResult. by destruct (list_find _ _) as [[??]|]. Qed.

(** *** The execute phase *)

Section Execute.

Context (config : SystemConfig) (labels : gmap string Z).

Lemma startExecution_shape rs inst s :
  ∃ t stc cch lg,
    startExecution config rs inst s =
      (set_timeLeft t rs, set_execStartCycle stc inst,
       {| cycle := cycle s; pc := pc s; instructions := instructions s;
          reservationStations := reservationStations s;
          registers := registers s; memory := memory s; cache := cch;
          cdb := cdb s; log := lg; isFinished := isFinished s;
          branchStall := branchStall s |}).
Proof.
  unfold startExecution. destruct s, rs, inst; simpl.
  repeat case_match; simpl; repeat eexists.
Qed.

Lemma tick_shape rs : ∃ t, tick rs = set_timeLeft t rs.
Proof.
  unfold tick. case_match; [by eexists|].
  exists (timeLeft rs). by rewrite set_timeLeft_id.
Qed.

Lemma finishExecution_shape rs inst s :
  ∃ (retire : bool) v e w p mem lg bs,
    finishExecution labels rs inst s =
      ((if retire then clearStation rs else set_result v rs),
       set_writeCycle w (set_execEndCycle e inst),
       {| cycle := cycle s; pc := p; instructions := instructions s;
          reservationStations := reservationStations s;
          registers := registers s; memory := mem; cache := cache s;
          cdb := cdb s; log := lg; isFinished := isFinished s;
          branchStall := bs |}) ∧
    (bs = branchStall s ∨ bs = false) ∧
    (e = execEndCycle inst ∨ execEndCycle inst = None) ∧
    (execEndCycle inst = None → e ≠ None →
     getOpType (op inst) = OpType.BRANCH → bs = false).
Proof.
  unfold finishExecution.
  destruct (decide (timeLeft rs = 0 ∧ execEndCycle inst = None)) as [[Ht He]|Hn].
  - cbn zeta. change (op (set_execEndCycle (Some (cycle s)) inst)) with (op inst).
    destruct (getOpType (op inst)) eqn:Eop;
      try (exists false; destruct s, inst; simpl in *;
           eexists _, _, _, _, _, _, _;
           split; [unfold set_writeCycle, set_execEndCycle; simpl; reflexivity|split; [by left|split; [by right|simpl; congruence]]]).
    + exists true, None. destruct s, inst; simpl in *.
      eexists _, _, _, _, _, _.
      split; [unfold set_writeCycle, set_execEndCycle; simpl; reflexivity|split; [by left|split; [by right|simpl; congruence]]].
    + exists true, None. destruct (branchTaken _ _ _); [destruct (labels !! _)|];
        destruct s, inst; simpl in *; eexists _, _, _, _, _, _;
        (split; [unfold set_writeCycle, set_execEndCycle; simpl; reflexivity|split; [by right|split; [by right|done]]]).
  - exists false, (result rs), (execEndCycle inst), (writeCycle inst),
      (pc s), (memory s), (log s), (branchStall s).
    rewrite set_result_id, set_execEndCycle_id, set_writeCycle_id.
    split; [by destruct s|]. split; [by left|]. split; [by left|].
    intros He Hne. congruence.
Qed.

Lemma executeStation_shape s k :
  let s' := executeStation config labels s k in
  cycle s' = cycle s ∧ cdb s' = cdb s ∧ registers s' = registers s ∧
  isFinished s' = isFinished s ∧
  (s' = s ∨ executed s s' k).
Proof.
  unfold executeStation.
  destruct (reservationStations s !! k) as [rs|] eqn:Hk; [|by auto 10].
  destruct (busy rs) eqn:Hbusy; simpl; [|by auto 10].
  destruct (decide _) as [[Hj Hq]|]; [|by auto 10].
  destruct (findInst _ _) as [[ik inst]|] eqn:Hf; [|by auto 10].
  destruct (startExecution_shape rs inst s) as (t0 & stc & cch & lg0 & ->).
  destruct (tick_shape (set_timeLeft t0 rs)) as (t & ->).
  match goal with |- context [finishExecution _ ?r ?i ?st] =>
    destruct (finishExecution_shape r i st)
      as (retire & v & e & w & p & mem & lg & bs & -> & Hbs & He & Hbr) end.
  simpl in *. repeat split; try done. right.
  exists rs, ik, inst, retire, t, v, stc, e, w. simpl.
  repeat split; try done.
Qed.

Lemma execute_frame s :
  cycle (execute config labels s) = cycle s ∧
  cdb (execute config labels s) = cdb s ∧
  registers (execute config labels s) = registers s ∧
  isFinished (execute config labels s) = isFinished s.
Proof.
  unfold execute. repeat split;
    apply foldl_preserved; intros y b;
    apply (executeStation_shape y b).
Qed.

End Execute.

Lemma issue_frame s :
  cycle (issue s) = cycle s ∧ cdb (issue s) = cdb s ∧
  memory (issue s) = memory s ∧ cache (issue s) = cache s ∧
  log (issue s) = log s ∧ isFinished (issue s) = isFinished s.
Proof.
  unfold issue, commitIssue.
  destruct (branchStall s); [done|].
  destruct (selectIssueInst _ _) as [insts [[ik issueInst]|]]; [|done].
  destruct (addressAndHazard _ _) as [effectiveAddr []]; [done|].
  destruct (list_find _ _) as [[rsIndex freeRS]|]; [|done].
  by destruct (decide _).
Qed.

Lemma checkCompletion_frame s :
  cycle (checkCompletion s) = cycle s ∧ pc (checkCompletion s) = pc s ∧
  instructions (checkCompletion s) = instructions s ∧
  reservationStations (checkCompletion s) = reservationStations s ∧
  registers (checkCompletion s) = registers s ∧
  cdb (checkCompletion s) = cdb s ∧
  branchStall (checkCompletion s) = branchStall s.
Proof. unfold checkCompletion. by destruct (_ && _). Qed.

Lemma nextCycle_unfinished s config labels :
  isFinished s = false →
  nextCycle s config labels
  = checkCompletion (issue (beforeIssue s config labels)).
Proof. intros H. unfold nextCycle. by rewrite H. Qed.

Lemma beforeIssue_isFinished s config labels :
  isFinished (beforeIssue s config labels) = isFinished s.
Proof.
  unfold beforeIssue.
  destruct (execute_frame config labels (writeResult (beginCycle s)))
    as (_ & _ & _ & ->).
  by destruct (writeResult_frame (beginCycle s)) as (_ & _ & _ & _ & -> & _).
Qed.

Lemma beforeIssue_cdb s config labels :
  cdb (beforeIssue s config labels) =
    match list_find readyToWrite (reservationStations s) with
    | Some (_, r) => Some {| cdb_tag := rs_id r; cdb_value := default 0 (result r) |}
    | None => None
    end.
Proof.
  unfold beforeIssue.
  destruct (execute_frame config labels (writeResult (beginCycle s)))
    as (_ & -> & _).
  by rewrite writeResult_cdb.
Qed.

(** ** The issue phase, case by case *)

Lemma set_instructions_id s : set_instructions (instructions s) s = s.
Proof. by destruct s. Qed.

Lemma issue_stalled s : branchStall s = true → issue s = s.
Proof. intros H. unfold issue. by rewrite H. Qed.

Lemma issue_cases s :
  branchStall s = false →
  issuesNothing s ∨
  ∃ ik issueInst effectiveAddr rsIndex freeRS,
    issues s ik issueInst effectiveAddr rsIndex freeRS ∧
    issue s =
      commitIssue (set_instructions (selectIssueInst (instructions s) (pc s)).1 s)
        ik issueInst effectiveAddr rsIndex freeRS.
Proof.
  intros Hb. unfold issuesNothing, issues, issue. rewrite Hb.
  destruct (selectIssueInst _ _) as [insts [[ik issueInst]|]]; simpl; [|by left].
  destruct (addressAndHazard _ _) as [effectiveAddr []] eqn:Ha; [by left|].
  destruct (list_find _ _) as [[rsIndex freeRS]|] eqn:Hf; [|by left].
  right. by exists ik, issueInst, effectiveAddr, rsIndex, freeRS.
Qed.

Lemma maxId_ge_acc (l : list InstructionLine) (z : Z) :
  z ≤ foldl (λ mx i, Z.max mx (inst_id i)) z l ∧
  ∀ i, i ∈ l → inst_id i ≤ foldl (λ mx i, Z.max mx (inst_id i)) z l.
Proof.
  revert z. induction l as [|x l IH]; intros z; simpl.
  - split; [lia|]. intros i Hi. by apply elem_of_nil in Hi.
  - destruct (IH (Z.max z (inst_id x))) as [H1 H2]. split; [lia|].
    intros i [->|Hi]%elem_of_cons; [lia|]. by apply H2.
Qed.

Lemma maxId_ge l i : i ∈ l → inst_id i ≤ maxId l.
Proof. apply maxId_ge_acc. Qed.

(** The three outcomes of the dynamic loop handling. *)
Lemma selectIssueInst_cases insts pc :
  (∃ k i, list_find (λ i, pcAddress i = pc ∧ issueCycle i = None) insts = Some (k, i) ∧
          selectIssueInst insts pc = (insts, Some (k, i))) ∨
  (list_find (λ i, pcAddress i = pc ∧ issueCycle i = None) insts = None ∧
   ∃ k template,
     list_find (λ i, pcAddress i = pc) insts = Some (k, template) ∧
     selectIssueInst insts pc =
       (insts ++ [cloneInst template (maxId insts + 1)],
        Some (length insts, cloneInst template (maxId insts + 1)))) ∨
  (list_find (λ i, pcAddress i = pc) insts = None ∧
   selectIssueInst insts pc = (insts, None)).
Proof.
  unfold selectIssueInst.
  destruct (list_find (λ i, pcAddress i = pc ∧ _) insts) as [[k i]|] eqn:H1.
  { left. by exists k, i. }
  destruct (list_find (λ i, pcAddress i = pc) insts) as [[k t]|] eqn:H2.
  - right; left. split; [done|]. by exists k, t.
  - right; right. done.
Qed.

Lemma selectIssueInst_lookup insts pc ik issueInst :
  (selectIssueInst insts pc).2 = Some (ik, issueInst) →
  (selectIssueInst insts pc).1 !! ik = Some issueInst ∧
  issueCycle issueInst = None ∧ pcAddress issueInst = pc.
Proof.
  destruct (selectIssueInst_cases insts pc)
    as [(k & i & Hf & ->)|[(Hn & k & t & Hf & ->)|(Hn & ->)]]; simpl; [| |done].
  - intros [= <- <-]. apply list_find_Some in Hf. naive_solver.
  - intros [= <- <-]. split; [|split; [done|]].
    + rewrite lookup_app_r by done. by rewrite Nat.sub_diag.
    + apply list_find_Some in Hf. simpl. naive_solver.
Qed.

Lemma commitIssue_instructions s ik issueInst ea rsIndex freeRS :
  instructions (commitIssue s ik issueInst ea rsIndex freeRS)
  = <[ik := set_issueCycle (Some (cycle s)) issueInst]> (instructions s).
Proof. unfold commitIssue. by destruct (decide _). Qed.

Lemma commitIssue_stations s ik issueInst ea rsIndex freeRS :
  reservationStations (commitIssue s ik issueInst ea rsIndex freeRS)
  = <[rsIndex :=
        occupy freeRS issueInst
          (firstOperand (registers s) (cdb s) (getOpType (op issueInst)) issueInst)
          (secondOperand (registers s) (cdb s) (getOpType (op issueInst)) issueInst)
          (addressSlot (getOpType (op issueInst)) ea)]> (reservationStations s).
Proof. unfold commitIssue. by destruct (decide _). Qed.

Lemma commitIssue_registers s ik issueInst ea rsIndex freeRS :
  registers (commitIssue s ik issueInst ea rsIndex freeRS)
  = renameDest (getOpType (op issueInst)) (dest issueInst) (rs_id freeRS)
      (registers s).
Proof. unfold commitIssue. by destruct (decide _). Qed.

Lemma commitIssue_branchStall s ik issueInst ea rsIndex freeRS :
  branchStall (commitIssue s ik issueInst ea rsIndex freeRS)
  = if decide (getOpType (op issueInst) = OpType.BRANCH) then true
    else branchStall s.
Proof. unfold commitIssue. by destruct (decide _). Qed.

Lemma commitIssue_pc s ik issueInst ea rsIndex freeRS :
  pc (commitIssue s ik issueInst ea rsIndex freeRS) = pc s + 4.
Proof. unfold commitIssue. by destruct (decide _). Qed.

(** A stall raised by step 3a leaves the instruction un-issued. *)
Lemma stall_issues_nothing s ik issueInst :
  branchStall s = false →
  (selectIssueInst (instructions s) (pc s)).2 = Some (ik, issueInst) →
  (addressAndHazard
     (set_instructions (selectIssueInst (instructions s) (pc s)).1 s)
     issueInst).2 = true →
  issuesNothing s.
Proof.
  intros Hb Hsel Hst. unfold issuesNothing, issue. rewrite Hb.
  destruct (selectIssueInst _ _) as [insts sel]. simpl in *. subst sel.
  by destruct (addressAndHazard _ _) as [ea []]; simpl in *.
Qed.

Lemma conflicts_spec o c :
  conflicts o c = true ↔
  (o = OpType.LOAD ∧ c = OpType.STORE) ∨
  (o = OpType.STORE ∧ (c = OpType.LOAD ∨ c = OpType.STORE)).
Proof.
  unfold conflicts. rewrite orb_true_iff, !bool_decide_eq_true. done.
Qed.

Lemma isEarlier_spec iid cand :
  isEarlier iid cand = true ↔ ∃ i, iid = Some i ∧ i < cand.
Proof.
  unfold isEarlier. destruct iid as [i|]; [|naive_solver].
  rewrite Z.ltb_lt. naive_solver.
Qed.

Lemma hazardStep_spec insts issueInst opType ea acc rs :
  hazardStep insts issueInst opType ea acc rs = true ↔
  acc = true ∨ blocks insts issueInst opType ea rs.
Proof.
  unfold hazardStep, blocks. rewrite <- isEarlier_spec.
  destruct (busy rs), (isEarlier _ _); simpl; try naive_solver.
  destruct (decide (a rs = ea)); [|naive_solver].
  destruct (conflicts _ _); naive_solver.
Qed.

Lemma memoryHazard_acc insts issueInst opType ea stations acc :
  foldl (hazardStep insts issueInst opType ea) acc stations = true ↔
  acc = true ∨ ∃ rs, rs ∈ stations ∧ blocks insts issueInst opType ea rs.
Proof.
  revert acc. induction stations as [|rs l IH]; intros acc; simpl.
  - split; [by left|]. intros [?|(rs & Hin & _)]; [done|].
    by apply elem_of_nil in Hin.
  - rewrite IH, hazardStep_spec. split.
    + intros [[?|?]|(rs' & Hin & Hb)]; [by left|right..].
      * exists rs. split; [by left|done].
      * exists rs'. split; [by right|done].
    + intros [?|(rs' & [->|Hin]%elem_of_cons & Hb)]; [by left; left|by left; right|].
      right. by exists rs'.
Qed.

Lemma memoryHazard_spec stations insts issueInst opType ea :
  memoryHazard stations insts issueInst opType ea = true ↔
  ∃ rs, rs ∈ stations ∧ blocks insts issueInst opType ea rs.
Proof. unfold memoryHazard. rewrite memoryHazard_acc. naive_solver. Qed.

Lemma addressAndHazard_memory s issueInst :
  getOpType (op issueInst) = OpType.LOAD ∨
  getOpType (op issueInst) = OpType.STORE →
  addressAndHazard s issueInst =
    let r := resolveAddress (registers s) (cdb s) issueInst in
    (r.1, r.2 || memoryHazard (reservationStations s) (instructions s)
                   issueInst (getOpType (op issueInst)) r.1).
Proof.
  intros H. unfold addressAndHazard. rewrite decide_True by done.
  by destruct (resolveAddress _ _ _) as [ea []].
Qed.

(** The un-issued tail that the loop handling may add is no issue. *)
Lemma selectIssueInst_not_issued insts pc k :
  ¬ issuedAt insts (selectIssueInst insts pc).1 k.
Proof.
  intros (i' & Ha & Hi & Hb).
  destruct (selectIssueInst_cases insts pc)
    as [(k' & i & Hf & Hs)|[(Hn & k' & t & Hf & Hs)|(Hn & Hs)]];
    rewrite Hs in Ha; simpl in Ha.
  - by destruct Hi; apply Hb.
  - apply lookup_app_Some in Ha as [Ha|[_ Ha]]; [by destruct Hi; apply Hb|].
    destruct (k - length insts)%nat as [|m]; simpl in Ha; [|done].
    injection Ha as <-. by destruct Hi.
  - by destruct Hi; apply Hb.
Qed.

(** When the issue phase issues nothing, no [issueCycle] is set. *)
Lemma issuesNothing_not_issued s k :
  issuesNothing s → ¬ issuedAt (instructions s) (instructions (issue s)) k.
Proof.
  intros Hn. rewrite Hn. simpl. apply selectIssueInst_not_issued.
Qed.

(** The state an issue produces. *)
Lemma issues_commit s ik issueInst ea rsIndex freeRS :
  issues s ik issueInst ea rsIndex freeRS →
  issue s =
    commitIssue (set_instructions (selectIssueInst (instructions s) (pc s)).1 s)
      ik issueInst ea rsIndex freeRS.
Proof.
  intros (Hb & Hsel & Ha & Hfree). unfold issue. rewrite Hb.
  destruct (selectIssueInst _ _) as [insts sel']. simpl in *. subst sel'.
  by rewrite Ha, Hfree.
Qed.


(** ** Write-back arbitration *)

(** C1 (as amended).  In the write-back phase of a step, if at least one
    busy station has remaining time 0 and a non-null result, the station
    that broadcasts on the CDB is the first of them in the order of the
    station array (the order fixed at initialization), whatever the
    identities of the instructions they are bound to. *)
Theorem writeback_selects_first_ready s config labels r0 :
  isFinished s = false →
  r0 ∈ reservationStations s → readyToWrite r0 →
  ∃ p r v,
    reservationStations s !! p = Some r ∧ readyToWrite r ∧ result r = Some v ∧
    (∀ j r', reservationStations s !! j = Some r' → (j < p)%nat →
             ¬ readyToWrite r') ∧
    cdb (nextCycle s config labels)
    = Some {| cdb_tag := rs_id r; cdb_value := v |}.
Proof.
  intros Hfin Hin Hready.
  destruct (list_find_elem_of readyToWrite _ _ Hin Hready) as [[p r] Hfind].
  pose proof Hfind as (Hp & Hr & Hfirst)%list_find_Some.
  destruct (result r) as [v|] eqn:Hv; [|by destruct Hr as (_ & _ & ?)].
  exists p, r, v. repeat split; try done.
  - by apply Hr.
  - by apply Hr.
  - congruence.
  - rewrite nextCycle_unfinished by done.
    destruct (checkCompletion_frame (issue (beforeIssue s config labels)))
      as (_ & _ & _ & _ & _ & -> & _).
    destruct (issue_frame (beforeIssue s config labels)) as (_ & -> & _).
    by rewrite beforeIssue_cdb, Hfind, Hv.
Qed.

(** At the end of cycle 4 of [racingProgram] the stations [A1] (bound to
    instruction 1) and [M1] (bound to instruction 0) are both ready; the
    arbitration of cycle 5 picks [M1]'s junior. *)
Lemma writeback_selects_first_ready_witness :
  ∃ p r v,
    reservationStations racingState !! p = Some r ∧ readyToWrite r ∧
    result r = Some v ∧
    (∀ j r', reservationStations racingState !! j = Some r' → (j < p)%nat →
             ¬ readyToWrite r') ∧
    cdb (nextCycle racingState racingConfig (p_labels racingProgram))
    = Some {| cdb_tag := rs_id r; cdb_value := v |}.
Proof.
  apply (writeback_selects_first_ready racingState racingConfig
           (p_labels racingProgram)
           {| rs_id := "M1"; rs_type := RSType.MULT; busy := true;
              rs_op := Some "MUL.D"; vj := Some 3; vk := Some 5; qj := None;
              qk := None; a := None; instId := Some 0; timeLeft := 0;
              result := Some 15 |}).
  - vm_compute. reflexivity.
  - apply list_elem_of_lookup. exists 3%nat. vm_compute. reflexivity.
  - vm_compute. repeat split; discriminate.
Defined.

(** C1 (as stated) fails: among the ready stations the one bound to the
    smallest instruction identity is [M1] (instruction 0), but the CDB
    carries the result of [A1], bound to instruction 1. *)
Lemma writeback_arbitration_counterexample :
  ∃ first other,
    reservationStations racingState !! 0%nat = Some first ∧
    reservationStations racingState !! 3%nat = Some other ∧
    readyToWrite first ∧ readyToWrite other ∧
    rs_id first = "A1" ∧ instId first = Some 1 ∧ result first = Some 10 ∧
    rs_id other = "M1" ∧ instId other = Some 0 ∧ result other = Some 15 ∧
    cdb (nextCycle racingState racingConfig (p_labels racingProgram))
    = Some {| cdb_tag := "A1"; cdb_value := 10 |}.
Proof.
  eexists _, _. split; [vm_compute; reflexivity|].
  split; [vm_compute; reflexivity|].
  vm_compute. repeat split; discriminate.
Qed.

(** ** Completion *)

Lemma allWritten_spec s :
  allWritten s = true ↔ ∀ i, i ∈ instructions s → writeCycle i ≠ None.
Proof.
  unfold allWritten. rewrite forallb_forall. setoid_rewrite <- list_elem_of_In.
  by setoid_rewrite bool_decide_eq_true.
Qed.

Lemma pcIsValid_spec s :
  pcIsValid s = false ↔ ∀ i, i ∈ instructions s → pcAddress i ≠ pc s.
Proof.
  unfold pcIsValid. rewrite <- not_true_iff_false, existsb_exists.
  setoid_rewrite <- list_elem_of_In. setoid_rewrite bool_decide_eq_true.
  naive_solver.
Qed.

Lemma checkCompletion_completed s :
  isFinished s = false →
  isFinished (checkCompletion s) = true ↔ completed (checkCompletion s).
Proof.
  intros Hf. unfold completed.
  destruct (checkCompletion_frame s) as (_ & -> & -> & _).
  rewrite <- allWritten_spec, <- pcIsValid_spec. unfold checkCompletion.
  destruct (allWritten s), (pcIsValid s); simpl; rewrite ?Hf; naive_solver.
Qed.

Lemma nextCycle_completed s config labels :
  isFinished s = false ∨ completed s →
  isFinished (nextCycle s config labels) = true
  ↔ completed (nextCycle s config labels).
Proof.
  intros H. destruct (isFinished s) eqn:Hf.
  - unfold nextCycle. rewrite Hf. naive_solver.
  - rewrite nextCycle_unfinished by done. apply checkCompletion_completed.
    destruct (issue_frame (beforeIssue s config labels))
      as (_ & _ & _ & _ & _ & ->).
    by rewrite beforeIssue_isFinished.
Qed.

(** C2.  After every step of a run started by [initializeState], the
    finished flag is set exactly when every dynamic instruction has a
    non-null [writeCycle] and no dynamic instruction has the current PC as
    its [pcAddress]. *)
Theorem finished_flag_after_step insts config regs labels n :
  let s := run (S n) (initializeState insts config regs) config labels in
  isFinished s = true ↔ completed s.
Proof.
  induction n as [|n IH].
  - simpl. by apply nextCycle_completed; left.
  - cbn zeta in IH. change (run (S (S n)) ?s ?c ?l)
      with (nextCycle (run (S n) s c l) c l).
    cbn zeta. apply nextCycle_completed.
    destruct (isFinished (run (S n) _ _ _)) eqn:Hf; [right|by left].
    by apply IH.
Qed.

(** ** Loop re-entry *)

Lemma nextCycle_instructions s config labels :
  isFinished s = false →
  instructions (nextCycle s config labels)
  = instructions (issue (beforeIssue s config labels)).
Proof.
  intros H. rewrite nextCycle_unfinished by done.
  by destruct (checkCompletion_frame (issue (beforeIssue s config labels)))
    as (_ & _ & -> & _).
Qed.

(** The instruction list after the issue phase: the list chosen by the
    loop handling, where the issued instruction, if any, is stamped. *)
Lemma issue_instructions s :
  branchStall s = false →
  ∃ c, (c = None ∨ c = Some (cycle s)) ∧
    ∀ sel, sel = selectIssueInst (instructions s) (pc s) →
    instructions (issue s) =
      match sel.2 with
      | Some (ik, issueInst) =>
          <[ik := set_issueCycle c issueInst]> sel.1
      | None => sel.1
      end.
Proof.
  intros Hb. destruct (issue_cases s Hb)
    as [Hn|(ik & issueInst & ea & rsIndex & freeRS & (_ & Hsel & _) & ->)].
  - exists None. split; [by left|]. intros sel ->. rewrite Hn. simpl.
    destruct (selectIssueInst _ _) as [insts [[ik issueInst]|]] eqn:Hs; [|done].
    simpl. symmetry. apply list_insert_id.
    pose proof (selectIssueInst_lookup (instructions s) (pc s) ik issueInst) as H.
    rewrite Hs in H. destruct H as (Hl & Hi & _); [done|].
    simpl in Hl. rewrite Hl. f_equal. destruct issueInst; simpl in *. by subst.
  - exists (Some (cycle s)). split; [by right|]. intros sel ->.
    rewrite commitIssue_instructions. by rewrite Hsel.
Qed.

(** C3 (as amended).  During the issue phase a new dynamic instance of
    the instruction at the current PC is appended to the dynamic
    instruction list exactly when the branch-stall flag is clear, no
    un-issued instance exists at that PC and some instance at that PC
    exists in the list, retired or not.  The new instance copies the first
    instance at that PC, carries an identity greater than every identity
    in the list and null timestamps, apart from the [issueCycle] the same
    issue phase may stamp on it. *)
Theorem loop_reentry s config labels :
  isFinished s = false →
  let st := beforeIssue s config labels in
  let before := instructions st in
  let after := instructions (nextCycle s config labels) in
  (length after = S (length before) ↔
     branchStall st = false ∧
     (∀ i, i ∈ before → pcAddress i = pc st → issueCycle i ≠ None) ∧
     (∃ i, i ∈ before ∧ pcAddress i = pc st)) ∧
  (length after ≠ S (length before) → length after = length before) ∧
  (length after = S (length before) →
     ∃ k template c,
       list_find (λ i, pcAddress i = pc st) before = Some (k, template) ∧
       (c = None ∨ c = Some (cycle st)) ∧
       after = before ++ [set_issueCycle c (cloneInst template (maxId before + 1))] ∧
       (∀ i, i ∈ before → inst_id i < maxId before + 1)).
Proof.
  intros Hfin st before after. subst after.
  rewrite nextCycle_instructions by done. fold st.
  destruct (branchStall st) eqn:Hb.
  { rewrite issue_stalled by done. fold before.
    repeat split; try naive_solver lia. }
  destruct (issue_instructions st Hb) as (c & Hc & Hi).
  rewrite (Hi _ eq_refl). fold before.
  destruct (selectIssueInst_cases before (pc st))
    as [(k & i & Hf & ->)|[(Hn & k & t & Hf & ->)|(Hn & ->)]]; simpl.
  - rewrite length_insert. apply list_find_Some in Hf as (Hk & [Hp Hi'] & _).
    apply list_elem_of_lookup_2 in Hk.
    repeat split; try lia. intros (_ & Hall & _). by destruct (Hall i).
  - rewrite length_insert, length_app. simpl.
    assert (Hall : ∀ i, i ∈ before → pcAddress i = pc st → issueCycle i ≠ None).
    { intros i Hin Hp Hnone. rewrite list_find_None, Forall_forall in Hn.
      by apply (Hn i). }
    pose proof Hf as (Hk & Hp & _)%list_find_Some.
    repeat split; try lia; try done.
    + exists t. split; [by eapply list_elem_of_lookup_2|done].
    + intros _. exists k, t, c. repeat split; try done.
      * rewrite insert_app_r_alt, Nat.sub_diag by done. done.
      * intros i Hin. pose proof (maxId_ge _ _ Hin). lia.
  - repeat split; try lia. intros (_ & _ & i & Hin & Hp).
    rewrite list_find_None, Forall_forall in Hn. by destruct (Hn i).
Qed.

(** In [loopState] the branch is about to send the PC back to the
    division: the step appends a second instance of it. *)
Lemma loop_reentry_witness :
  let st := beforeIssue loopState exampleConfig (p_labels loopProgram) in
  let before := instructions st in
  let after := instructions (nextCycle loopState exampleConfig (p_labels loopProgram)) in
  (length after = S (length before) ↔
     branchStall st = false ∧
     (∀ i, i ∈ before → pcAddress i = pc st → issueCycle i ≠ None) ∧
     (∃ i, i ∈ before ∧ pcAddress i = pc st)) ∧
  (length after ≠ S (length before) → length after = length before) ∧
  (length after = S (length before) →
     ∃ k template c,
       list_find (λ i, pcAddress i = pc st) before = Some (k, template) ∧
       (c = None ∨ c = Some (cycle st)) ∧
       after = before ++ [set_issueCycle c (cloneInst template (maxId before + 1))] ∧
       (∀ i, i ∈ before → inst_id i < maxId before + 1)).
Proof.
  apply (loop_reentry loopState exampleConfig (p_labels loopProgram)).
  vm_compute. reflexivity.
Defined.

(** C3 (as stated) fails: in the third cycle of [loopProgram] the PC is
    back at 0, the only instance at that PC is issued but has not written
    its result, and a new instance is appended (and issued) all the same. *)
Lemma loop_reentry_counterexample :
  let st := beforeIssue loopState exampleConfig (p_labels loopProgram) in
  let s' := nextCycle loopState exampleConfig (p_labels loopProgram) in
  pc st = 0 ∧ length (instructions st) = 2%nat ∧
  (λ i, (inst_id i, issueCycle i, writeCycle i)) <$>
    filter (λ i, pcAddress i = 0) (instructions st) = [(0, Some 1, None)] ∧
  length (instructions s') = 3%nat ∧
  (λ i, (inst_id i, pcAddress i, issueCycle i, writeCycle i)) <$>
    instructions s' !! 2%nat = Some (2, 0, Some 3, None).
Proof. vm_compute. repeat split. Qed.

(** ** Memory disambiguation and effective addresses *)



(** C5.  When a LOAD or STORE is considered for issue: if its base
    register ([src1]) carries a tag and the CDB this cycle broadcasts that
    tag, the effective address is the CDB value plus the immediate offset;
    if the base register carries a tag the CDB is not broadcasting, the
    instruction does not issue this cycle; if the base register has no
    tag, the effective address is the register's value plus the offset.
    The effective address is what the station receives in its address
    slot when the instruction issues. *)
Theorem effective_address s ik issueInst r :
  let opType := getOpType (op issueInst) in
  let sel := selectIssueInst (instructions s) (pc s) in
  let st := set_instructions sel.1 s in
  let effectiveAddr := (addressAndHazard st issueInst).1 in
  branchStall s = false →
  sel.2 = Some (ik, issueInst) →
  opType = OpType.LOAD ∨ opType = OpType.STORE →
  registers s !! src1 issueInst = Some r →
  (∀ t c, qi r = Some t → cdb s = Some c → cdb_tag c = t →
     effectiveAddr = Some (cdb_value c + immediate issueInst)) ∧
  (∀ t, qi r = Some t → (∀ c, cdb s = Some c → cdb_tag c ≠ t) →
     issuesNothing s ∧
     ∀ k, ¬ issuedAt (instructions s) (instructions (issue s)) k) ∧
  (qi r = None → effectiveAddr = Some (value r + immediate issueInst)) ∧
  (∀ ea rsIndex freeRS,
     issues s ik issueInst ea rsIndex freeRS →
     ea = effectiveAddr ∧
     ∃ rs', reservationStations (issue s) !! rsIndex = Some rs' ∧
            a rs' = effectiveAddr).
Proof.
  intros opType sel st effectiveAddr Hb Hsel Hop Hr.
  assert (Hah : addressAndHazard st issueInst =
    let ra := resolveAddress (registers s) (cdb s) issueInst in
    (ra.1, ra.2 || memoryHazard (reservationStations s) sel.1 issueInst opType ra.1)).
  { by rewrite addressAndHazard_memory. }
  subst effectiveAddr. rewrite Hah. cbn zeta. simpl.
  unfold resolveAddress. rewrite Hr. split; [|split; [|split]].
  - intros t c Hq Hc Ht. rewrite Hq, Hc. simpl.
    rewrite bool_decide_eq_true_2 by done. done.
  - intros t Hq Hc.
    assert (Hn : issuesNothing s).
    { apply (stall_issues_nothing s ik issueInst Hb Hsel).
      fold sel st. rewrite Hah. cbn zeta. unfold resolveAddress.
      rewrite Hr, Hq. destruct (cdb s) as [c|]; simpl; [|done].
      rewrite bool_decide_eq_false_2; [done|]. by apply Hc. }
    split; [done|]. intros k. by apply issuesNothing_not_issued.
  - by intros ->.
  - intros ea rsIndex freeRS H.
    pose proof H as (_ & _ & Ha & Hfree). fold sel st in Ha. rewrite Hah in Ha.
    cbn zeta in Ha. unfold resolveAddress in Ha. rewrite Hr in Ha.
    injection Ha as <- _. split; [done|].
    rewrite (issues_commit _ _ _ _ _ _ H), commitIssue_stations.
    eexists. split.
    + apply list_lookup_insert_eq. simpl.
      by apply list_find_Some in Hfree as (?%lookup_lt_Some & _).
    + simpl. fold opType. by destruct Hop as [-> | ->].
Qed.

(** In [forwardingState] the load [L.D F6, 0(R2)] finds the tag of [R2]
    on the CDB: its address is the broadcast value, and that is what
    station [L1] receives. *)
Lemma effective_address_witness :
  let s := forwardingState in
  let issueInst :=
    {| inst_id := 0; raw := "L.D F6, 0(R2)"; op := "L.D"; dest := "F6";
       src1 := "R2"; src2 := "0"; immediate := 0; pcAddress := 0;
       issueCycle := None; execStartCycle := None; execEndCycle := None;
       writeCycle := None |} in
  let sel := selectIssueInst (instructions s) (pc s) in
  let st := set_instructions sel.1 s in
  (addressAndHazard st issueInst).1 = Some (100 + 0) ∧
  ∃ rs', reservationStations (issue s) !! 5%nat = Some rs' ∧
         a rs' = Some (100 + 0).
Proof.
  intros s issueInst sel st.
  destruct (effective_address s 0%nat issueInst
              {| name := "R2"; value := 0; qi := Some "I1" |})
    as (Hfwd & _ & _ & Hslot).
  - vm_compute. reflexivity.
  - vm_compute. reflexivity.
  - left. vm_compute. reflexivity.
  - vm_compute. reflexivity.
  - assert (H : (addressAndHazard st issueInst).1 = Some (100 + 0)).
    { apply (Hfwd "I1" {| cdb_tag := "I1"; cdb_value := 100 |});
        vm_compute; reflexivity. }
    split; [exact H|].
    destruct (Hslot (Some 100) 5%nat
                {| rs_id := "L1"; rs_type := RSType.LOAD; busy := false;
                   rs_op := None; vj := None; vk := None; qj := None;
                   qk := None; a := None; instId := None; timeLeft := 0;
                   result := None |}) as (_ & rs' & Hl & Ha).
    + vm_compute. repeat split; reflexivity.
    + exists rs'. split; [exact Hl|]. rewrite Ha. exact H.
Defined.

(** ** The reservation-station invariant *)

Lemma stationInv_fresh ty i : stationInv (freshStation ty i).
Proof. unfold stationInv. simpl. split; [|by auto]. split; done. Qed.

Lemma stationInv_clear r : stationInv (clearStation r).
Proof. unfold stationInv. simpl. split; [|by auto]. split; done. Qed.

Lemma stationInv_set_j v r :
  busy r = true → stationInv r → stationInv (set_j (Some v) None r).
Proof.
  unfold stationInv. simpl. intros Hbusy (Hb & Hidle & Hj & Hk).
  split; [done|]. split; [congruence|]. split; [by right|done].
Qed.

Lemma stationInv_set_k v r :
  busy r = true → stationInv r → stationInv (set_k (Some v) None r).
Proof.
  unfold stationInv. simpl. intros Hbusy (Hb & Hidle & Hj & Hk).
  split; [done|]. split; [congruence|]. split; [done|by right].
Qed.

Create HintDb stations discriminated.
#[local] Hint Resolve stationInv_fresh stationInv_clear stationInv_set_j
  stationInv_set_k : stations.

Lemma stationInv_capture t v r : stationInv r → stationInv (captureOperands t v r).
Proof.
  intros H. unfold captureOperands. destruct (busy r) eqn:Hbusy; [|done].
  repeat destruct (decide _); auto with stations.
Qed.

Lemma stationInv_timer r t v (retire : bool) :
  stationInv r →
  stationInv (if retire then clearStation (set_timeLeft t r)
              else set_result v (set_timeLeft t r)).
Proof. destruct retire; [intros _; apply stationInv_clear|]. by destruct r. Qed.

Lemma resolveOperand_one regs b x :
  (resolveOperand regs b x).1 = None ∨ (resolveOperand regs b x).2 = None.
Proof.
  unfold resolveOperand. destruct (regs !! x) as [r|]; [|by right].
  destruct (tagOf r); [|by right]. destruct (cdbHas b _); [by right|by left].
Qed.

Lemma firstOperand_one regs b o i :
  (firstOperand regs b o i).1 = None ∨ (firstOperand regs b o i).2 = None.
Proof.
  unfold firstOperand.
  repeat case_match; try apply resolveOperand_one; by left.
Qed.

Lemma secondOperand_one regs b o i :
  (secondOperand regs b o i).1 = None ∨ (secondOperand regs b o i).2 = None.
Proof.
  unfold secondOperand.
  repeat case_match; try apply resolveOperand_one; simpl; auto.
Qed.

Lemma stationInv_occupy r i j k addr :
  (j.1 = None ∨ j.2 = None) → (k.1 = None ∨ k.2 = None) →
  stationInv (occupy r i j k addr).
Proof.
  intros Hj Hk. unfold stationInv. simpl. split; [|by auto].
  split; [done|]. by intros _.
Qed.

Lemma writeResult_stations s :
  Forall stationInv (reservationStations s) →
  Forall stationInv (reservationStations (writeResult s)).
Proof.
  intros H. unfold writeResult.
  destruct (list_find _ _) as [[p r]|]; [|done]. simpl.
  assert (H' : Forall stationInv
                 (captureOperands (rs_id r) (default 0 (result r)) <$>
                    reservationStations s)).
  { apply Forall_fmap. eapply Forall_impl; [done|].
    intros x Hx. by apply stationInv_capture. }
  apply Forall_forall. intros x Hx.
  apply list_elem_of_lookup in Hx as [i Hi].
  rewrite Forall_forall in H'.
  destruct (decide (i = p)) as [->|Hne].
  - rewrite list_lookup_alter_eq in Hi.
    destruct (_ !! p) eqn:E; simplify_eq/=. apply stationInv_clear.
  - rewrite list_lookup_alter_ne in Hi by done.
    apply H'. by eapply list_elem_of_lookup_2.
Qed.

Lemma executeStation_stations config labels s k :
  Forall stationInv (reservationStations s) →
  Forall stationInv (reservationStations (executeStation config labels s k)).
Proof.
  intros H.
  destruct (executeStation_shape config labels s k) as (_ & _ & _ & _ & [->|He]);
    [done|].
  destruct He as (rs & ik & inst & retire & t & v & stc & e & w
                  & Hk & _ & _ & _ & -> & _).
  apply Forall_insert; [done|]. apply stationInv_timer.
  rewrite Forall_forall in H. apply H. by eapply list_elem_of_lookup_2.
Qed.

Lemma execute_stations config labels s :
  Forall stationInv (reservationStations s) →
  Forall stationInv (reservationStations (execute config labels s)).
Proof.
  unfold execute.
  apply (foldl_invariant (λ s, Forall stationInv (reservationStations s))).
  intros y b. apply executeStation_stations.
Qed.

Lemma issue_stations s :
  Forall stationInv (reservationStations s) →
  Forall stationInv (reservationStations (issue s)).
Proof.
  intros H. destruct (branchStall s) eqn:Hb; [by rewrite issue_stalled|].
  destruct (issue_cases s Hb) as [->|(ik & i & ea & rsIndex & freeRS & _ & ->)];
    [done|].
  rewrite commitIssue_stations. simpl. apply Forall_insert; [done|].
  apply stationInv_occupy; [apply firstOperand_one|apply secondOperand_one].
Qed.

Lemma nextCycle_stations s config labels :
  Forall stationInv (reservationStations s) →
  Forall stationInv (reservationStations (nextCycle s config labels)).
Proof.
  intros H. unfold nextCycle. destruct (isFinished s); [done|].
  destruct (checkCompletion_frame (issue (beforeIssue s config labels)))
    as (_ & _ & _ & -> & _).
  apply issue_stations, execute_stations, writeResult_stations. done.
Qed.

Lemma initializeState_stations insts config regs :
  Forall stationInv (reservationStations (initializeState insts config regs)).
Proof.
  simpl. unfold initialStations. apply Forall_forall. intros x Hx.
  apply list_elem_of_In, in_flat_map in Hx as (ty & _ & Hx).
  apply list_elem_of_In, list_elem_of_fmap in Hx as (i & -> & _).
  apply stationInv_fresh.
Qed.



(** ** The branch stall *)

Lemma fmap_insert_same {A B} (f : A → B) (l : list A) k x y :
  l !! k = Some x → f y = f x → f <$> <[k := y]> l = f <$> l.
Proof.
  intros Hk Hf. rewrite list_fmap_insert, Hf.
  apply list_insert_id. by rewrite list_lookup_fmap, Hk.
Qed.

Lemma findInst_lookup iid insts ik inst :
  findInst iid insts = Some (ik, inst) → insts !! ik = Some inst.
Proof. unfold findInst. by intros (? & _)%list_find_Some. Qed.

Lemma writeResult_issueCycles s :
  issueCycle <$> instructions (writeResult s) = issueCycle <$> instructions s.
Proof.
  unfold writeResult. destruct (list_find _ _) as [[p r]|]; [|done]. simpl.
  destruct (findInst _ _) as [[ik inst]|] eqn:Hf; [|done].
  by eapply fmap_insert_same; [eapply findInst_lookup|].
Qed.

Lemma executeStation_issueCycles config labels s k :
  issueCycle <$> instructions (executeStation config labels s k)
  = issueCycle <$> instructions s.
Proof.
  destruct (executeStation_shape config labels s k) as (_ & _ & _ & _ & [->|He]);
    [done|].
  destruct He as (rs & ik & inst & retire & t & v & stc & e & w
                  & _ & _ & Hf & -> & _).
  by eapply fmap_insert_same; [eapply findInst_lookup|].
Qed.

Lemma beforeIssue_issueCycles s config labels :
  issueCycle <$> instructions (beforeIssue s config labels)
  = issueCycle <$> instructions s.
Proof.
  unfold beforeIssue, execute.
  rewrite (foldl_preserved _ (λ s, issueCycle <$> instructions s)).
  - by rewrite writeResult_issueCycles.
  - intros y b. apply executeStation_issueCycles.
Qed.

Lemma issuedAt_ext before before' after k :
  issueCycle <$> before = issueCycle <$> before' →
  issuedAt before after k → issuedAt before' after k.
Proof.
  intros Heq (i' & Ha & Hi & Hb). exists i'. split; [done|]. split; [done|].
  intros i Hk.
  assert (H : (issueCycle <$> before) !! k = Some (issueCycle i))
    by (by rewrite Heq, list_lookup_fmap, Hk).
  rewrite list_lookup_fmap in H.
  destruct (before !! k) as [i0|] eqn:E; [|done].
  simpl in H. injection H as <-. by apply Hb.
Qed.

(** What an issue phase can stamp: nothing, or the instruction it issues,
    in which case the flag is raised exactly for a BRANCH. *)
Lemma issue_issuedAt s k :
  issuedAt (instructions s) (instructions (issue s)) k →
  branchStall s = false ∧
  ∃ i', instructions (issue s) !! k = Some i' ∧
        issueCycle i' = Some (cycle s) ∧
        branchStall (issue s) = bool_decide (getOpType (op i') = OpType.BRANCH).
Proof.
  intros Hi. destruct (branchStall s) eqn:Hb.
  { rewrite issue_stalled in Hi by done.
    destruct Hi as (i' & Ha & Hne & Hbefore). by destruct Hne; apply Hbefore. }
  split; [done|].
  destruct (issue_cases s Hb)
    as [Hn|(ik & issueInst & ea & rsIndex & freeRS & (_ & Hsel & _) & He)].
  { rewrite Hn in Hi. simpl in Hi. by apply selectIssueInst_not_issued in Hi. }
  rewrite He in Hi |- *.
  rewrite commitIssue_instructions, commitIssue_branchStall in *. simpl in *.
  destruct Hi as (i' & Ha & Hne & Hbefore).
  apply list_lookup_insert_Some in Ha as [(-> & <- & Hlt)|(Hne' & Ha)].
  - exists (set_issueCycle (Some (cycle s)) issueInst). simpl.
    split; [by apply list_lookup_insert_eq|]. split; [done|].
    rewrite Hb. unfold bool_decide. simpl. reflexivity.
  - exfalso. apply (selectIssueInst_not_issued (instructions s) (pc s) k).
    by exists i'.
Qed.

Lemma executeStation_branch config labels s j :
  let s' := executeStation config labels s j in
  length (instructions s') = length (instructions s) ∧
  (branchStall s' = true → branchStall s = true) ∧
  ∀ k i', instructions s' !! k = Some i' →
    ∃ i, instructions s !! k = Some i ∧ op i' = op i ∧
         (execEndCycle i' = execEndCycle i ∨
          (execEndCycle i = None ∧
           (getOpType (op i) = OpType.BRANCH → branchStall s' = false))).
Proof.
  destruct (executeStation_shape config labels s j) as (_ & _ & _ & _ & [->|He]).
  { cbn zeta. split; [done|]. split; [done|]. intros k i' H. exists i'. auto. }
  cbn zeta.
  destruct He as (rs & ik & inst & retire & t & v & stc & e & w
                  & _ & _ & Hf%findInst_lookup & -> & _ & Hbs & He & Hbr).
  rewrite length_insert. split; [done|]. split.
  { intros H. destruct Hbs as [<-|Hbs]; congruence. }
  intros k i' [(-> & <- & Hlt)|(Hne & Ha)]%list_lookup_insert_Some.
  - exists inst. split; [done|]. split; [done|]. simpl.
    destruct He as [->|He]; [by left|].
    destruct e as [c|]; [|by left; rewrite He]. right. split; [done|].
    intros Hop. by apply Hbr.
  - exists i'. auto.
Qed.

Lemma executeTrace_refl s : executeTrace s s.
Proof. intros k i' H. exists i'. auto. Qed.

Lemma executeTrace_step config labels s0 s j :
  executeTrace s0 s → executeTrace s0 (executeStation config labels s j).
Proof.
  intros Ht k i'' H.
  destruct (executeStation_branch config labels s j) as (_ & Hflag & Hstep).
  destruct (Hstep k i'' H) as (i' & Hi' & Hop' & Hend').
  destruct (Ht k i' Hi') as (i & Hi & Hop & Hend).
  exists i. split; [done|]. split; [congruence|].
  destruct Hend' as [He'|[He' Hb']], Hend as [He|[He Hb]].
  - left. congruence.
  - right. split; [done|]. intros Hbr. specialize (Hb Hbr).
    destruct (branchStall (executeStation config labels s j)) eqn:E; [|done].
    specialize (Hflag eq_refl). congruence.
  - right. split; [congruence|]. intros Hbr. apply Hb'. congruence.
  - right. split; [done|]. intros Hbr. apply Hb'. congruence.
Qed.

Lemma execute_trace config labels s : executeTrace s (execute config labels s).
Proof.
  unfold execute. apply (foldl_invariant (executeTrace s)).
  - intros y b. apply executeTrace_step.
  - apply executeTrace_refl.
Qed.

(** C7 (as amended).  If the branch-stall flag is up when the issue phase
    of a step starts, no instruction has its [issueCycle] set during that
    step and the flag stays up.  If the flag is up in the resulting state,
    the only instruction that can have had its [issueCycle] set during the
    step is a BRANCH, the one whose issue raised the flag.  The flag is
    raised at issue of a BRANCH, and it is down at the end of an execute
    phase in which a BRANCH produced its result. *)
Theorem branch_stall s config labels :
  isFinished s = false →
  let sw := afterWriteBack s in
  let st := beforeIssue s config labels in
  let s' := nextCycle s config labels in
  (branchStall st = true →
     (∀ k, ¬ issuedAt (instructions s) (instructions s') k) ∧
     branchStall s' = true) ∧
  (branchStall s' = true →
     ∀ k, issuedAt (instructions s) (instructions s') k →
       ∃ i', instructions s' !! k = Some i' ∧
             getOpType (op i') = OpType.BRANCH) ∧
  (∀ k i', issuedAt (instructions s) (instructions s') k →
     instructions s' !! k = Some i' →
     issueCycle i' = Some (cycle s') ∧
     (getOpType (op i') = OpType.BRANCH → branchStall s' = true)) ∧
  (∀ k i', finishedAt (instructions sw) (instructions st) k →
     instructions st !! k = Some i' →
     getOpType (op i') = OpType.BRANCH → branchStall st = false).
Proof.
  intros Hfin sw st s'.
  assert (Hinsts : instructions s' = instructions (issue st))
    by (by apply nextCycle_instructions).
  assert (Hflag : branchStall s' = branchStall (issue st)).
  { subst s' st. rewrite nextCycle_unfinished by done.
    by destruct (checkCompletion_frame (issue (beforeIssue s config labels)))
      as (_ & _ & _ & _ & _ & _ & ->). }
  assert (Hcycle : cycle s' = cycle st).
  { subst s' st. rewrite nextCycle_unfinished by done.
    destruct (checkCompletion_frame (issue (beforeIssue s config labels)))
      as (-> & _).
    by destruct (issue_frame (beforeIssue s config labels)) as (-> & _). }
  assert (Hissued : ∀ k, issuedAt (instructions s) (instructions s') k →
            branchStall st = false ∧
            ∃ i', instructions s' !! k = Some i' ∧
                  issueCycle i' = Some (cycle s') ∧
                  branchStall s' =
                    bool_decide (getOpType (op i') = OpType.BRANCH)).
  { intros k Hk. rewrite Hinsts, Hflag, Hcycle in *. apply issue_issuedAt.
    eapply issuedAt_ext; [|done].
    symmetry. apply beforeIssue_issueCycles. }
  split; [|split; [|split]].
  - intros Hst. split.
    + intros k Hk. destruct (Hissued k Hk) as [? _]. congruence.
    + by rewrite Hflag, issue_stalled.
  - intros Hs' k Hk. destruct (Hissued k Hk) as (_ & i' & Hi' & _ & Hb).
    exists i'. split; [done|]. rewrite Hs' in Hb.
    symmetry in Hb. by apply bool_decide_eq_true in Hb.
  - intros k i' Hk Hi'. destruct (Hissued k Hk) as (_ & i'' & Hi'' & Hc & Hb).
    assert (i'' = i') as -> by congruence.
    split; [done|]. intros Hop. rewrite Hb. by apply bool_decide_eq_true.
  - intros k i' (i & i1 & Hi & Hnone & Hi1 & Hsome) Hi' Hop.
    assert (i1 = i') as -> by congruence.
    destruct (execute_trace config labels sw k i' Hi')
      as (i0 & Hi0 & Hop0 & Hend).
    assert (i0 = i) as -> by (unfold sw in *; congruence).
    destruct Hend as [He|[_ Hb]]; [congruence|].
    apply Hb. congruence.
Qed.

(** The first cycle of [branchProgram]: the branch issues, which raises
    the flag. *)
Lemma branch_stall_witness :
  let s := branchStart in
  let s' := nextCycle s exampleConfig (p_labels branchProgram) in
  branchStall s' = true ∧
  ∀ k, issuedAt (instructions s) (instructions s') k →
    ∃ i', instructions s' !! k = Some i' ∧ getOpType (op i') = OpType.BRANCH.
Proof.
  intros s s'.
  destruct (branch_stall s exampleConfig (p_labels branchProgram))
    as (_ & Honly & _).
  - vm_compute. reflexivity.
  - assert (H : branchStall s' = true) by (vm_compute; reflexivity).
    split; [exact H|exact (Honly H)].
Defined.

(** C7 (as stated) fails: after the first cycle of [branchProgram] the
    flag is up, and the branch had its [issueCycle] set to the current
    cycle during that very step. *)
Lemma branch_stall_counterexample :
  let s := branchStart in
  let s' := nextCycle s exampleConfig (p_labels branchProgram) in
  branchStall s' = true ∧ cycle s' = 1 ∧
  issueCycle <$> instructions s !! 0%nat = Some None ∧
  (λ i, (op i, issueCycle i)) <$> instructions s' !! 0%nat
  = Some ("BNE", Some 1) ∧
  issuedAt (instructions s) (instructions s') 0.
Proof.
  repeat split; try (vm_compute; reflexivity).
  eexists. split; [vm_compute; reflexivity|]. split; [by vm_compute|].
  intros i Hi. vm_compute in Hi. by injection Hi as <-.
Qed.

(** ** The parser *)

Lemma firstPassLine_spec acc line :
  firstPassLine acc line =
    {| fp_labels := fp_labels (firstPassLine acc line);
       fp_pcCounter :=
         if nonEmpty (stripLabel line) then fp_pcCounter acc + 4
         else fp_pcCounter acc;
       fp_cleanLines :=
         fp_cleanLines acc ++
         if nonEmpty (stripLabel line)
         then [{| cl_raw := stripLabel line; cl_pc := fp_pcCounter acc |}]
         else [] |}.
Proof.
  unfold firstPassLine, stripLabel.
  destruct (hasChar _ line); destruct (nonEmpty _); simpl;
    by rewrite ?app_nil_r.
Qed.

Lemma firstPass_cleanLines ls acc :
  fp_cleanLines (foldl firstPassLine acc ls)
  = fp_cleanLines acc ++ cleanFrom (fp_pcCounter acc) ls.
Proof.
  revert acc. induction ls as [|l ls IH]; intros acc; simpl.
  - by rewrite app_nil_r.
  - rewrite IH, firstPassLine_spec. simpl.
    destruct (nonEmpty (stripLabel l)); simpl.
    + by rewrite <- app_assoc.
    + by rewrite app_nil_r.
Qed.

Lemma cleanFrom_raw pc ls :
  cl_raw <$> cleanFrom pc ls
  = filter (λ l, nonEmpty l = true) (stripLabel <$> ls).
Proof.
  revert pc. induction ls as [|l ls IH]; intros pc; simpl; [done|].
  destruct (nonEmpty (stripLabel l)) eqn:E.
  - rewrite filter_cons_True by done. simpl. by rewrite IH.
  - rewrite filter_cons_False by (by rewrite E). apply IH.
Qed.

Lemma cleanFrom_pc pc ls :
  cl_pc <$> cleanFrom pc ls
  = (λ k, pc + 4 * Z.of_nat k) <$> seq 0 (length (cleanFrom pc ls)).
Proof.
  revert pc. induction ls as [|l ls IH]; intros pc; simpl; [done|].
  destruct (nonEmpty (stripLabel l)); [|apply IH].
  simpl. rewrite Z.add_0_r. f_equal. rewrite IH, <- fmap_S_seq, <- list_fmap_compose.
  apply list_fmap_ext. intros _ k _. simpl. lia.
Qed.

Lemma parseLine_fields labels k item :
  inst_id (parseLine labels k item) = Z.of_nat k ∧
  raw (parseLine labels k item) = cl_raw item ∧
  op (parseLine labels k item) = toUpperCase (opcodeToken (cl_raw item)) ∧
  pcAddress (parseLine labels k item) = cl_pc item ∧
  issueCycle (parseLine labels k item) = None ∧
  execStartCycle (parseLine labels k item) = None ∧
  execEndCycle (parseLine labels k item) = None ∧
  writeCycle (parseLine labels k item) = None.
Proof.
  unfold parseLine, opcodeToken.
  by repeat case_match.
Qed.

Lemma parseAssembly_instructions code :
  p_instructions (parseAssembly code)
  = imap (parseLine (p_labels (parseAssembly code)))
      (cleanFrom 0 (sourceLines code)).
Proof.
  unfold parseAssembly. simpl. by rewrite firstPass_cleanLines.
Qed.

Lemma getOpType_unrecognized o :
  recognizedOpcode o = false → getOpType o = OpType.INTEGER.
Proof.
  unfold recognizedOpcode, getOpType, str_in.
  intros H%bool_decide_eq_false.
  repeat (rewrite bool_decide_eq_false_2;
          [|intros Hin; apply H; set_solver]).
  done.
Qed.



(** ** The register file *)

Lemma writeResult_registers_dom s :
  dom (registers (writeResult s)) = dom (registers s).
Proof.
  unfold writeResult. destruct (list_find _ _) as [[p r]|]; [|done].
  simpl. apply dom_fmap_L.
Qed.

Lemma renameDest_dom o d t (regs : gmap string Register) :
  dom (renameDest o d t regs) = dom regs.
Proof.
  unfold renameDest. destruct (writesRegister o); [|done].
  destruct (regs !! d) as [r|] eqn:E; [|done].
  apply dom_insert_lookup_L. by rewrite E.
Qed.

Lemma issue_registers_dom s : dom (registers (issue s)) = dom (registers s).
Proof.
  destruct (branchStall s) eqn:Hb; [by rewrite issue_stalled|].
  destruct (issue_cases s Hb) as [->|(ik & i & ea & rsIndex & freeRS & _ & ->)];
    [done|].
  rewrite commitIssue_registers. apply renameDest_dom.
Qed.

Lemma nextCycle_registers_dom s config labels :
  dom (registers (nextCycle s config labels)) = dom (registers s).
Proof.
  unfold nextCycle. destruct (isFinished s); [done|].
  destruct (checkCompletion_frame (issue (beforeIssue s config labels)))
    as (_ & _ & _ & _ & -> & _).
  rewrite issue_registers_dom. unfold beforeIssue.
  destruct (execute_frame config labels (writeResult (beginCycle s)))
    as (_ & _ & -> & _).
  by rewrite writeResult_registers_dom.
Qed.

Lemma initializeState_registers_dom insts config (regs : gmap string Z) :
  dom (registers (initializeState insts config regs)) = dom regs.
Proof.
  simpl. apply dom_imap_L. intros i. rewrite elem_of_dom. split.
  - intros [x Hx]. exists x. split; [done|]. by eexists.
  - intros (x & Hx & _). by exists x.
Qed.

(** A parsed instruction carries a non-zero immediate only when its
    [src2] field is a number: the literal itself, or the offset of a
    memory operand printed back in decimal. *)
Lemma parseLine_immediate labels k item :
  let i := parseLine labels k item in
  immediate i = 0 ∨ parseInt (src2 i) = Some (immediate i) ∨
  src2 i = pretty (immediate i).
Proof.
  unfold parseLine. cbn zeta.
  set (parts := splitSpaces false (commasToSpaces (cl_raw item))).
  destruct (hasChar "(" (part 2 parts) && hasChar ")" (part 2 parts)).
  - destruct (matchOffsetBase (part 2 parts)) as [[off baseReg]|]; simpl; auto.
  - assert (H : ∀ x, default 0 (parseInt x) = 0 ∨
                     parseInt x = Some (default 0 (parseInt x))).
    { intros x. destruct (parseInt x); simpl; auto. }
    destruct (labels !! part 3 parts); simpl.
    { destruct (H (part 3 parts)); auto. }
    destruct (bool_decide _ && negb (nonEmpty (part 3 parts))) eqn:E; simpl.
    + left. apply andb_true_iff in E as [_ E]. apply negb_true_iff in E.
      unfold nonEmpty in E. apply negb_false_iff, bool_decide_eq_true in E.
      by rewrite E.
    + destruct (H (part 3 parts)); auto.
Qed.

Lemma parseAssembly_immediate code i :
  i ∈ p_instructions (parseAssembly code) →
  immediate i = 0 ∨ parseInt (src2 i) = Some (immediate i) ∨
  src2 i = pretty (immediate i).
Proof.
  rewrite parseAssembly_instructions.
  intros (k & item & -> & _)%elem_of_lookup_imap_1.
  apply parseLine_immediate.
Qed.

Lemma secondOperand_immediate (regs : gmap string Register) b o i :
  isArithmetic o → regs !! src2 i = None →
  secondOperand regs b o i = (Some (immediate i), None).
Proof.
  intros (H1 & H2 & H3) Hr. unfold secondOperand. rewrite Hr. by destruct o.
Qed.



(** * Further properties *)

(** ** A visit of the execute phase, in detail *)

Section Visit.

Context (config : SystemConfig) (labels : gmap string Z).

Lemma startExecution_stamp rs inst s :
  ∃ t cch lg,
    startExecution config rs inst s =
      (set_timeLeft t rs, stampStart (cycle s) inst,
       {| cycle := cycle s; pc := pc s; instructions := instructions s;
          reservationStations := reservationStations s;
          registers := registers s; memory := memory s; cache := cch;
          cdb := cdb s; log := lg; isFinished := isFinished s;
          branchStall := branchStall s |}).
Proof.
  unfold startExecution, stampStart.
  destruct (execStartCycle inst) eqn:E.
  { exists (timeLeft rs), (cache s), (log s). rewrite set_timeLeft_id.
    by destruct s. }
  destruct s; simpl. repeat case_match; simpl; by eexists _, _, _.
Qed.

Lemma finishExecution_outcome rs inst s :
  finishExecution labels rs inst s = (rs, inst, s) ∨
  (execEndCycle inst = None ∧
   retiresAtExecute (getOpType (op inst)) = true ∧
   ∃ p mem lg bs,
     finishExecution labels rs inst s =
       (clearStation rs,
        set_writeCycle (Some (cycle s)) (set_execEndCycle (Some (cycle s)) inst),
        {| cycle := cycle s; pc := p; instructions := instructions s;
           reservationStations := reservationStations s;
           registers := registers s; memory := mem; cache := cache s;
           cdb := cdb s; log := lg; isFinished := isFinished s;
           branchStall := bs |})) ∨
  (execEndCycle inst = None ∧
   retiresAtExecute (getOpType (op inst)) = false ∧
   ∃ v, finishExecution labels rs inst s =
          (set_result (Some v) rs, set_execEndCycle (Some (cycle s)) inst, s)).
Proof.
  unfold finishExecution.
  destruct (decide (timeLeft rs = 0 ∧ execEndCycle inst = None)) as [[Ht He]|Hn];
    [|by left].
  right. cbn zeta.
  change (op (set_execEndCycle (Some (cycle s)) inst)) with (op inst).
  unfold retiresAtExecute.
  destruct (getOpType (op inst)) eqn:Eop;
    try (right; split; [done|]; split; [by vm_compute|]; by eexists).
  - left. split; [done|]. split; [by vm_compute|].
    destruct s; simpl. by eexists _, _, _, _.
  - left. split; [done|]. split; [by vm_compute|].
    destruct (branchTaken _ _ _); [destruct (labels !! _)|];
      destruct s; simpl; by eexists _, _, _, _.
Qed.

Lemma executeStation_visit s k :
  let s' := executeStation config labels s k in
  cycle s' = cycle s ∧
  (s' = s ∨
   ∃ rs ik inst rs' inst',
     reservationStations s !! k = Some rs ∧ busy rs = true ∧
     findInst (instId rs) (instructions s) = Some (ik, inst) ∧
     visitOutcome (cycle s) rs inst rs' inst' ∧
     instructions s' = <[ik := inst']> (instructions s) ∧
     reservationStations s' = <[k := rs']> (reservationStations s)).
Proof.
  unfold executeStation.
  destruct (reservationStations s !! k) as [rs|] eqn:Hk; [|by auto].
  destruct (busy rs) eqn:Hbusy; simpl; [|by auto].
  destruct (decide _) as [[Hj Hq]|]; [|by auto].
  destruct (findInst _ _) as [[ik inst]|] eqn:Hf; [|by auto].
  destruct (startExecution_stamp rs inst s) as (t0 & cch & lg0 & ->).
  destruct (tick_shape (set_timeLeft t0 rs)) as (t & ->).
  match goal with |- context [finishExecution _ ?r ?i ?st] =>
    destruct (finishExecution_outcome r i st)
      as [->|[(He & Hr & p & mem & lg & bs & ->)|(He & Hr & v & ->)]] end;
    simpl; (split; [done|]); right; exists rs, ik, inst.
  - exists (set_timeLeft t rs), (stampStart (cycle s) inst).
    split_and!; try done; try (by destruct rs). constructor.
  - exists (clearStation (set_timeLeft t rs)),
      (set_writeCycle (Some (cycle s))
         (set_execEndCycle (Some (cycle s)) (stampStart (cycle s) inst))).
    split_and!; try done; try (by destruct rs).
    constructor.
    + by unfold stampStart in He; destruct (execStartCycle inst).
    + by unfold stampStart in Hr; destruct (execStartCycle inst).
  - exists (set_result (Some v) (set_timeLeft t rs)),
      (set_execEndCycle (Some (cycle s)) (stampStart (cycle s) inst)).
    split_and!; try done; try (by destruct rs).
    constructor.
    + by unfold stampStart in He; destruct (execStartCycle inst).
    + by unfold stampStart in Hr; destruct (execStartCycle inst).
Qed.

End Visit.

(** ** The invariant of the engine *)

Lemma stampsOk_mono bi be bw bi' be' bw' i :
  bi ≤ bi' → be ≤ be' → bw ≤ bw' →
  stampsOk bi be bw i → stampsOk bi' be' bw' i.
Proof.
  intros Hi He Hw (H1 & H2 & H3 & H4). split_and!.
  - intros c Hc. specialize (H1 c Hc). lia.
  - intros c Hc. destruct (H2 c Hc) as [? ?]. split; [lia|done].
  - intros c Hc. destruct (H3 c Hc) as [? ?]. split; [lia|done].
  - intros c Hc. destruct (H4 c Hc) as [? ?]. split; [lia|done].
Qed.

Lemma stampsOk_unstamped bi be bw i : unstamped i → stampsOk bi be bw i.
Proof.
  intros (H1 & H2 & H3 & H4). unfold stampsOk. rewrite H1, H2, H3, H4.
  by split_and!.
Qed.

(** An instruction that is not issued carries no timestamp. *)
Lemma stampsOk_unissued bi be bw i :
  stampsOk bi be bw i → issueCycle i = None → unstamped i.
Proof.
  intros (H1 & H2 & H3 & H4) Hi.
  assert (execStartCycle i = None) as Hs.
  { destruct (execStartCycle i) as [c|] eqn:E; [|done].
    destruct (H2 c eq_refl) as (_ & c0 & ? & _). congruence. }
  assert (execEndCycle i = None) as He.
  { destruct (execEndCycle i) as [c|] eqn:E; [|done].
    destruct (H3 c eq_refl) as (_ & c0 & ? & _). congruence. }
  assert (writeCycle i = None) as Hw.
  { destruct (writeCycle i) as [c|] eqn:E; [|done].
    destruct (H4 c eq_refl) as (_ & c0 & ? & _). congruence. }
  done.
Qed.

Lemma stampsOk_issue bi be bw c i :
  unstamped i → c ≤ bi → stampsOk bi be bw (set_issueCycle (Some c) i).
Proof.
  intros (H1 & H2 & H3 & H4) Hc. unfold stampsOk; simpl.
  rewrite H2, H3, H4. split_and!; try done. intros ? [= <-]. done.
Qed.

Lemma stampStart_fields c i :
  inst_id (stampStart c i) = inst_id i ∧ op (stampStart c i) = op i ∧
  issueCycle (stampStart c i) = issueCycle i ∧
  execEndCycle (stampStart c i) = execEndCycle i ∧
  writeCycle (stampStart c i) = writeCycle i ∧
  pcAddress (stampStart c i) = pcAddress i ∧
  execStartCycle (stampStart c i) = Some (default c (execStartCycle i)).
Proof. unfold stampStart. by destruct (execStartCycle i) eqn:E. Qed.

Lemma stampsOk_stampStart bi be bw c i :
  stampsOk bi be bw i → issueCycle i ≠ None → bi < c → c ≤ be →
  stampsOk bi be bw (stampStart c i).
Proof.
  intros Hok Hi Hb Hc. unfold stampStart.
  destruct (execStartCycle i) eqn:Hs; [done|].
  destruct Hok as (H1 & H2 & H3 & H4). unfold stampsOk; simpl. split_and!.
  - done.
  - intros ? [= <-]. split; [done|].
    destruct (issueCycle i) as [c0|] eqn:E; [|done].
    exists c0. split; [done|]. specialize (H1 c0 eq_refl). lia.
  - intros c' Hc'. destruct (H3 c' Hc') as (_ & c0 & ? & _). congruence.
  - done.
Qed.

(** Completion of an instruction that has started. *)
Lemma stampsOk_end bi be bw c i :
  stampsOk bi be bw i → execStartCycle i ≠ None → writeCycle i = None →
  be ≤ c →
  stampsOk bi c bw (set_execEndCycle (Some c) i).
Proof.
  intros (H1 & H2 & H3 & H4) Hs Hw Hc. unfold stampsOk; simpl. split_and!.
  - done.
  - intros c' Hc'. destruct (H2 c' Hc') as [? ?]. split; [lia|done].
  - intros ? [= <-]. split; [lia|].
    destruct (execStartCycle i) as [c0|] eqn:E; [|done].
    exists c0. split; [done|]. destruct (H2 c0 eq_refl). lia.
  - rewrite Hw. done.
Qed.

(** Write-back, or retirement, of an instruction that has completed. *)
Lemma stampsOk_write bi be bw c i :
  stampsOk bi be bw i → bw ≤ c →
  (∃ c0, execEndCycle i = Some c0 ∧
         if retiresAtExecute (getOpType (op i)) then c0 = c else c0 < c) →
  stampsOk bi be c (set_writeCycle (Some c) i).
Proof.
  intros (H1 & H2 & H3 & H4) Hc He. unfold stampsOk; simpl. split_and!; try done.
  intros ? [= <-]. split; [lia|done].
Qed.

Lemma findInst_bound insts j inst :
  NoDup (inst_id <$> insts) → insts !! j = Some inst →
  findInst (Some (inst_id inst)) insts = Some (j, inst).
Proof.
  intros Hnd Hj. unfold findInst. apply list_find_Some. split_and!; [done..|].
  intros j' y Hj' Hlt [= Heq].
  assert (j' = j); [|lia].
  eapply (NoDup_lookup _ _ _ _ Hnd); rewrite list_lookup_fmap.
  - by rewrite Hj'.
  - by rewrite Hj, Heq.
Qed.

Lemma bound_sameBinding r r' inst :
  bound r inst → sameBinding r r' → bound r' inst.
Proof.
  intros (H1 & H2 & H3 & H4 & H5 & H6) (E1 & E2 & E3 & E4).
  unfold bound. rewrite E1, E2, E3, E4. done.
Qed.

Lemma engineInv_mono bi be bw bi' be' bw' s :
  bi ≤ bi' → be ≤ be' → bw ≤ bw' →
  engineInv bi be bw s → engineInv bi' be' bw' s.
Proof.
  intros ??? [H1 H2 H3 H4]. split; try done.
  eapply Forall_impl; [done|]. intros i. by apply stampsOk_mono.
Qed.

Lemma engineInv_ext bi be bw s s' :
  instructions s' = instructions s →
  reservationStations s' = reservationStations s →
  engineInv bi be bw s → engineInv bi be bw s'.
Proof. intros E1 E2 [H1 H2 H3 H4]. split; by rewrite ?E1, ?E2. Qed.

(** The update of one instruction, at position [j], and of the stations:
    the station at [k] is the only one that may hold the instruction. *)
Lemma engineInv_update bi be bw s s' j X X' k :
  engineInv bi be bw s →
  instructions s !! j = Some X →
  instructions s' = <[j := X']> (instructions s) →
  inst_id X' = inst_id X →
  stampsOk bi be bw X' →
  (∀ k' r, reservationStations s !! k' = Some r → busy r = true →
           instId r = Some (inst_id X) → k' = k) →
  (∀ k' r', reservationStations s' !! k' = Some r' → busy r' = true →
     if decide (k' = k) then bound r' X'
     else ∃ r, reservationStations s !! k' = Some r ∧ busy r = true ∧
               sameBinding r r') →
  engineInv bi be bw s'.
Proof.
  intros [Hids Hst Hb Hinj] Hj Hins Hid Hok Honly Hsts.
  assert (∀ k' r Y j',
            k' ≠ k → reservationStations s !! k' = Some r → busy r = true →
            instructions s !! j' = Some Y → bound r Y → j' ≠ j) as Hne.
  { intros k' r Y j' Hk Hr Hbusy HY HbY ->.
    assert (Y = X) as -> by congruence.
    apply Hk, (Honly k' r Hr Hbusy). apply HbY. }
  split.
  - rewrite Hins. by erewrite fmap_insert_same.
  - rewrite Hins. by apply Forall_insert.
  - intros k' r' Hr' Hbusy'. specialize (Hsts k' r' Hr' Hbusy').
    destruct (decide (k' = k)) as [->|Hk].
    + exists j, X'. split; [|done]. rewrite Hins.
      apply list_lookup_insert_eq. by eapply lookup_lt_Some.
    + destruct Hsts as (r & Hr & Hbusy & Hsame).
      destruct (Hb k' r Hr Hbusy) as (j' & Y & HY & HbY).
      exists j', Y. split; [|by eapply bound_sameBinding].
      rewrite Hins, list_lookup_insert_ne; [done|].
      intros <-. by eapply (Hne k' r Y j).
  - intros k1 k2 r1 r2 Hr1 Hr2 Hb1 Hb2 Heq.
    pose proof (Hsts k1 r1 Hr1 Hb1) as S1.
    pose proof (Hsts k2 r2 Hr2 Hb2) as S2.
    destruct (decide (k1 = k)) as [->|Hk1], (decide (k2 = k)) as [->|Hk2];
      [done| | |].
    + destruct S2 as (r & Hr & Hbusy & Hsame). symmetry.
      apply (Honly k2 r Hr Hbusy).
      destruct Hsame as (E & _). rewrite <- E, <- Heq, <- Hid. apply S1.
    + destruct S1 as (r & Hr & Hbusy & Hsame).
      apply (Honly k1 r Hr Hbusy).
      destruct Hsame as (E & _). rewrite <- E, Heq, <- Hid. apply S2.
    + destruct S1 as (o1 & Ho1 & Hbo1 & Hs1), S2 as (o2 & Ho2 & Hbo2 & Hs2).
      apply (Hinj k1 k2 o1 o2 Ho1 Ho2 Hbo1 Hbo2).
      destruct Hs1 as (E1 & _), Hs2 as (E2 & _). by rewrite <- E1, <- E2.
Qed.

Lemma captureOperands_binding t v r :
  busy (captureOperands t v r) = busy r ∧ sameBinding r (captureOperands t v r).
Proof.
  unfold captureOperands, sameBinding.
  destruct (busy r) eqn:E; [|done].
  destruct (decide (qj r = Some t)); simpl;
    (match goal with |- context [decide ?P] => destruct (decide P) end); done.
Qed.

Lemma writeResult_inv bi be bw s :
  engineInv bi be bw s → be < cycle s → bw ≤ cycle s →
  engineInv bi be (cycle s) (writeResult s).
Proof.
  intros Hinv Hbe Hbw.
  apply (engineInv_mono bi be bw bi be (cycle s)) in Hinv; [|lia..].
  unfold writeResult.
  destruct (list_find _ _) as [[p r]|] eqn:Hfind; [|done].
  apply list_find_Some in Hfind as (Hp & (Hbusy & Ht & Hres) & _).
  destruct (inv_bound _ _ _ _ Hinv p r Hp Hbusy) as (j & X & Hj & HbX).
  pose proof HbX as (Hid & Hiss & Hwr & Hop & Hty & Hr).
  destruct (Hr Hres) as [Hend Hret].
  simpl. rewrite Hid, (findInst_bound _ j X (inv_ids _ _ _ _ Hinv) Hj).
  eapply (engineInv_update _ _ _ s _ j X _ p Hinv Hj); simpl.
  - reflexivity.
  - done.
  - pose proof (proj1 (Forall_lookup _ _) (inv_stamps _ _ _ _ Hinv) j X Hj) as Hok.
    apply (stampsOk_write bi be (cycle s)); [done|lia|].
    destruct (execEndCycle X) as [c0|] eqn:E; [|done].
    exists c0. split; [done|]. rewrite Hret.
    destruct Hok as (_ & _ & H3 & _). destruct (H3 c0 E). lia.
  - intros k' r0 Hk' Hb0 Hi0.
    apply (inv_inj _ _ _ _ Hinv k' p r0 r Hk' Hp Hb0 Hbusy). congruence.
  - intros k' r' Hk' Hb'.
    destruct (decide (k' = p)) as [->|Hne].
    + rewrite list_lookup_alter, list_lookup_fmap, Hp in Hk'.
      destruct (decide (p = p)); [|done].
      simpl in Hk'. injection Hk' as <-. done.
    + rewrite list_lookup_alter_ne, list_lookup_fmap in Hk' by done.
      destruct (reservationStations s !! k') as [r0|] eqn:Hr0; [|done].
      simpl in Hk'. injection Hk' as <-.
      destruct (captureOperands_binding (rs_id r) (default 0 (result r)) r0)
        as [Eb Hs].
      exists r0. split; [done|]. split; [congruence|done].
Qed.

Lemma visitOutcome_inv bi c rs X rs' X' :
  visitOutcome c rs X rs' X' → bound rs X → stampsOk bi c c X → bi < c →
  inst_id X' = inst_id X ∧ stampsOk bi c c X' ∧
  (busy rs' = true → bound rs' X').
Proof.
  intros Hv (Hid & Hiss & Hwr & Hop & Hty & Hr) Hok Hlt.
  destruct (stampStart_fields c X) as (F1 & F2 & F3 & F4 & F5 & F6 & F7).
  pose proof (stampsOk_stampStart bi c c c X Hok Hiss Hlt (Z.le_refl c)) as Hs.
  destruct Hv as [t|t He Hret|t v He Hret]; simpl.
  - split; [done|]. split; [done|]. intros _.
    unfold bound; simpl. rewrite F1, F2, F3, F4, F5. done.
  - split; [done|]. split; [|done].
    apply (stampsOk_write bi c c); [|lia|].
    + apply (stampsOk_end bi c c); [done| |congruence|lia]. by rewrite F7.
    + exists c. simpl. rewrite F2, Hret. done.
  - split; [done|]. split.
    + apply (stampsOk_end bi c c); [done| |congruence|lia]. by rewrite F7.
    + intros _. unfold bound; simpl. rewrite F1, F2, F3, F5. done.
Qed.

Section ExecuteInv.

Context (config : SystemConfig) (labels : gmap string Z).

Lemma executeStation_inv bi s k :
  engineInv bi (cycle s) (cycle s) s → bi < cycle s →
  engineInv bi (cycle s) (cycle s) (executeStation config labels s k).
Proof.
  intros Hinv Hlt.
  destruct (executeStation_visit config labels s k) as [Hc [->|Hv]]; [done|].
  destruct Hv as (rs & ik & inst & rs' & inst' & Hk & Hbusy & Hf & Hv & Hi & Hs).
  destruct (inv_bound _ _ _ _ Hinv k rs Hk Hbusy) as (j & X & Hj & HbX).
  pose proof HbX as (Hid & _).
  rewrite Hid, (findInst_bound _ j X (inv_ids _ _ _ _ Hinv) Hj) in Hf.
  injection Hf as <- <-.
  pose proof (proj1 (Forall_lookup _ _) (inv_stamps _ _ _ _ Hinv) j X Hj) as Hok.
  destruct (visitOutcome_inv bi (cycle s) rs X rs' inst' Hv HbX Hok Hlt)
    as (Hid' & Hok' & Hb').
  eapply (engineInv_update _ _ _ s _ j X inst' k Hinv Hj Hi Hid' Hok').
  - intros k' r0 Hk' Hb0 Hi0.
    apply (inv_inj _ _ _ _ Hinv k' k r0 rs Hk' Hk Hb0 Hbusy). congruence.
  - intros k' r' Hk' Hbr'. rewrite Hs in Hk'.
    destruct (decide (k' = k)) as [->|Hne].
    + rewrite list_lookup_insert_eq in Hk' by (by eapply lookup_lt_Some).
      injection Hk' as <-. auto.
    + rewrite list_lookup_insert_ne in Hk' by done.
      exists r'. done.
Qed.

Lemma execute_inv bi s :
  engineInv bi (cycle s) (cycle s) s → bi < cycle s →
  engineInv bi (cycle s) (cycle s) (execute config labels s).
Proof.
  intros Hinv Hlt. unfold execute.
  cut (cycle (foldl (executeStation config labels) s
                (seq 0 (length (reservationStations s)))) = cycle s ∧
       engineInv bi (cycle s) (cycle s)
         (foldl (executeStation config labels) s
            (seq 0 (length (reservationStations s))))); [by intros []|].
  apply (foldl_invariant
           (λ y, cycle y = cycle s ∧ engineInv bi (cycle s) (cycle s) y));
    [|done].
  intros y k [Hc Hy].
  destruct (executeStation_visit config labels y k) as [Hc' _].
  split; [congruence|].
  rewrite <- Hc. apply executeStation_inv; by rewrite Hc.
Qed.

End ExecuteInv.

Lemma maxId_fresh insts : maxId insts + 1 ∉ inst_id <$> insts.
Proof.
  intros (i & Hi & Hin)%list_elem_of_fmap.
  pose proof (maxId_ge insts i Hin). lia.
Qed.

Lemma selectIssueInst_inv bi be bw s :
  engineInv bi be bw s →
  engineInv bi be bw
    (set_instructions (selectIssueInst (instructions s) (pc s)).1 s).
Proof.
  intros Hinv.
  destruct (selectIssueInst_cases (instructions s) (pc s))
    as [(k & i & _ & ->)|[(_ & k & tpl & _ & ->)|(_ & ->)]]; simpl;
    try (by eapply engineInv_ext; [| |exact Hinv]).
  destruct Hinv as [H1 H2 H3 H4]. split; simpl; [| | |done].
  - rewrite fmap_app. apply NoDup_app. split; [done|]. split.
    + intros x Hx ->%list_elem_of_singleton. simpl in Hx.
      by apply maxId_fresh in Hx.
    + apply NoDup_singleton.
  - apply Forall_app. split; [done|]. apply Forall_singleton.
    by apply stampsOk_unstamped.
  - intros k' r Hk' Hb. destruct (H3 k' r Hk' Hb) as (j & X & Hj & HbX).
    exists j, X. split; [|done]. by apply lookup_app_l_Some.
Qed.

Lemma issue_inv bi s :
  engineInv bi (cycle s) (cycle s) s → bi ≤ cycle s → wellFormed (issue s).
Proof.
  intros Hinv Hle. unfold wellFormed.
  destruct (issue_frame s) as (Hc & _). rewrite Hc.
  apply (engineInv_mono bi _ _ (cycle s) (cycle s) (cycle s)) in Hinv; [|lia..].
  destruct (branchStall s) eqn:Hstall; [by rewrite issue_stalled|].
  apply (selectIssueInst_inv _ _ _ s) in Hinv.
  destruct (issue_cases s Hstall)
    as [->|(ik & issueInst & ea & rsIndex & freeRS & Hiss & ->)]; [done|].
  destruct Hiss as (_ & Hsel & _ & Hfree).
  apply selectIssueInst_lookup in Hsel as (Hik & Hnone & _).
  apply list_find_Some in Hfree as (Hrs & [Hty Hidle] & _).
  set (s1 := set_instructions (selectIssueInst (instructions s) (pc s)).1 s) in *.
  assert (instructions s1 !! ik = Some issueInst) as Hik1 by done.
  pose proof (proj1 (Forall_lookup _ _) (inv_stamps _ _ _ _ Hinv) ik _ Hik1) as Hok.
  pose proof (stampsOk_unissued _ _ _ _ Hok Hnone) as Hun.
  eapply (engineInv_update _ _ _ s1 _ ik issueInst _ rsIndex Hinv Hik1).
  - apply commitIssue_instructions.
  - done.
  - apply stampsOk_issue; [done|]. simpl. lia.
  - intros k' r Hk' Hb Hi. exfalso.
    destruct (inv_bound _ _ _ _ Hinv k' r Hk' Hb)
      as (j & Y & Hj & HiY & HissY & _).
    assert (j = ik) as ->.
    { eapply (NoDup_lookup _ _ _ _ (inv_ids _ _ _ _ Hinv));
        rewrite list_lookup_fmap.
      - by rewrite Hj.
      - rewrite Hik1. simpl. congruence. }
    congruence.
  - intros k' r' Hk' Hb'. rewrite commitIssue_stations in Hk'.
    destruct (decide (k' = rsIndex)) as [->|Hne].
    + rewrite list_lookup_insert_eq in Hk' by (by eapply lookup_lt_Some).
      injection Hk' as <-. destruct Hun as (_ & _ & _ & Hw).
      unfold bound; simpl. split_and!; done.
    + rewrite list_lookup_insert_ne in Hk' by done.
      exists r'. done.
Qed.

Lemma nextCycle_wellFormed s config labels :
  wellFormed s → wellFormed (nextCycle s config labels).
Proof.
  intros Hinv. unfold nextCycle.
  destruct (isFinished s); [done|].
  unfold wellFormed.
  destruct (checkCompletion_frame (issue (beforeIssue s config labels)))
    as (Hc & _ & Hi & Hs & _).
  rewrite Hc. eapply engineInv_ext; [exact Hi|exact Hs|].
  apply (issue_inv (cycle s)).
  - unfold beforeIssue.
    set (s1 := beginCycle s).
    assert (engineInv (cycle s) (cycle s) (cycle s) s1) as H1
      by (by eapply engineInv_ext; [| |exact Hinv]).
    assert (cycle s1 = cycle s + 1) as Hc1 by done.
    apply writeResult_inv in H1; [|lia..].
    destruct (writeResult_frame s1) as (Hcw & _).
    destruct (execute_frame config labels (writeResult s1)) as (Hce & _).
    rewrite Hce. apply execute_inv; [|lia].
    rewrite Hcw. eapply engineInv_mono; [| | |exact H1]; lia.
  - destruct (execute_frame config labels (writeResult (beginCycle s)))
      as (Hce & _).
    destruct (writeResult_frame (beginCycle s)) as (Hcw & _).
    unfold beforeIssue. rewrite Hce, Hcw. simpl. lia.
Qed.

Lemma initializeState_wellFormed insts config regs :
  NoDup (inst_id <$> insts) → Forall unstamped insts →
  wellFormed (initializeState insts config regs).
Proof.
  intros Hnd Hun.
  assert (∀ k rs, initialStations config !! k = Some rs → busy rs = false) as Hidle.
  { intros k rs Hk%list_elem_of_lookup_2. unfold initialStations in Hk.
    apply list_elem_of_In, in_flat_map in Hk as (ty & _ & Hin).
    apply list_elem_of_In, list_elem_of_fmap in Hin as (i & -> & _). done. }
  split; simpl.
  - done.
  - eapply Forall_impl; [done|]. intros i. apply stampsOk_unstamped.
  - intros k rs Hk Hb. apply Hidle in Hk. congruence.
  - intros k1 k2 r1 r2 Hk _ Hb. apply Hidle in Hk. congruence.
Qed.

Lemma run_wellFormed n s config labels :
  wellFormed s → wellFormed (run n s config labels).
Proof.
  intros Hs. induction n as [|n IH]; simpl; [done|].
  by apply nextCycle_wellFormed.
Qed.

(** ** Runs started by [initializeState] *)

Lemma parseAssembly_fresh code :
  NoDup (inst_id <$> p_instructions (parseAssembly code)) ∧
  Forall unstamped (p_instructions (parseAssembly code)).
Proof.
  rewrite parseAssembly_instructions. split.
  - apply NoDup_alt. intros i j x. rewrite !list_lookup_fmap, !list_lookup_imap.
    destruct (cleanFrom 0 (sourceLines code) !! i) as [a1|]; [|done].
    destruct (cleanFrom 0 (sourceLines code) !! j) as [a2|]; [|done].
    simpl. intros [= <-] [= H].
    match type of H with inst_id (parseLine ?l _ _) = _ =>
      destruct (parseLine_fields l i a1) as (E1 & _);
      destruct (parseLine_fields l j a2) as (E2 & _) end.
    rewrite E1, E2 in H. lia.
  - apply Forall_lookup. intros k i. rewrite list_lookup_imap.
    destruct (cleanFrom 0 (sourceLines code) !! k) as [a1|]; [|done].
    simpl. intros [= <-].
    by destruct (parseLine_fields (p_labels (parseAssembly code)) k a1)
      as (_ & _ & _ & _ & ? & ? & ? & ?).
Qed.

(** X1.  In every state of a run started from a program whose instruction
    identities are pairwise distinct and whose timestamps are all null,
    the timestamps of every dynamic instruction are consistent: no
    timestamp exceeds the cycle counter; an execution start implies an
    issue in an earlier cycle; a completion implies an execution start no
    later than it; a write implies a completion, in the same cycle for a
    STORE or a BRANCH and in an earlier cycle for every other class. *)
Theorem timestamps_consistent insts config regs labels n :
  NoDup (inst_id <$> insts) → Forall unstamped insts →
  let s := run n (initializeState insts config regs) config labels in
  Forall (stampsOk (cycle s) (cycle s) (cycle s)) (instructions s).
Proof.
  intros Hnd Hun s.
  apply (inv_stamps _ _ _ s), run_wellFormed.
  by apply initializeState_wellFormed.
Qed.

Lemma timestamps_consistent_witness :
  let s := run 6 sequentialStart exampleConfig (p_labels sequentialProgram) in
  Forall (stampsOk (cycle s) (cycle s) (cycle s)) (instructions s).
Proof.
  apply (timestamps_consistent (p_instructions sequentialProgram) exampleConfig
           exampleRegs (p_labels sequentialProgram) 6).
  - apply (bool_decide_unpack _). vm_compute. reflexivity.
  - vm_compute. repeat constructor.
Defined.

(** X2.  The identities of the dynamic instructions stay pairwise
    distinct along a run, instances appended by the loop re-entry
    included, when they are distinct in the program. *)
Theorem dynamic_ids_distinct insts config regs labels n :
  NoDup (inst_id <$> insts) → Forall unstamped insts →
  NoDup (inst_id <$>
         instructions (run n (initializeState insts config regs) config labels)).
Proof.
  intros Hnd Hun.
  apply (inv_ids (cycle (run n (initializeState insts config regs) config labels))
                 (cycle (run n (initializeState insts config regs) config labels))
                 (cycle (run n (initializeState insts config regs) config labels))),
        run_wellFormed.
  by apply initializeState_wellFormed.
Qed.

Lemma dynamic_ids_distinct_witness :
  NoDup (inst_id <$>
         instructions
           (run 6 (initializeState (p_instructions loopProgram) exampleConfig
                     exampleRegs) exampleConfig (p_labels loopProgram))).
Proof.
  apply (dynamic_ids_distinct (p_instructions loopProgram) exampleConfig
           exampleRegs (p_labels loopProgram) 6).
  - apply (bool_decide_unpack _). vm_compute. reflexivity.
  - vm_compute. repeat constructor.
Defined.

(** X3.  In every state of such a run, every busy reservation station
    holds an instruction of the dynamic list: the station's [instId] and
    [op] are those of the instruction, its class is the class of the
    opcode, the instruction is issued and not yet written, and a station
    that holds a result holds a completed instruction that is neither a
    STORE nor a BRANCH.  No two busy stations hold the same instruction. *)
Theorem busy_station_bound insts config regs labels n :
  NoDup (inst_id <$> insts) → Forall unstamped insts →
  let s := run n (initializeState insts config regs) config labels in
  (∀ k rs, reservationStations s !! k = Some rs → busy rs = true →
     ∃ j inst, instructions s !! j = Some inst ∧ bound rs inst) ∧
  (∀ k1 k2 r1 r2,
     reservationStations s !! k1 = Some r1 →
     reservationStations s !! k2 = Some r2 →
     busy r1 = true → busy r2 = true → instId r1 = instId r2 → k1 = k2).
Proof.
  intros Hnd Hun s.
  assert (wellFormed s) as [_ _ H3 H4]
    by (by apply run_wellFormed, initializeState_wellFormed).
  by split.
Qed.

Lemma busy_station_bound_witness :
  let s := run 6 sequentialStart exampleConfig (p_labels sequentialProgram) in
  (∀ k rs, reservationStations s !! k = Some rs → busy rs = true →
     ∃ j inst, instructions s !! j = Some inst ∧ bound rs inst) ∧
  (∀ k1 k2 r1 r2,
     reservationStations s !! k1 = Some r1 →
     reservationStations s !! k2 = Some r2 →
     busy r1 = true → busy r2 = true → instId r1 = instId r2 → k1 = k2).
Proof.
  apply (busy_station_bound (p_instructions sequentialProgram) exampleConfig
           exampleRegs (p_labels sequentialProgram) 6).
  - apply (bool_decide_unpack _). vm_compute. reflexivity.
  - vm_compute. repeat constructor.
Defined.

(** X4.  The parser and the engine compose: the program the parser
    returns for any source text has pairwise distinct identities and no
    timestamp, so every state of a run started from it satisfies the
    invariant of the engine. *)
Theorem parsed_program_wellFormed code config regs labels n :
  wellFormed
    (run n (initializeState (p_instructions (parseAssembly code)) config regs)
       config labels).
Proof.
  destruct (parseAssembly_fresh code).
  by apply run_wellFormed, initializeState_wellFormed.
Qed.

(** ** The dynamic instruction list only grows *)

Lemma extends_refl i : extends i i.
Proof. unfold extends. by split_and!. Qed.

Lemma extends_trans i1 i2 i3 : extends i1 i2 → extends i2 i3 → extends i1 i3.
Proof.
  unfold extends. intros H1 H2. destruct_and!.
  split_and!; try congruence; auto.
Qed.

Lemma grows_refl l : grows l l.
Proof. intros k i Hk. exists i. split; [done|apply extends_refl]. Qed.

Lemma grows_trans l1 l2 l3 : grows l1 l2 → grows l2 l3 → grows l1 l3.
Proof.
  intros H1 H2 k i Hk.
  destruct (H1 k i Hk) as (i2 & Hk2 & He2).
  destruct (H2 k i2 Hk2) as (i3 & Hk3 & He3).
  exists i3. split; [done|]. by eapply extends_trans.
Qed.

Lemma grows_insert l j X X' :
  l !! j = Some X → extends X X' → grows l (<[j := X']> l).
Proof.
  intros Hj He k i Hk. destruct (decide (k = j)) as [->|Hne].
  - exists X'. rewrite list_lookup_insert_eq by (by eapply lookup_lt_Some).
    split; [done|]. congruence.
  - exists i. rewrite list_lookup_insert_ne by done.
    split; [done|apply extends_refl].
Qed.

Lemma grows_app l l' : grows l (l ++ l').
Proof.
  intros k i Hk. exists i. split; [by apply lookup_app_l_Some|apply extends_refl].
Qed.

Lemma extends_stampStart c i : extends i (stampStart c i).
Proof.
  unfold stampStart. destruct (execStartCycle i) eqn:E; [apply extends_refl|].
  unfold extends; simpl. rewrite E. by split_and!.
Qed.

Lemma extends_end c i :
  execEndCycle i = None → extends i (set_execEndCycle (Some c) i).
Proof. intros E. unfold extends; simpl. rewrite E. by split_and!. Qed.

Lemma extends_write c i :
  writeCycle i = None → extends i (set_writeCycle (Some c) i).
Proof. intros E. unfold extends; simpl. rewrite E. by split_and!. Qed.

Lemma extends_issue c i :
  issueCycle i = None → extends i (set_issueCycle (Some c) i).
Proof. intros E. unfold extends; simpl. rewrite E. by split_and!. Qed.

Lemma writeResult_grows bi be bw s :
  engineInv bi be bw s →
  grows (instructions s) (instructions (writeResult s)).
Proof.
  intros Hinv. unfold writeResult.
  destruct (list_find _ _) as [[p r]|] eqn:Hfind; [|apply grows_refl].
  apply list_find_Some in Hfind as (Hp & (Hbusy & _ & _) & _).
  destruct (inv_bound _ _ _ _ Hinv p r Hp Hbusy) as (j & X & Hj & HbX).
  pose proof HbX as (Hid & _ & Hwr & _).
  simpl. rewrite Hid, (findInst_bound _ j X (inv_ids _ _ _ _ Hinv) Hj).
  apply (grows_insert _ _ X); [done|]. by apply extends_write.
Qed.

Lemma visitOutcome_extends c rs X rs' X' :
  visitOutcome c rs X rs' X' → bound rs X → extends X X'.
Proof.
  intros Hv (_ & _ & Hwr & _).
  destruct (stampStart_fields c X) as (_ & _ & _ & F4 & F5 & _).
  destruct Hv as [t|t He Hret|t v He Hret].
  - apply extends_stampStart.
  - apply (extends_trans _ (stampStart c X)); [apply extends_stampStart|].
    apply (extends_trans _ (set_execEndCycle (Some c) (stampStart c X)));
      [apply extends_end; congruence|].
    apply extends_write. simpl. congruence.
  - apply (extends_trans _ (stampStart c X)); [apply extends_stampStart|].
    apply extends_end; congruence.
Qed.

Section ExecuteGrows.

Context (config : SystemConfig) (labels : gmap string Z).

Lemma executeStation_grows bi be bw s k :
  engineInv bi be bw s →
  grows (instructions s) (instructions (executeStation config labels s k)).
Proof.
  intros Hinv.
  destruct (executeStation_visit config labels s k) as [Hc [->|Hv]];
    [apply grows_refl|].
  destruct Hv as (rs & ik & inst & rs' & inst' & Hk & Hbusy & Hf & Hv & Hi & Hs).
  destruct (inv_bound _ _ _ _ Hinv k rs Hk Hbusy) as (j & X & Hj & HbX).
  pose proof HbX as (Hid & _).
  rewrite Hid, (findInst_bound _ j X (inv_ids _ _ _ _ Hinv) Hj) in Hf.
  injection Hf as <- <-. rewrite Hi.
  apply (grows_insert _ _ X); [done|]. by eapply visitOutcome_extends.
Qed.

Lemma execute_grows bi s :
  engineInv bi (cycle s) (cycle s) s → bi < cycle s →
  grows (instructions s) (instructions (execute config labels s)).
Proof.
  intros Hinv Hlt. unfold execute.
  cut (cycle (foldl (executeStation config labels) s
                (seq 0 (length (reservationStations s)))) = cycle s ∧
       engineInv bi (cycle s) (cycle s)
         (foldl (executeStation config labels) s
            (seq 0 (length (reservationStations s)))) ∧
       grows (instructions s)
         (instructions (foldl (executeStation config labels) s
            (seq 0 (length (reservationStations s)))))); [by intros (_ & _ & ?)|].
  apply (foldl_invariant
           (λ y, cycle y = cycle s ∧ engineInv bi (cycle s) (cycle s) y ∧
                 grows (instructions s) (instructions y)));
    [|by split_and!; [| |apply grows_refl]].
  intros y k (Hc & Hy & Hg).
  destruct (executeStation_visit config labels y k) as [Hc' _].
  split_and!.
  - congruence.
  - rewrite <- Hc. apply executeStation_inv; by rewrite Hc.
  - eapply grows_trans; [done|]. by eapply executeStation_grows.
Qed.

End ExecuteGrows.

Lemma issue_grows s : grows (instructions s) (instructions (issue s)).
Proof.
  destruct (branchStall s) eqn:Hstall; [rewrite issue_stalled by done; apply grows_refl|].
  assert (grows (instructions s) (selectIssueInst (instructions s) (pc s)).1) as Hsel.
  { destruct (selectIssueInst_cases (instructions s) (pc s))
      as [(k & i & _ & ->)|[(_ & k & tpl & _ & ->)|(_ & ->)]]; simpl;
      [apply grows_refl|apply grows_app|apply grows_refl]. }
  destruct (issue_cases s Hstall)
    as [->|(ik & issueInst & ea & rsIndex & freeRS & Hiss & ->)]; [done|].
  destruct Hiss as (_ & Hs & _).
  apply selectIssueInst_lookup in Hs as (Hik & Hnone & _).
  rewrite commitIssue_instructions. simpl.
  eapply grows_trans; [done|].
  apply (grows_insert _ _ issueInst); [done|]. by apply extends_issue.
Qed.

Lemma nextCycle_grows s config labels :
  wellFormed s →
  grows (instructions s) (instructions (nextCycle s config labels)).
Proof.
  intros Hinv. unfold nextCycle.
  destruct (isFinished s); [apply grows_refl|].
  destruct (checkCompletion_frame (issue (beforeIssue s config labels)))
    as (_ & _ & -> & _).
  eapply grows_trans; [|apply issue_grows].
  unfold beforeIssue.
  set (s1 := beginCycle s).
  assert (engineInv (cycle s) (cycle s) (cycle s) s1) as H1
    by (by eapply engineInv_ext; [| |exact Hinv]).
  assert (cycle s1 = cycle s + 1) as Hc1 by done.
  eapply (grows_trans _ (instructions (writeResult s1)));
    [by eapply (writeResult_grows _ _ _ s1)|].
  apply writeResult_inv in H1; [|lia..].
  destruct (writeResult_frame s1) as (Hcw & _).
  apply (execute_grows _ _ (cycle s)); [|lia].
  rewrite Hcw. eapply engineInv_mono; [| | |exact H1]; lia.
Qed.

Lemma run_grows n m s config labels :
  wellFormed s →
  grows (instructions (run n s config labels))
        (instructions (run (m + n) s config labels)).
Proof.
  intros Hs. induction m as [|m IH]; simpl; [apply grows_refl|].
  eapply grows_trans; [exact IH|].
  by apply nextCycle_grows, run_wellFormed.
Qed.

(** X5.  Along a run the dynamic instruction list only grows: an
    instruction present after [n] steps is at the same position after any
    number of further steps, with the same identity, text, opcode,
    operands, immediate and address; and a timestamp that is set is never
    set again to another value. *)
Theorem instructions_only_grow insts config regs labels n m :
  NoDup (inst_id <$> insts) → Forall unstamped insts →
  grows
    (instructions (run n (initializeState insts config regs) config labels))
    (instructions (run (m + n) (initializeState insts config regs) config labels)).
Proof.
  intros Hnd Hun. by apply run_grows, initializeState_wellFormed.
Qed.

Lemma instructions_only_grow_witness :
  grows
    (instructions
       (run 2 (initializeState (p_instructions loopProgram) exampleConfig
                 exampleRegs) exampleConfig (p_labels loopProgram)))
    (instructions
       (run (4 + 2)
          (initializeState (p_instructions loopProgram) exampleConfig
             exampleRegs) exampleConfig (p_labels loopProgram))).
Proof.
  apply (instructions_only_grow (p_instructions loopProgram) exampleConfig
           exampleRegs (p_labels loopProgram) 2 4).
  - apply (bool_decide_unpack _). vm_compute. reflexivity.
  - vm_compute. repeat constructor.
Defined.

(** ** Steps: completion, issue, cycle counter *)

Lemma run_completed insts config regs labels n :
  let s := run n (initializeState insts config regs) config labels in
  isFinished s = true → completed s.
Proof.
  induction n as [|n IH]; simpl; [done|].
  intros Hf. apply nextCycle_completed; [|done].
  destruct (isFinished (run n _ _ _)) eqn:E; [right; by apply IH|by left].
Qed.

(** X6.  When a run is finished no reservation station is busy. *)
Theorem finished_stations_idle insts config regs labels n :
  NoDup (inst_id <$> insts) → Forall unstamped insts →
  let s := run n (initializeState insts config regs) config labels in
  isFinished s = true →
  Forall (λ rs, busy rs = false) (reservationStations s).
Proof.
  intros Hnd Hun s Hf.
  assert (wellFormed s) as Hinv
    by (by apply run_wellFormed, initializeState_wellFormed).
  destruct (run_completed insts config regs labels n Hf) as [Hall _].
  apply Forall_lookup. intros k rs Hk.
  destruct (busy rs) eqn:Hb; [|done]. exfalso.
  destruct (inv_bound _ _ _ _ Hinv k rs Hk Hb) as (j & X & Hj & _ & _ & Hw & _).
  by apply (Hall X); [eapply list_elem_of_lookup_2|].
Qed.

Lemma finished_stations_idle_witness :
  Forall (λ rs, busy rs = false)
    (reservationStations
       (run 10 oddStart exampleConfig (p_labels oddProgram))).
Proof.
  apply (finished_stations_idle (p_instructions oddProgram) exampleConfig
           exampleRegs (p_labels oddProgram) 10).
  - apply (bool_decide_unpack _). vm_compute. reflexivity.
  - vm_compute. repeat constructor.
  - vm_compute. reflexivity.
Defined.

Lemma issue_single s k :
  issuedAt (instructions s) (instructions (issue s)) k →
  pc (issue s) = pc s + 4 ∧
  ∃ issueInst ea rsIndex freeRS,
    issues s k issueInst ea rsIndex freeRS ∧
    instructions (issue s) !! k =
      Some (set_issueCycle (Some (cycle s)) issueInst).
Proof.
  intros Hk.
  destruct (branchStall s) eqn:Hstall.
  { exfalso. rewrite issue_stalled in Hk by done.
    destruct Hk as (i' & Hi' & Hne & Hnone). by apply Hne, Hnone. }
  destruct (issue_cases s Hstall)
    as [Hn|(ik & issueInst & ea & rsIndex & freeRS & Hiss & Heq)].
  { exfalso. by eapply issuesNothing_not_issued. }
  pose proof Hiss as (_ & Hsel & _).
  apply selectIssueInst_lookup in Hsel as (Hik & _).
  rewrite Heq in Hk |- *. rewrite commitIssue_pc, commitIssue_instructions.
  rewrite commitIssue_instructions in Hk. simpl in *.
  destruct (decide (k = ik)) as [->|Hne].
  - split; [done|]. exists issueInst, ea, rsIndex, freeRS. split; [done|].
    apply list_lookup_insert_eq. by eapply lookup_lt_Some.
  - exfalso. apply (selectIssueInst_not_issued (instructions s) (pc s) k).
    destruct Hk as (i' & Hi' & Hnn & Hnone).
    rewrite list_lookup_insert_ne in Hi' by done.
    by exists i'.
Qed.

Lemma issue_single_index s k1 k2 :
  issuedAt (instructions s) (instructions (issue s)) k1 →
  issuedAt (instructions s) (instructions (issue s)) k2 → k1 = k2.
Proof.
  intros (_ & i1 & e1 & r1 & f1 & (_ & H1 & _) & _)%issue_single
         (_ & i2 & e2 & r2 & f2 & (_ & H2 & _) & _)%issue_single.
  congruence.
Qed.

(** X7.  Issue is in order and at most one instruction wide: if a step
    issues an instruction, it issues no other; the instruction issued is
    the one at the address the PC holds when the issue phase starts, its
    [issueCycle] is the cycle of the step, and the step leaves the PC four
    bytes further. *)
Theorem single_issue s config labels k :
  let st := beforeIssue s config labels in
  let s' := nextCycle s config labels in
  issuedAt (instructions s) (instructions s') k →
  (∀ k', issuedAt (instructions s) (instructions s') k' → k' = k) ∧
  (∃ i', instructions s' !! k = Some i' ∧ pcAddress i' = pc st ∧
         issueCycle i' = Some (cycle s')) ∧
  pc s' = pc st + 4.
Proof.
  intros st s' Hk. subst s'.
  destruct (isFinished s) eqn:Hf.
  { exfalso. unfold nextCycle in Hk. rewrite Hf in Hk.
    destruct Hk as (i' & Hi' & Hne & Hnone). by apply Hne, Hnone. }
  rewrite nextCycle_unfinished in * by done. fold st in Hk |- *.
  destruct (checkCompletion_frame (issue st)) as (Hc & Hp & Hi & _).
  rewrite Hc, Hp, Hi in *.
  assert (∀ k', issuedAt (instructions s) (instructions (issue st)) k' →
                issuedAt (instructions st) (instructions (issue st)) k') as Hext.
  { intros k'. apply issuedAt_ext. symmetry. apply beforeIssue_issueCycles. }
  split_and!.
  - intros k' Hk'. by apply (issue_single_index st); apply Hext.
  - destruct (issue_single st k (Hext k Hk))
      as (_ & issueInst & ea & rsIndex & freeRS & (_ & Hsel & _) & Hlook).
    apply selectIssueInst_lookup in Hsel as (_ & _ & Hpc).
    eexists. split; [exact Hlook|]. simpl. split; [done|].
    by destruct (issue_frame st) as (-> & _).
  - by destruct (issue_single st k (Hext k Hk)) as (-> & _).
Qed.

Lemma single_issue_witness :
  let st := beforeIssue sequentialStart exampleConfig (p_labels sequentialProgram) in
  let s' := nextCycle sequentialStart exampleConfig (p_labels sequentialProgram) in
  (∀ k', issuedAt (instructions sequentialStart) (instructions s') k' → k' = 0%nat) ∧
  (∃ i', instructions s' !! 0%nat = Some i' ∧ pcAddress i' = pc st ∧
         issueCycle i' = Some (cycle s')) ∧
  pc s' = pc st + 4.
Proof.
  apply (single_issue sequentialStart exampleConfig (p_labels sequentialProgram) 0).
  eexists. split; [vm_compute; reflexivity|]. split; [done|].
  intros i. vm_compute. by intros [= <-].
Defined.

Lemma run_finished n m s config labels :
  isFinished (run n s config labels) = true →
  run (m + n) s config labels = run n s config labels.
Proof.
  intros Hf. induction m as [|m IH]; simpl; [done|].
  rewrite IH. unfold nextCycle. by rewrite Hf.
Qed.

Lemma nextCycle_cycle s config labels :
  isFinished s = false → cycle (nextCycle s config labels) = cycle s + 1.
Proof.
  intros Hf. rewrite nextCycle_unfinished by done.
  destruct (checkCompletion_frame (issue (beforeIssue s config labels))) as (-> & _).
  destruct (issue_frame (beforeIssue s config labels)) as (-> & _).
  unfold beforeIssue.
  destruct (execute_frame config labels (writeResult (beginCycle s))) as (-> & _).
  by destruct (writeResult_frame (beginCycle s)) as (-> & _).
Qed.

(** X8.  The cycle counter counts the steps taken: as long as the state
    reached is not finished, [n] steps add [n] to the counter and the
    state was not finished before; once a state is finished, further steps
    return it unchanged. *)
Theorem cycle_counts_steps s config labels n :
  (isFinished (run n s config labels) = false →
     cycle (run n s config labels) = cycle s + Z.of_nat n ∧
     ∀ m, (m ≤ n)%nat → isFinished (run m s config labels) = false) ∧
  (isFinished (run n s config labels) = true →
     ∀ m, run (m + n) s config labels = run n s config labels).
Proof.
  split; [|intros Hf m; by apply run_finished].
  induction n as [|n IH]; intros Hf.
  - simpl. split; [lia|]. intros m Hm. by replace m with 0%nat by lia.
  - simpl in Hf |- *.
    destruct (isFinished (run n s config labels)) eqn:Hn.
    { unfold nextCycle in Hf. rewrite Hn in Hf. congruence. }
    destruct (IH eq_refl) as [Hc Hm].
    rewrite nextCycle_cycle by done. split; [lia|].
    intros m Hle. destruct (decide (m = S n)) as [->|]; [done|].
    apply Hm. lia.
Qed.

Lemma cycle_counts_steps_witness :
  cycle (run 3 sequentialStart exampleConfig (p_labels sequentialProgram))
  = cycle sequentialStart + Z.of_nat 3.
Proof.
  apply (cycle_counts_steps sequentialStart exampleConfig
           (p_labels sequentialProgram) 3).
  vm_compute. reflexivity.
Defined.

(** ** No tag dangles *)

Lemma captureOperands_tags t0 v rs t :
  qj (captureOperands t0 v rs) = Some t ∨ qk (captureOperands t0 v rs) = Some t →
  busy rs = true →
  (qj rs = Some t ∨ qk rs = Some t) ∧ t ≠ t0.
Proof.
  unfold captureOperands. intros H Hb. rewrite Hb in H.
  destruct (decide (qj rs = Some t0)) as [Hj|Hj]; simpl in H;
    (match type of H with context [decide ?P] =>
       destruct (decide P) as [Hk|Hk] end); simpl in *;
    destruct H as [H|H]; try done; (split; [by auto|]); congruence.
Qed.

Lemma captureOperands_fields t0 v rs :
  rs_id (captureOperands t0 v rs) = rs_id rs ∧
  busy (captureOperands t0 v rs) = busy rs ∧
  rs_op (captureOperands t0 v rs) = rs_op rs.
Proof.
  unfold captureOperands. destruct (busy rs) eqn:E; [|done].
  destruct (decide (qj rs = Some t0)); simpl;
    (match goal with |- context [decide ?P] => destruct (decide P) end); done.
Qed.

Lemma writeResult_tagsLive s : tagsLive s → tagsLive (writeResult s).
Proof.
  intros [Hregs Hsts]. unfold writeResult.
  destruct (list_find _ _) as [[p r]|] eqn:Hfind; [|done].
  apply list_find_Some in Hfind as (Hp & _ & _).
  set (t0 := rs_id r). set (v := default 0 (result r)).
  assert (∀ t, t ≠ t0 → producing s t →
            ∃ k rs o,
              alter clearStation p (captureOperands t0 v <$> reservationStations s)
                !! k = Some rs ∧ rs_id rs = t ∧ busy rs = true ∧
              rs_op rs = Some o ∧ retiresAtExecute (getOpType o) = false) as Hkeep.
  { intros t Hne (k & rs & o & Hk & Hid & Hb & Hop & Hret).
    assert (k ≠ p) as Hkp by (intros ->; subst t0; congruence).
    exists k, (captureOperands t0 v rs), o.
    destruct (captureOperands_fields t0 v rs) as (-> & -> & ->).
    split_and!; try done.
    by rewrite list_lookup_alter_ne, list_lookup_fmap, Hk. }
  split; unfold producing; simpl.
  - intros n r' t Hn Hq. fold t0 v in Hn.
    rewrite lookup_fmap in Hn.
    destruct (registers s !! n) as [r0|] eqn:Hr0; [|done].
    simpl in Hn. injection Hn as <-. unfold captureRegister in Hq.
    destruct (decide (qi r0 = Some t0)) as [|Hne]; [done|].
    apply Hkeep; [congruence|]. by eapply Hregs.
  - intros k rs t Hk Hb Hq. fold t0 v in Hk.
    destruct (decide (k = p)) as [->|Hne].
    { rewrite list_lookup_alter, list_lookup_fmap, Hp in Hk.
      destruct (decide (p = p)); [|done].
      simpl in Hk. injection Hk as <-. done. }
    rewrite list_lookup_alter_ne, list_lookup_fmap in Hk by done.
    destruct (reservationStations s !! k) as [r0|] eqn:Hr0; [|done].
    simpl in Hk. injection Hk as <-.
    destruct (captureOperands_fields t0 v r0) as (_ & Eb & _).
    rewrite Eb in Hb.
    destruct (captureOperands_tags t0 v r0 t Hq Hb) as [Hq0 Hne0].
    apply Hkeep; [done|]. by eapply Hsts.
Qed.

Section ExecuteTags.

Context (config : SystemConfig) (labels : gmap string Z).

(** An invariant of the visits is an invariant of the execute phase. *)
Lemma execute_invariant (Q : SimulationState → Prop) bi s :
  (∀ y k, cycle y = cycle s → engineInv bi (cycle y) (cycle y) y → Q y →
          Q (executeStation config labels y k)) →
  engineInv bi (cycle s) (cycle s) s → bi < cycle s → Q s →
  Q (execute config labels s).
Proof.
  intros Hstep Hinv Hlt HQ. unfold execute.
  cut (cycle (foldl (executeStation config labels) s
                (seq 0 (length (reservationStations s)))) = cycle s ∧
       engineInv bi (cycle s) (cycle s)
         (foldl (executeStation config labels) s
            (seq 0 (length (reservationStations s)))) ∧
       Q (foldl (executeStation config labels) s
            (seq 0 (length (reservationStations s))))); [by intros (_ & _ & ?)|].
  apply (foldl_invariant
           (λ y, cycle y = cycle s ∧ engineInv bi (cycle s) (cycle s) y ∧ Q y));
    [|done].
  intros y k (Hc & Hy & Hq).
  destruct (executeStation_visit config labels y k) as [Hc' _].
  split_and!.
  - congruence.
  - rewrite <- Hc. apply executeStation_inv; by rewrite Hc.
  - apply Hstep; [done|by rewrite Hc|done].
Qed.

Lemma executeStation_tagsLive bi be bw s k :
  engineInv bi be bw s → tagsLive s →
  tagsLive (executeStation config labels s k).
Proof.
  intros Hinv [Hregs Hsts].
  destruct (executeStation_shape config labels s k) as (_ & _ & Hr & _).
  destruct (executeStation_visit config labels s k) as [_ [->|Hv]]; [done|].
  destruct Hv as (rs & ik & inst & rs' & inst' & Hk & Hbusy & Hf & Hv & Hi & Hs).
  destruct (inv_bound _ _ _ _ Hinv k rs Hk Hbusy) as (j & X & Hj & HbX).
  pose proof HbX as (Hid & _ & _ & Hop & _).
  rewrite Hid, (findInst_bound _ j X (inv_ids _ _ _ _ Hinv) Hj) in Hf.
  injection Hf as <- <-.
  assert (∀ t, producing s t → producing (executeStation config labels s k) t)
    as Hkeep.
  { intros t (k' & rw & o & Hk' & Hidw & Hbw & Hopw & Hret).
    unfold producing. rewrite Hs.
    destruct (decide (k' = k)) as [->|Hne].
    - assert (rw = rs) as -> by congruence.
      exists k, rs', o.
      rewrite list_lookup_insert_eq by (by eapply lookup_lt_Some).
      destruct Hv as [t1|t1 He Hret1|t1 v He Hret1]; simpl.
      + done.
      + congruence.
      + done.
    - exists k', rw, o. by rewrite list_lookup_insert_ne. }
  split.
  - intros n r t Hn Hq. rewrite Hr in Hn. apply Hkeep. by eapply Hregs.
  - intros k' r' t Hk' Hb' Hq. rewrite Hs in Hk'. apply Hkeep.
    destruct (decide (k' = k)) as [->|Hne].
    + rewrite list_lookup_insert_eq in Hk' by (by eapply lookup_lt_Some).
      injection Hk' as <-. apply (Hsts k rs t Hk Hbusy).
      by destruct Hv as [t1|t1 He Hret1|t1 v He Hret1].
    + rewrite list_lookup_insert_ne in Hk' by done. by eapply Hsts.
Qed.

End ExecuteTags.

Lemma resolveOperand_tag regs b n t :
  (resolveOperand regs b n).2 = Some t →
  ∃ r, regs !! n = Some r ∧ qi r = Some t.
Proof.
  unfold resolveOperand. destruct (regs !! n) as [r|]; [|done].
  unfold tagOf. destruct (qi r) as [[|c q]|] eqn:Hq; simpl; try done.
  destruct (cdbHas b _); simpl; [done|]. intros [= <-]. by exists r.
Qed.

Lemma firstOperand_tag regs b o i t :
  (firstOperand regs b o i).2 = Some t → ∃ n r, regs !! n = Some r ∧ qi r = Some t.
Proof.
  unfold firstOperand. repeat case_match; try done;
    intros (? & ? & ?)%resolveOperand_tag; eauto.
Qed.

Lemma secondOperand_tag regs b o i t :
  (secondOperand regs b o i).2 = Some t → ∃ n r, regs !! n = Some r ∧ qi r = Some t.
Proof.
  unfold secondOperand. repeat case_match; try done;
    intros (? & ? & ?)%resolveOperand_tag; eauto.
Qed.

Lemma writesRegister_retires o :
  writesRegister o = true → retiresAtExecute o = false.
Proof. by destruct o. Qed.

Lemma issue_tagsLive s : tagsLive s → tagsLive (issue s).
Proof.
  intros Hlive.
  destruct (branchStall s) eqn:Hstall; [by rewrite issue_stalled|].
  destruct (issue_cases s Hstall)
    as [->|(ik & issueInst & ea & rsIndex & freeRS & Hiss & ->)]; [done|].
  destruct Hlive as [Hregs Hsts].
  destruct Hiss as (_ & _ & _ & Hfree).
  apply list_find_Some in Hfree as (Hrs & [Hty Hidle] & _).
  set (s1 := set_instructions (selectIssueInst (instructions s) (pc s)).1 s).
  assert (∀ t, producing s t →
               producing (commitIssue s1 ik issueInst ea rsIndex freeRS) t)
    as Hkeep.
  { intros t (k' & rw & o & Hk' & Hidw & Hbw & Hopw & Hret).
    unfold producing. rewrite commitIssue_stations.
    assert (k' ≠ rsIndex) by (intros ->; congruence).
    exists k', rw, o. by rewrite list_lookup_insert_ne. }
  split.
  - intros n r t Hn Hq. rewrite commitIssue_registers in Hn. simpl in Hn.
    unfold renameDest in Hn.
    destruct (writesRegister _) eqn:Hw; [|apply Hkeep; by eapply Hregs].
    destruct (registers s !! dest issueInst) as [rd|] eqn:Hd;
      [|apply Hkeep; by eapply Hregs].
    destruct (decide (n = dest issueInst)) as [->|Hne].
    + rewrite lookup_insert_eq in Hn. injection Hn as <-. simpl in Hq.
      injection Hq as <-.
      unfold producing. rewrite commitIssue_stations.
      eexists rsIndex, _, (op issueInst).
      rewrite list_lookup_insert_eq by (by eapply lookup_lt_Some).
      split_and!; try done. by apply writesRegister_retires.
    + rewrite lookup_insert_ne in Hn by done. apply Hkeep. by eapply Hregs.
  - intros k rs t Hk Hb Hq. rewrite commitIssue_stations in Hk.
    apply Hkeep. simpl in Hk.
    destruct (decide (k = rsIndex)) as [->|Hne].
    + rewrite list_lookup_insert_eq in Hk by (by eapply lookup_lt_Some).
      injection Hk as <-. simpl in Hq.
      destruct Hq as [(n & r & Hn & Hr)%firstOperand_tag
                     |(n & r & Hn & Hr)%secondOperand_tag]; by eapply Hregs.
    + rewrite list_lookup_insert_ne in Hk by done. by eapply Hsts.
Qed.

Lemma tagsLive_ext s s' :
  registers s' = registers s →
  reservationStations s' = reservationStations s →
  tagsLive s → tagsLive s'.
Proof.
  intros E1 E2 [H1 H2]. unfold tagsLive, producing. by rewrite E1, E2.
Qed.

Lemma nextCycle_tagsLive s config labels :
  wellFormed s → tagsLive s → tagsLive (nextCycle s config labels).
Proof.
  intros Hinv Hlive. unfold nextCycle.
  destruct (isFinished s); [done|].
  destruct (checkCompletion_frame (issue (beforeIssue s config labels)))
    as (_ & _ & _ & Hs & Hr & _).
  eapply tagsLive_ext; [exact Hr|exact Hs|].
  apply issue_tagsLive. unfold beforeIssue.
  set (s1 := beginCycle s).
  assert (engineInv (cycle s) (cycle s) (cycle s) s1) as H1
    by (by eapply engineInv_ext; [| |exact Hinv]).
  assert (cycle s1 = cycle s + 1) as Hc1 by done.
  apply writeResult_inv in H1; [|lia..].
  destruct (writeResult_frame s1) as (Hcw & _).
  apply (execute_invariant config labels tagsLive (cycle s)).
  - intros y k _ Hy. by apply (executeStation_tagsLive _ _ _ _ _ y k Hy).
  - rewrite Hcw. eapply engineInv_mono; [| | |exact H1]; lia.
  - lia.
  - apply writeResult_tagsLive. by eapply tagsLive_ext; [| |exact Hlive].
Qed.

Lemma initializeState_tagsLive insts config regs :
  tagsLive (initializeState insts config regs).
Proof.
  split; simpl.
  - intros n r t Hn Hq. rewrite map_lookup_imap in Hn.
    destruct (regs !! n); simpl in Hn; [|done]. by injection Hn as <-.
  - intros k rs t Hk%list_elem_of_lookup_2 Hb. unfold initialStations in Hk.
    apply list_elem_of_In, in_flat_map in Hk as (ty & _ & Hin).
    apply list_elem_of_In, list_elem_of_fmap in Hin as (i & -> & _). done.
Qed.

Lemma run_tagsLive n s config labels :
  wellFormed s → tagsLive s → tagsLive (run n s config labels).
Proof.
  intros Hs Hl. induction n as [|n IH]; simpl; [done|].
  apply nextCycle_tagsLive; [by apply run_wellFormed|done].
Qed.



(** X10.  When a run is finished no register waits for a result: every
    [qi] is null. *)
Theorem finished_registers_ready insts config regs labels n :
  NoDup (inst_id <$> insts) → Forall unstamped insts →
  let s := run n (initializeState insts config regs) config labels in
  isFinished s = true →
  ∀ x r, registers s !! x = Some r → qi r = None.
Proof.
  intros Hnd Hun s Hf x r Hx.
  destruct (qi r) as [t|] eqn:Hq; [|done]. exfalso.
  assert (wellFormed s) as Hinv
    by (by apply run_wellFormed, initializeState_wellFormed).
  assert (tagsLive s) as [Hregs _].
  { apply run_tagsLive; [by apply initializeState_wellFormed|].
    apply initializeState_tagsLive. }
  destruct (Hregs x r t Hx Hq) as (k & rs & o & Hk & _ & Hb & _).
  destruct (run_completed insts config regs labels n Hf) as [Hall _].
  destruct (inv_bound _ _ _ _ Hinv k rs Hk Hb) as (j & X & Hj & _ & _ & Hw & _).
  by apply (Hall X); [eapply list_elem_of_lookup_2|].
Qed.

(** The racing program is finished after eight cycles; [F6], renamed to
    [A1] at issue of the add, holds its result. *)
Lemma finished_registers_ready_witness :
  let s := run 8 (initializeState (p_instructions racingProgram) racingConfig
                    racingRegs) racingConfig (p_labels racingProgram) in
  let r := {| name := "F6"; value := 10; qi := None |} in
  registers s !! "F6" = Some r ∧ qi r = None.
Proof.
  assert (registers
            (run 8 (initializeState (p_instructions racingProgram) racingConfig
                      racingRegs) racingConfig (p_labels racingProgram))
            !! "F6" = Some {| name := "F6"; value := 10; qi := None |}) as Hr
    by (vm_compute; reflexivity).
  split; [exact Hr|].
  apply (finished_registers_ready (p_instructions racingProgram) racingConfig
           racingRegs (p_labels racingProgram) 8) with (x := "F6").
  - apply (bool_decide_unpack _). vm_compute. reflexivity.
  - vm_compute. repeat constructor.
  - vm_compute. reflexivity.
  - exact Hr.
Defined.

(** ** What a step does to the rest of the state *)

Lemma instancesOf_refl l : instancesOf l l.
Proof. intros i Hi. by exists i. Qed.

Lemma instancesOf_trans l1 l2 l3 :
  instancesOf l1 l2 → instancesOf l2 l3 → instancesOf l1 l3.
Proof.
  intros H1 H2 i3 Hi3.
  destruct (H2 i3 Hi3) as (i2 & Hi2 & E2).
  destruct (H1 i2 Hi2) as (i1 & Hi1 & E1).
  exists i1. split; [done|congruence].
Qed.

Lemma instancesOf_insert l k x y :
  l !! k = Some x → staticFields y = staticFields x →
  instancesOf l (<[k := y]> l).
Proof.
  intros Hk He i' (j & Hj)%list_elem_of_lookup_1.
  destruct (decide (j = k)) as [->|Hne].
  - rewrite list_lookup_insert_eq in Hj by (by eapply lookup_lt_Some).
    injection Hj as <-. exists x. split; [by eapply list_elem_of_lookup_2|done].
  - rewrite list_lookup_insert_ne in Hj by done.
    exists i'. split; [by eapply list_elem_of_lookup_2|done].
Qed.

Lemma writeResult_instancesOf s :
  instancesOf (instructions s) (instructions (writeResult s)).
Proof.
  unfold writeResult.
  destruct (list_find _ _) as [[p r]|]; [|apply instancesOf_refl]. simpl.
  destruct (findInst _ _) as [[ik inst]|] eqn:Hf; [|apply instancesOf_refl].
  apply findInst_lookup in Hf. by apply (instancesOf_insert _ _ inst).
Qed.

Lemma visitOutcome_static c rs X rs' X' :
  visitOutcome c rs X rs' X' → staticFields X' = staticFields X.
Proof.
  intros Hv.
  assert (staticFields (stampStart c X) = staticFields X) as Hs
    by (unfold stampStart; by destruct (execStartCycle X)).
  by destruct Hv.
Qed.

Lemma executeStation_instancesOf config labels s k :
  instancesOf (instructions s) (instructions (executeStation config labels s k)).
Proof.
  destruct (executeStation_visit config labels s k) as [_ [->|Hv]];
    [apply instancesOf_refl|].
  destruct Hv as (rs & ik & inst & rs' & inst' & _ & _ & Hf & Hv & -> & _).
  apply findInst_lookup in Hf.
  apply (instancesOf_insert _ _ inst); [done|]. by eapply visitOutcome_static.
Qed.

Lemma execute_instancesOf config labels s :
  instancesOf (instructions s) (instructions (execute config labels s)).
Proof.
  unfold execute.
  apply (foldl_invariant (λ y, instancesOf (instructions s) (instructions y)));
    [|apply instancesOf_refl].
  intros y k Hy. eapply instancesOf_trans; [exact Hy|].
  apply executeStation_instancesOf.
Qed.

Lemma selectIssueInst_instancesOf insts pc :
  instancesOf insts (selectIssueInst insts pc).1.
Proof.
  destruct (selectIssueInst_cases insts pc)
    as [(k & i & _ & ->)|[(_ & k & tpl & Htpl & ->)|(_ & ->)]]; simpl;
    try apply instancesOf_refl.
  apply list_find_Some in Htpl as (Hk & _).
  intros i' [Hi'|Hi']%elem_of_app; [by exists i'|].
  apply list_elem_of_singleton in Hi' as ->.
  exists tpl. split; [by eapply list_elem_of_lookup_2|done].
Qed.

Lemma issue_instancesOf s :
  instancesOf (instructions s) (instructions (issue s)).
Proof.
  destruct (branchStall s) eqn:Hstall;
    [rewrite issue_stalled by done; apply instancesOf_refl|].
  destruct (issue_cases s Hstall)
    as [->|(ik & issueInst & ea & rsIndex & freeRS & Hiss & ->)];
    [apply selectIssueInst_instancesOf|].
  destruct Hiss as (_ & Hs & _).
  apply selectIssueInst_lookup in Hs as (Hik & _).
  rewrite commitIssue_instructions. simpl.
  eapply instancesOf_trans; [apply selectIssueInst_instancesOf|].
  by apply (instancesOf_insert _ _ issueInst).
Qed.

Lemma nextCycle_instancesOf s config labels :
  instancesOf (instructions s) (instructions (nextCycle s config labels)).
Proof.
  unfold nextCycle. destruct (isFinished s); [apply instancesOf_refl|].
  destruct (checkCompletion_frame (issue (beforeIssue s config labels)))
    as (_ & _ & -> & _).
  eapply instancesOf_trans; [|apply issue_instancesOf].
  eapply instancesOf_trans; [|apply execute_instancesOf].
  apply (writeResult_instancesOf (beginCycle s)).
Qed.

Lemma run_instancesOf insts config regs labels n :
  instancesOf insts
    (instructions (run n (initializeState insts config regs) config labels)).
Proof.
  induction n as [|n IH]; simpl; [apply instancesOf_refl|].
  eapply instancesOf_trans; [exact IH|apply nextCycle_instancesOf].
Qed.

(** X11.  Every dynamic instruction of a run is an instance of an
    instruction of the program the run started from: same text, opcode,
    operands, immediate and address. *)
Theorem instances_of_program insts config regs labels n :
  instancesOf insts
    (instructions (run n (initializeState insts config regs) config labels)).
Proof. apply run_instancesOf. Qed.

Section Effects.

Context (config : SystemConfig) (labels : gmap string Z).

Lemma startExecution_effects rs inst s :
  let r := startExecution config rs inst s in
  memory r.2 = memory s ∧ (∃ l, log r.2 = log s ++ l) ∧
  (cache r.2 = cache s ∨
   cache r.2 =
     newCache (accessCache (default 0 (a rs)) config (cache s) (cycle s))).
Proof.
  unfold startExecution. destruct (execStartCycle inst).
  { simpl. split; [done|]. split; [|by left]. exists []. by rewrite app_nil_r. }
  cbn zeta. destruct (decide _) as [_|_]; [destruct (decide _) as [_|_]|]; simpl.
  - split; [by destruct (hit _)|]. split.
    + destruct (hit _); simpl; [exists []; by rewrite app_nil_r|by eexists].
    + right. by destruct (hit _).
  - split; [done|]. split; [|by left]. exists []. by rewrite app_nil_r.
  - split; [done|]. split; [|by left]. exists []. by rewrite app_nil_r.
Qed.

Lemma finishExecution_effects rs inst s :
  let r := finishExecution labels rs inst s in
  cache r.2 = cache s ∧ (∃ l, log r.2 = log s ++ l) ∧
  (memory r.2 = memory s ∨
   getOpType (op inst) = OpType.STORE ∧
   memory r.2 = <[default 0 (a rs) := default 0 (vk rs)]> (memory s)).
Proof.
  assert (∃ l, log s = log s ++ l) as Hnil by (exists []; by rewrite app_nil_r).
  unfold finishExecution. destruct (decide _) as [_|_]; [|by split_and!; [| |left]].
  cbn zeta. change (op (set_execEndCycle (Some (cycle s)) inst)) with (op inst).
  destruct (getOpType (op inst)) eqn:Eop; simpl;
    try (by split_and!; [| |left]).
  - split_and!; [done|done|by right].
  - destruct (branchTaken _ _ _); [destruct (labels !! _)|]; simpl;
      split_and!; try done; try (by left). by eexists.
Qed.

Lemma executeStation_effects s k :
  let s' := executeStation config labels s k in
  (∃ l, log s' = log s ++ l) ∧
  (cache s' = cache s ∨
   ∃ addr, cache s' = newCache (accessCache addr config (cache s) (cycle s))) ∧
  (memory s' = memory s ∨
   ∃ x v i, i ∈ instructions s ∧ getOpType (op i) = OpType.STORE ∧
            memory s' = <[x := v]> (memory s)).
Proof.
  assert (∃ l, log s = log s ++ l) as Hnil by (exists []; by rewrite app_nil_r).
  unfold executeStation.
  destruct (reservationStations s !! k) as [rs|] eqn:Hk; [|by split_and!; auto].
  destruct (busy rs) eqn:Hbusy; simpl; [|by split_and!; auto].
  destruct (decide _) as [[Hj Hq]|]; [|by split_and!; auto].
  destruct (findInst _ _) as [[ik inst]|] eqn:Hf; [|by split_and!; auto].
  pose proof (startExecution_effects rs inst s) as Hst.
  pose proof (startExecution_stamp config rs inst s) as (t0 & cch & lg0 & Est).
  rewrite Est in Hst |- *. cbn zeta in Hst. simpl in Hst.
  destruct Hst as (_ & (l1 & Hl1) & Hc1).
  match goal with |- context [finishExecution _ ?r ?i ?st] =>
    pose proof (finishExecution_effects r i st) as Hfin;
    destruct (finishExecution labels r i st) as [[rs2 inst2] s2] end.
  cbn zeta in Hfin. simpl in Hfin. destruct Hfin as (Hc2 & (l2 & Hl2) & Hm2).
  simpl. split_and!.
  - exists (l1 ++ l2). by rewrite Hl2, Hl1, app_assoc.
  - rewrite Hc2. destruct Hc1 as [->| ->]; [by left|right; by eexists].
  - destruct Hm2 as [->|[Hop ->]]; [by left|right].
    eexists _, _, inst. split; [|split; [|done]].
    + apply findInst_lookup in Hf. by eapply list_elem_of_lookup_2.
    + by destruct (stampStart_fields (cycle s) inst) as (_ & <- & _).
Qed.

End Effects.

Lemma checkCompletion_effects s :
  memory (checkCompletion s) = memory s ∧ cache (checkCompletion s) = cache s ∧
  ∃ l, log (checkCompletion s) = log s ++ l.
Proof.
  unfold checkCompletion. destruct (_ && _); simpl.
  - split_and!; [done..|by eexists].
  - split_and!; [done..|]. exists []. by rewrite app_nil_r.
Qed.

Lemma writeResult_log s : ∃ l, log (writeResult s) = log s ++ l.
Proof.
  unfold writeResult. destruct (list_find _ _) as [[p r]|]; simpl.
  - by eexists.
  - exists []. by rewrite app_nil_r.
Qed.

Lemma execute_log config labels s :
  ∃ l, log (execute config labels s) = log s ++ l.
Proof.
  unfold execute.
  apply (foldl_invariant (λ y, ∃ l, log y = log s ++ l)).
  - intros y k (l & Hl).
    destruct (executeStation_effects config labels y k) as ((l' & Hl') & _).
    exists (l ++ l'). by rewrite Hl', Hl, app_assoc.
  - exists []. by rewrite app_nil_r.
Qed.

(** X12.  The event log is append-only: the log of a state is a prefix of
    the log of every later state of the run. *)
Theorem log_append_only s config labels n :
  log s `prefix_of` log (run n s config labels).
Proof.
  induction n as [|n IH]; simpl; [done|].
  etrans; [exact IH|]. unfold nextCycle.
  destruct (isFinished _); [done|].
  destruct (checkCompletion_effects
              (issue (beforeIssue (run n s config labels) config labels)))
    as (_ & _ & l4 & ->).
  destruct (issue_frame (beforeIssue (run n s config labels) config labels))
    as (_ & _ & _ & _ & -> & _).
  unfold beforeIssue.
  destruct (execute_log config labels
              (writeResult (beginCycle (run n s config labels)))) as (l2 & ->).
  destruct (writeResult_log (beginCycle (run n s config labels))) as (l1 & ->).
  simpl. rewrite <- !app_assoc. by eexists.
Qed.

Lemma execute_memory config labels s :
  (∀ i, i ∈ instructions s → getOpType (op i) ≠ OpType.STORE) →
  memory (execute config labels s) = memory s.
Proof.
  intros Hno. unfold execute.
  cut (instancesOf (instructions s)
         (instructions (foldl (executeStation config labels) s
                          (seq 0 (length (reservationStations s))))) ∧
       memory (foldl (executeStation config labels) s
                 (seq 0 (length (reservationStations s)))) = memory s);
    [by intros []|].
  apply (foldl_invariant
           (λ y, instancesOf (instructions s) (instructions y) ∧
                 memory y = memory s)); [|split; [apply instancesOf_refl|done]].
  intros y k [Hy Hm]. split.
  - eapply instancesOf_trans; [exact Hy|apply executeStation_instancesOf].
  - destruct (executeStation_effects config labels y k)
      as (_ & _ & [->|(x & v & i & Hi & Hop & _)]); [done|].
    exfalso. destruct (Hy i Hi) as (i0 & Hi0 & E).
    apply (Hno i0 Hi0). unfold staticFields in E. congruence.
Qed.

Lemma nextCycle_memory s config labels :
  (∀ i, i ∈ instructions s → getOpType (op i) ≠ OpType.STORE) →
  memory (nextCycle s config labels) = memory s.
Proof.
  intros Hno. unfold nextCycle. destruct (isFinished s); [done|].
  destruct (checkCompletion_effects (issue (beforeIssue s config labels)))
    as (-> & _).
  destruct (issue_frame (beforeIssue s config labels)) as (_ & _ & -> & _).
  unfold beforeIssue. rewrite execute_memory.
  - by destruct (writeResult_frame (beginCycle s)) as (_ & _ & -> & _).
  - intros i Hi.
    destruct (writeResult_instancesOf (beginCycle s) i Hi) as (i0 & Hi0 & E).
    specialize (Hno i0 Hi0). unfold staticFields in E. congruence.
Qed.

(** X13.  Memory is written by STORE instructions only: a run of a
    program without a STORE leaves the memory as [initializeState] made
    it, empty. *)
Theorem memory_written_by_stores_only insts config regs labels n :
  Forall (λ i, getOpType (op i) ≠ OpType.STORE) insts →
  memory (run n (initializeState insts config regs) config labels) = ∅.
Proof.
  intros Hno. induction n as [|n IH]; simpl; [done|].
  rewrite nextCycle_memory; [done|].
  intros i Hi.
  destruct (run_instancesOf insts config regs labels n i Hi)
    as (i0 & Hi0 & E).
  pose proof (proj1 (Forall_forall _ _) Hno i0 Hi0) as H0.
  unfold staticFields in E. congruence.
Qed.

Lemma memory_written_by_stores_only_witness :
  memory (run 8 (initializeState (p_instructions racingProgram) racingConfig
                   racingRegs) racingConfig (p_labels racingProgram)) = ∅.
Proof.
  apply (memory_written_by_stores_only (p_instructions racingProgram)
           racingConfig racingRegs (p_labels racingProgram) 8).
  apply (bool_decide_unpack _). vm_compute. reflexivity.
Defined.

(** ** The cache along a run *)

Lemma accessCache_tags addr config cache cycle :
  NoDup (tag <$> cache) →
  NoDup (tag <$> newCache (accessCache addr config cache cycle)).
Proof.
  intros Hnd. unfold accessCache.
  destruct (enabled (cacheConfig config)); simpl; [|done].
  destruct (list_find _ _) as [[i b]|] eqn:Hf; simpl.
  - apply list_find_Some in Hf as (Hi & _).
    by erewrite fmap_insert_same.
  - assert (addr / blockSize (cacheConfig config) ∉ tag <$> cache) as Hnew.
    { intros (b & Hb & Hin)%list_elem_of_fmap.
      eapply list_find_None in Hf. rewrite Forall_forall in Hf.
      by apply (Hf b Hin). }
    destruct (belowMaxBlocks _ _).
    + rewrite fmap_app. apply NoDup_app. split; [done|]. split.
      * intros x Hx ->%list_elem_of_singleton. done.
      * apply NoDup_singleton.
    + assert (NoDup (tag <$> sortByLastAccess cache)) as Hs
        by (by rewrite sortByLastAccess_perm).
      assert (addr / blockSize (cacheConfig config)
                ∉ tag <$> sortByLastAccess cache) as Hn
        by (by rewrite sortByLastAccess_perm).
      destruct (sortByLastAccess cache) as [|v rest]; simpl in *.
      * apply NoDup_singleton.
      * apply NoDup_cons in Hs as [_ Hs]. apply not_elem_of_cons in Hn as [_ Hn].
        by apply NoDup_cons.
Qed.

Lemma accessCache_capacity addr config cache cycle k :
  0 < blockSize (cacheConfig config) → 1 ≤ k →
  cacheSize (cacheConfig config) = k * blockSize (cacheConfig config) →
  Z.of_nat (length cache) ≤ k →
  Z.of_nat (length (newCache (accessCache addr config cache cycle))) ≤ k.
Proof.
  intros Hb Hk Hsz Hlen.
  pose proof (accessCache_length addr config cache cycle) as Hl.
  cbn zeta in Hl. rewrite Hl.
  destruct (hit _); [done|].
  destruct (belowMaxBlocks _ _) eqn:Hbelow.
  - apply (belowMaxBlocks_multiple _ _ k) in Hbelow; [lia|done..].
  - lia.
Qed.

Lemma accessCache_present addr config cache cycle :
  enabled (cacheConfig config) = true →
  ∃ b, b ∈ newCache (accessCache addr config cache cycle) ∧
       tag b = addr / blockSize (cacheConfig config).
Proof.
  intros Hen. unfold accessCache. rewrite Hen. simpl.
  destruct (list_find _ _) as [[i b]|] eqn:Hf; simpl.
  - apply list_find_Some in Hf as (Hi & Ht & _).
    exists (touch cycle b). split; [|done].
    eapply list_elem_of_lookup_2, list_lookup_insert_eq. by eapply lookup_lt_Some.
  - exists (newBlock (addr / blockSize (cacheConfig config)) cycle).
    split; [|reflexivity]. unfold newBlock.
    destruct (belowMaxBlocks _ _).
    + apply elem_of_app. right. by apply list_elem_of_singleton.
    + destruct (sortByLastAccess cache); apply elem_of_cons; by left.
Qed.

(** X14.  A block that has just been accessed is in the cache: after any
    access with the cache enabled, an access to an address of the same
    block is a hit without penalty. *)
Theorem second_access_hits addr addr' config cache c c' :
  enabled (cacheConfig config) = true →
  blockSize (cacheConfig config) ≠ 0 →
  addr' / blockSize (cacheConfig config) = addr / blockSize (cacheConfig config) →
  let r := accessCache addr' config
             (newCache (accessCache addr config cache c)) c' in
  hit r = true ∧ penalty r = 0.
Proof.
  intros Hen _ Hblk r. subst r.
  destruct (accessCache_present addr config cache c Hen) as (b & Hb & Ht).
  unfold accessCache at 1 3. rewrite Hen. simpl.
  destruct (list_find _ (newCache _)) as [[i b']|] eqn:Hf; [done|].
  exfalso. eapply list_find_None in Hf. rewrite Forall_forall in Hf.
  apply (Hf b Hb). congruence.
Qed.

Lemma second_access_hits_witness :
  let r := accessCache 9 exampleConfig
             (newCache (accessCache 8 exampleConfig [newBlock 0 1] 2)) 3 in
  hit r = true ∧ penalty r = 0.
Proof.
  apply (second_access_hits 8 9 exampleConfig [newBlock 0 1] 2 3); by vm_compute.
Defined.

Section CacheRun.

Context (config : SystemConfig) (labels : gmap string Z).
Context (P : list CacheBlock → Prop).
Hypothesis P_access :
  ∀ addr cache c, P cache → P (newCache (accessCache addr config cache c)).

Lemma nextCycle_cache s : P (cache s) → P (cache (nextCycle s config labels)).
Proof.
  intros HP. unfold nextCycle. destruct (isFinished s); [done|].
  destruct (checkCompletion_effects (issue (beforeIssue s config labels)))
    as (_ & -> & _).
  destruct (issue_frame (beforeIssue s config labels)) as (_ & _ & _ & -> & _).
  unfold beforeIssue, execute.
  apply (foldl_invariant (λ y, P (cache y))).
  - intros y k Hy.
    destruct (executeStation_effects config labels y k)
      as (_ & [->|(addr & ->)] & _); [done|by apply P_access].
  - by destruct (writeResult_frame (beginCycle s)) as (_ & _ & _ & -> & _).
Qed.

Lemma run_cache n s : P (cache s) → P (cache (run n s config labels)).
Proof.
  intros HP. induction n as [|n IH]; simpl; [done|]. by apply nextCycle_cache.
Qed.

End CacheRun.

(** X15.  Along a run the cache never holds two blocks with the same tag,
    and, when the cache size is a positive multiple of the block size, it
    never holds more blocks than their quotient. *)
Theorem cache_along_run insts config regs labels n k :
  0 < blockSize (cacheConfig config) → 1 ≤ k →
  cacheSize (cacheConfig config) = k * blockSize (cacheConfig config) →
  let s := run n (initializeState insts config regs) config labels in
  NoDup (tag <$> cache s) ∧ Z.of_nat (length (cache s)) ≤ k.
Proof.
  intros Hb Hk Hsz s. subst s.
  apply (run_cache config labels
           (λ c, NoDup (tag <$> c) ∧ Z.of_nat (length c) ≤ k)).
  - intros addr cache c [H1 H2]. split.
    + by apply accessCache_tags.
    + by apply accessCache_capacity.
  - simpl. split; [apply NoDup_nil_2|lia].
Qed.

Lemma cache_along_run_witness :
  let s := run 12 sequentialStart exampleConfig (p_labels sequentialProgram) in
  NoDup (tag <$> cache s) ∧ Z.of_nat (length (cache s)) ≤ 4.
Proof.
  apply (cache_along_run (p_instructions sequentialProgram) exampleConfig
           exampleRegs (p_labels sequentialProgram) 12 4); by vm_compute.
Defined.

(** ** The register file along a step *)

Lemma issue_register_values s x r' :
  registers (issue s) !! x = Some r' →
  ∃ r, registers s !! x = Some r ∧ value r' = value r ∧ name r' = name r.
Proof.
  intros Hx.
  destruct (branchStall s) eqn:Hstall;
    [rewrite issue_stalled in Hx by done; by exists r'|].
  destruct (issue_cases s Hstall)
    as [Hn|(ik & issueInst & ea & rsIndex & freeRS & _ & Heq)].
  { rewrite Hn in Hx. by exists r'. }
  rewrite Heq, commitIssue_registers in Hx. simpl in Hx.
  unfold renameDest in Hx.
  destruct (writesRegister _); [|by exists r'].
  destruct (registers s !! dest issueInst) as [rd|] eqn:Hd; [|by exists r'].
  destruct (decide (x = dest issueInst)) as [->|Hne].
  - rewrite lookup_insert_eq in Hx. injection Hx as <-. by exists rd.
  - rewrite lookup_insert_ne in Hx by done. by exists r'.
Qed.

Lemma writeResult_register_values s x r' :
  registers (writeResult s) !! x = Some r' →
  ∃ r, registers s !! x = Some r ∧ name r' = name r ∧
       (value r' = value r ∨
        ∃ c, cdb (writeResult s) = Some c ∧ qi r = Some (cdb_tag c) ∧
             value r' = cdb_value c ∧ qi r' = None).
Proof.
  unfold writeResult.
  destruct (list_find _ _) as [[p pr]|]; simpl; [|intros; exists r'; auto].
  rewrite lookup_fmap.
  destruct (registers s !! x) as [r|]; simpl; [|done].
  intros [= <-]. exists r. split; [done|]. unfold captureRegister.
  destruct (decide _) as [Hq|]; simpl; [|by split; [|left]].
  split; [done|]. right. by eexists.
Qed.

(** X16.  Register values are written by the CDB only: if a step changes
    the value of a register, the register carried the tag that the step
    broadcast on the CDB, and its new value is the value broadcast.  A
    step never changes the name of a register. *)
Theorem register_written_by_cdb s config labels x r' :
  let s' := nextCycle s config labels in
  registers s' !! x = Some r' →
  ∃ r, registers s !! x = Some r ∧ name r' = name r ∧
       (value r' = value r ∨
        ∃ c, cdb s' = Some c ∧ qi r = Some (cdb_tag c) ∧
             value r' = cdb_value c).
Proof.
  intros s'. subst s'. unfold nextCycle.
  destruct (isFinished s); [intros; exists r'; auto|].
  destruct (checkCompletion_frame (issue (beforeIssue s config labels)))
    as (_ & _ & _ & _ & -> & -> & _).
  destruct (issue_frame (beforeIssue s config labels)) as (_ & -> & _).
  intros (r1 & Hr1 & Hv1 & Hn1)%issue_register_values.
  unfold beforeIssue in *.
  destruct (execute_frame config labels (writeResult (beginCycle s)))
    as (_ & Hc & Hr & _).
  rewrite Hc. rewrite Hr in Hr1.
  apply writeResult_register_values in Hr1 as (r & Hx & Hn & Hv).
  exists r. split; [done|]. split; [congruence|].
  destruct Hv as [Hv|(c & Hc' & Hq & Hv & _)]; [left; congruence|].
  right. exists c. split_and!; [done|done|congruence].
Qed.

(** In cycle 5 of the racing program station [A1] broadcasts 10 for
    [F6]. *)
Lemma register_written_by_cdb_witness :
  let s' := nextCycle racingState racingConfig (p_labels racingProgram) in
  let r' := {| name := "F6"; value := 10; qi := None |} in
  ∃ r, registers racingState !! "F6" = Some r ∧ name r' = name r ∧
       (value r' = value r ∨
        ∃ c, cdb s' = Some c ∧ qi r = Some (cdb_tag c) ∧
             value r' = cdb_value c).
Proof.
  apply (register_written_by_cdb racingState racingConfig
           (p_labels racingProgram) "F6").
  vm_compute. reflexivity.
Defined.

(** ** The station array along a run *)

Lemma rs_id_inj ty ty' i j :
  rs_id (freshStation ty i) = rs_id (freshStation ty' j) → ty = ty' ∧ i = j.
Proof.
  simpl. intros H.
  assert (ty = ty' ∧ pretty (Z.of_nat i + 1) = pretty (Z.of_nat j + 1)) as [-> Hp]
    by (destruct ty, ty'; simpl in H; injection H; done).
  split; [done|]. apply (inj pretty) in Hp. lia.
Qed.

Lemma initialStations_ids n tys :
  NoDup tys →
  NoDup (rs_id <$> flat_map (λ ty, freshStation ty <$> seq 0 (n ty)) tys).
Proof.
  induction tys as [|ty tys IH]; intros Hnd; simpl; [apply NoDup_nil_2|].
  apply NoDup_cons in Hnd as [Hty Hnd].
  rewrite fmap_app. apply NoDup_app. split_and!.
  - rewrite <- list_fmap_compose. apply NoDup_fmap_2_strong; [|apply NoDup_seq].
    intros i j _ _ H. by apply rs_id_inj in H as [_ ->].
  - intros x (r & -> & (i & -> & _)%list_elem_of_fmap)%list_elem_of_fmap
             (r' & Hr' & Hin)%list_elem_of_fmap.
    apply list_elem_of_In, in_flat_map in Hin as (ty' & Hty' & Hin).
    apply list_elem_of_In, list_elem_of_fmap in Hin as (j & -> & _).
    apply rs_id_inj in Hr' as [-> _]. by apply Hty, list_elem_of_In.
  - by apply IH.
Qed.

Lemma writeResult_names s :
  stationName <$> reservationStations (writeResult s)
  = stationName <$> reservationStations s.
Proof.
  unfold writeResult. destruct (list_find _ _) as [[p r]|]; [|done]. simpl.
  apply list_eq. intros k. rewrite !list_lookup_fmap.
  destruct (decide (k = p)) as [->|Hne].
  - rewrite list_lookup_alter, list_lookup_fmap.
    destruct (decide (p = p)); [|done].
    destruct (reservationStations s !! p) as [r0|]; [|done]. simpl.
    unfold captureOperands.
    destruct (busy r0); [|done].
    destruct (decide (qj r0 = _)); simpl;
      (match goal with |- context [decide ?P] => destruct (decide P) end); done.
  - rewrite list_lookup_alter_ne, list_lookup_fmap by done.
    destruct (reservationStations s !! k) as [r0|]; [|done]. simpl.
    unfold captureOperands.
    destruct (busy r0); [|done].
    destruct (decide (qj r0 = _)); simpl;
      (match goal with |- context [decide ?P] => destruct (decide P) end); done.
Qed.

Lemma executeStation_names config labels s k :
  stationName <$> reservationStations (executeStation config labels s k)
  = stationName <$> reservationStations s.
Proof.
  destruct (executeStation_visit config labels s k) as [_ [->|Hv]]; [done|].
  destruct Hv as (rs & ik & inst & rs' & inst' & Hk & _ & _ & Hv & _ & ->).
  apply (fmap_insert_same _ _ _ rs); [done|]. by destruct Hv.
Qed.

Lemma issue_names s :
  stationName <$> reservationStations (issue s)
  = stationName <$> reservationStations s.
Proof.
  destruct (branchStall s) eqn:Hstall; [by rewrite issue_stalled|].
  destruct (issue_cases s Hstall)
    as [->|(ik & issueInst & ea & rsIndex & freeRS & Hiss & ->)]; [done|].
  destruct Hiss as (_ & _ & _ & Hfree).
  apply list_find_Some in Hfree as (Hrs & _).
  rewrite commitIssue_stations. simpl.
  by apply (fmap_insert_same _ _ _ freeRS).
Qed.

Lemma nextCycle_names s config labels :
  stationName <$> reservationStations (nextCycle s config labels)
  = stationName <$> reservationStations s.
Proof.
  unfold nextCycle. destruct (isFinished s); [done|].
  destruct (checkCompletion_frame (issue (beforeIssue s config labels)))
    as (_ & _ & _ & -> & _).
  rewrite issue_names. unfold beforeIssue, execute.
  rewrite (foldl_preserved _ (λ y, stationName <$> reservationStations y)).
  - apply (writeResult_names (beginCycle s)).
  - intros y k. apply executeStation_names.
Qed.

(** X17.  The reservation-station array is fixed by [initializeState]:
    along a run every station keeps its name and its class, and the names
    (the tags broadcast on the CDB) are pairwise distinct. *)
Theorem station_names_fixed insts config regs labels n :
  let s := run n (initializeState insts config regs) config labels in
  stationName <$> reservationStations s
  = stationName <$> initialStations config ∧
  NoDup (rs_id <$> reservationStations s).
Proof.
  intros s.
  assert (stationName <$> reservationStations s
          = stationName <$> initialStations config) as Hn.
  { subst s. induction n as [|n IH]; simpl; [done|].
    by rewrite nextCycle_names. }
  split; [done|].
  assert (rs_id <$> reservationStations s = rs_id <$> initialStations config)
    as ->.
  { change rs_id with (fst ∘ stationName).
    by rewrite !(list_fmap_compose stationName fst), Hn. }
  apply initialStations_ids. by apply (bool_decide_unpack _).
Qed.

(** ** The parser: labels and opcodes *)

Lemma firstPass_labels ls acc :
  fp_pcCounter acc = 4 * Z.of_nat (length (fp_cleanLines acc)) →
  map_Forall (λ _ a, ∃ k, a = 4 * Z.of_nat k ∧
                          (k ≤ length (fp_cleanLines acc))%nat) (fp_labels acc) →
  let fp := foldl firstPassLine acc ls in
  fp_pcCounter fp = 4 * Z.of_nat (length (fp_cleanLines fp)) ∧
  map_Forall (λ _ a, ∃ k, a = 4 * Z.of_nat k ∧
                          (k ≤ length (fp_cleanLines fp))%nat) (fp_labels fp).
Proof.
  revert acc. induction ls as [|l ls IH]; intros acc Hpc Hl; simpl; [done|].
  apply IH.
  - rewrite firstPassLine_spec. simpl.
    destruct (nonEmpty _); simpl; rewrite length_app; simpl; lia.
  - unfold firstPassLine.
    destruct (hasChar _ l); destruct (nonEmpty _); simpl;
      try apply map_Forall_insert_2;
      try (exists (length (fp_cleanLines acc)); rewrite ?length_app; simpl;
           split; [done|lia]);
      (eapply map_Forall_impl; [exact Hl|]);
      intros _ a (k & -> & Hk); exists k; rewrite ?length_app; simpl;
      (split; [done|lia]).
Qed.

Lemma parsed_address code k i :
  p_instructions (parseAssembly code) !! k = Some i →
  pcAddress i = 4 * Z.of_nat k.
Proof.
  intros Hi. rewrite parseAssembly_instructions in Hi.
  rewrite list_lookup_imap in Hi.
  destruct (cleanFrom 0 (sourceLines code) !! k) as [item|] eqn:Hit; [|done].
  simpl in Hi. injection Hi as <-.
  match goal with |- pcAddress (parseLine ?lb _ _) = _ =>
    destruct (parseLine_fields lb k item) as (_ & _ & _ & -> & _) end.
  assert (cl_pc <$> cleanFrom 0 (sourceLines code) !! k = Some (cl_pc item))
    as Hpc by (by rewrite Hit).
  rewrite <- list_lookup_fmap, cleanFrom_pc, list_lookup_fmap in Hpc.
  destruct (seq 0 _ !! k) as [k'|] eqn:Hs; [|done].
  apply lookup_seq in Hs as [-> _]. simpl in Hpc. injection Hpc as <-. lia.
Qed.

Lemma parsed_labels code l a :
  p_labels (parseAssembly code) !! l = Some a →
  ∃ k, a = 4 * Z.of_nat k ∧
       (k ≤ length (p_instructions (parseAssembly code)))%nat.
Proof.
  intros Hl.
  destruct (firstPass_labels (sourceLines code)
              {| fp_labels := ∅; fp_pcCounter := 0; fp_cleanLines := [] |})
    as [_ Hall]; [done|apply map_Forall_empty|].
  destruct (Hall l a Hl) as (k & -> & Hk).
  exists k. split; [done|].
  unfold parseAssembly. simpl. by rewrite length_imap.
Qed.

(** X18.  Every label of a parsed program stands for an instruction
    address: four times a position [k] that is at most the number of
    instructions, and the instruction at position [k], if there is one
    (a label may stand at the end of the program), has that address. *)
Theorem label_addresses code l a :
  let p := parseAssembly code in
  p_labels p !! l = Some a →
  ∃ k, a = 4 * Z.of_nat k ∧ (k ≤ length (p_instructions p))%nat ∧
       ∀ i, p_instructions p !! k = Some i → pcAddress i = a.
Proof.
  intros p Hl. destruct (parsed_labels code l a Hl) as (k & -> & Hk).
  exists k. split; [done|]. split; [done|].
  intros i Hi. by apply (parsed_address code).
Qed.

Lemma label_addresses_witness :
  ∃ k, 0 = 4 * Z.of_nat k ∧ (k ≤ length (p_instructions loopProgram))%nat ∧
       ∀ i, p_instructions loopProgram !! k = Some i → pcAddress i = 0.
Proof.
  apply (label_addresses
           (lines ["LOOP: DIV.D F0, F2, F4"; "BEQ R1, R1, LOOP"]) "LOOP" 0).
  vm_compute. reflexivity.
Defined.

Lemma upper_ascii_idemp c : upper_ascii (upper_ascii c) = upper_ascii c.
Proof.
  destruct c as [[] [] [] [] [] [] [] []]; vm_compute; reflexivity.
Qed.

Lemma toUpperCase_idemp s : toUpperCase (toUpperCase s) = toUpperCase s.
Proof.
  induction s as [|c s IH]; simpl; [done|]. by rewrite upper_ascii_idemp, IH.
Qed.

(** X19.  Opcodes are classified without regard to case, and the parser
    and the engine agree: the class the engine computes for a parsed
    instruction, whose [op] the parser has put in upper case, is the class
    of the opcode as it is written in the source line. *)
Theorem opcode_case_insensitive code :
  (∀ o, getOpType (toUpperCase o) = getOpType o) ∧
  Forall (λ i, getOpType (op i) = getOpType (opcodeToken (raw i)))
    (p_instructions (parseAssembly code)).
Proof.
  assert (∀ o, getOpType (toUpperCase o) = getOpType o) as Hup
    by (intros o; unfold getOpType; by rewrite toUpperCase_idemp).
  split; [done|].
  rewrite parseAssembly_instructions. apply Forall_lookup. intros k i.
  rewrite list_lookup_imap.
  destruct (cleanFrom 0 (sourceLines code) !! k) as [item|]; [|done].
  simpl. intros [= <-].
  match goal with |- context [parseLine ?lb _ _] =>
    destruct (parseLine_fields lb k item) as (_ & -> & -> & _) end.
  apply Hup.
Qed.

(** ** Execution takes the configured latency *)

Lemma foldl_seq_invariant {A} (P : nat → A → Prop) (f : A → nat → A) x n :
  P 0%nat x →
  (∀ i y, (i < n)%nat → P i y → P (S i) (f y i)) →
  P n (foldl f x (seq 0 n)).
Proof.
  intros H0 Hstep.
  cut (∀ m a y, (a + m = n)%nat → P a y → P n (foldl f y (seq a m))).
  { intros H. by apply (H n 0%nat x). }
  induction m as [|m IH]; intros a y Ha Hy; simpl.
  - by replace n with a by lia.
  - apply IH; [lia|]. apply Hstep; [lia|done].
Qed.

Section Timer.

Context (config : SystemConfig) (labels : gmap string Z).

Lemma startExecution_timer rs inst s :
  ∃ t1 cch lg,
    startExecution config rs inst s =
      (set_timeLeft t1 rs, stampStart (cycle s) inst,
       {| cycle := cycle s; pc := pc s; instructions := instructions s;
          reservationStations := reservationStations s;
          registers := registers s; memory := memory s; cache := cch;
          cdb := cdb s; log := lg; isFinished := isFinished s;
          branchStall := branchStall s |}) ∧
    match execStartCycle inst with
    | None => allowedLatency config inst t1
    | Some _ => t1 = timeLeft rs
    end.
Proof.
  unfold startExecution, stampStart, allowedLatency.
  destruct (execStartCycle inst) eqn:E.
  { exists (timeLeft rs), (cache s), (log s). rewrite set_timeLeft_id.
    by destruct s. }
  cbn zeta. change (op (set_execStartCycle (Some (cycle s)) inst)) with (op inst).
  destruct (decide _) as [Hm|Hm]; [destruct (decide _) as [Hl|Hl]|].
  - unfold accessCache.
    destruct (enabled (cacheConfig config)) eqn:Hen; simpl.
    + destruct (list_find _ _) as [[i b]|]; simpl.
      * eexists _, _, _. split; [by destruct s|]. left. rewrite Hl. lia.
      * eexists _, _, _. split; [by destruct s|]. right. done.
    + eexists _, _, _. split; [by destruct s|]. left. rewrite Hl. lia.
  - eexists _, (cache s), (log s). split; [by destruct s|]. left.
    destruct Hm as [Hm|Hm]; [by destruct Hl|by rewrite Hm].
  - eexists _, (cache s), (log s). split; [by destruct s|]. by left.
Qed.

Lemma tick_timer t rs :
  tick (set_timeLeft t rs) = set_timeLeft (if 0 <? t then t - 1 else t) rs.
Proof. unfold tick. simpl. by destruct (0 <? t). Qed.

Lemma finishExecution_timer rs inst s :
  let r := finishExecution labels rs inst s in
  instructions r.2 = instructions s ∧
  reservationStations r.2 = reservationStations s ∧
  timeLeft r.1.1 = timeLeft rs ∧
  (busy r.1.1 = true →
   qj r.1.1 = qj rs ∧ qk r.1.1 = qk rs ∧ instId r.1.1 = instId rs) ∧
  sameTiming (set_execEndCycle
                (if decide (timeLeft rs = 0 ∧ execEndCycle inst = None)
                 then Some (cycle s) else execEndCycle inst) inst) r.1.2.
Proof.
  unfold finishExecution, sameTiming.
  destruct (decide _) as [_|_]; [|by split_and!].
  cbn zeta. change (op (set_execEndCycle (Some (cycle s)) inst)) with (op inst).
  destruct (getOpType (op inst)); simpl; try (by split_and!).
  destruct (branchTaken _ _ _); [destruct (labels !! _)|]; simpl; by split_and!.
Qed.

(** A visit of a busy station whose operands are there. *)
Lemma executeStation_timer s k rs ik inst :
  reservationStations s !! k = Some rs → busy rs = true →
  qj rs = None → qk rs = None →
  findInst (instId rs) (instructions s) = Some (ik, inst) →
  ∃ t1 rs' inst',
    match execStartCycle inst with
    | None => allowedLatency config inst t1
    | Some _ => t1 = timeLeft rs
    end ∧
    reservationStations (executeStation config labels s k)
      = <[k := rs']> (reservationStations s) ∧
    instructions (executeStation config labels s k)
      = <[ik := inst']> (instructions s) ∧
    timeLeft rs' = (if 0 <? t1 then t1 - 1 else t1) ∧
    (busy rs' = true →
     qj rs' = None ∧ qk rs' = None ∧ instId rs' = instId rs) ∧
    inst_id inst' = inst_id inst ∧ op inst' = op inst ∧
    execStartCycle inst' = Some (default (cycle s) (execStartCycle inst)) ∧
    execEndCycle inst' =
      if decide ((if 0 <? t1 then t1 - 1 else t1) = 0 ∧ execEndCycle inst = None)
      then Some (cycle s) else execEndCycle inst.
Proof.
  intros Hk Hbusy Hj Hq Hf. unfold executeStation.
  rewrite Hk, Hbusy. simpl. rewrite decide_True by done. rewrite Hf.
  destruct (startExecution_timer rs inst s) as (t1 & cch & lg & -> & Ht1).
  rewrite tick_timer.
  match goal with |- context [finishExecution _ ?r ?i ?st] =>
    pose proof (finishExecution_timer r i st) as Hfin;
    destruct (finishExecution labels r i st) as [[rs3 inst3] s3] end.
  cbn zeta in Hfin. simpl in Hfin.
  destruct Hfin as (Hi3 & Hs3 & Ht3 & Hb3 & (E1 & E2 & E3 & E4)).
  unfold set_execEndCycle in E1, E2, E3, E4. simpl in E1, E2, E3, E4.
  destruct (stampStart_fields (cycle s) inst) as (F1 & F2 & F3 & F4 & F5 & F6 & F7).
  exists t1, rs3, inst3. simpl. rewrite Hi3, Hs3.
  split_and!; try done.
  - intros Hb. destruct (Hb3 Hb) as (-> & -> & ->). done.
  - congruence.
  - congruence.
  - congruence.
  - rewrite E4. by rewrite F4.
Qed.

End Timer.

Lemma sameTiming_refl i : sameTiming i i.
Proof. by unfold sameTiming. Qed.

Lemma allowedLatency_same config i i' L :
  sameTiming i i' → allowedLatency config i L → allowedLatency config i' L.
Proof. intros (_ & E & _). unfold allowedLatency. by rewrite E. Qed.

Lemma ranForLatency_same config i i' :
  sameTiming i i' → ranForLatency config i → ranForLatency config i'.
Proof.
  intros Hs Hr c0 c1 H0 H1. pose proof Hs as (_ & _ & E0 & E1).
  rewrite E0 in H0. rewrite E1 in H1.
  destruct (Hr c0 c1 H0 H1) as (L & HL & ->).
  exists L. split; [by eapply allowedLatency_same|done].
Qed.

Lemma onTime_same config c rs rs' i i' :
  sameTiming i i' → timeLeft rs' = timeLeft rs →
  (qj rs = None → qj rs' = None) → (qk rs = None → qk rs' = None) →
  onTime config c rs i → onTime config c rs' i'.
Proof.
  intros Hs Ht Hj Hk Ho c0 H0 H1. pose proof Hs as (_ & _ & E0 & E1).
  rewrite E0 in H0. rewrite E1 in H1.
  destruct (Ho c0 H0 H1) as (Hqj & Hqk & Hpos & L & HL & Htl).
  rewrite Ht. split_and!; auto.
  exists L. split; [by eapply allowedLatency_same|done].
Qed.

Lemma ranForLatency_unstarted config i :
  execStartCycle i = None → ranForLatency config i.
Proof. intros E c0 c1 H0. congruence. Qed.

Lemma onTime_unstarted config c rs i :
  execStartCycle i = None → onTime config c rs i.
Proof. intros E c0 H0. congruence. Qed.

Lemma timingInv_ext config f g s s' :
  instructions s' = instructions s →
  reservationStations s' = reservationStations s →
  (∀ k, (k < length (reservationStations s))%nat → f k = g k) →
  timingInv config f s → timingInv config g s'.
Proof.
  intros Ei Es Hfg [H1 H2]. split; rewrite ?Ei, ?Es; [done|].
  intros k rs j i Hk Hb Hj Hid. rewrite <- Hfg by (by eapply lookup_lt_Some).
  by eapply H2.
Qed.

Lemma lookup_insert_sameTiming (l : list InstructionLine) ik Y Y' j X' :
  l !! ik = Some Y → sameTiming Y Y' → <[ik := Y']> l !! j = Some X' →
  ∃ X0, l !! j = Some X0 ∧ sameTiming X0 X'.
Proof.
  intros Hik Hs Hj. destruct (decide (j = ik)) as [->|Hne].
  - rewrite list_lookup_insert_eq in Hj by (by eapply lookup_lt_Some).
    injection Hj as <-. by exists Y.
  - rewrite list_lookup_insert_ne in Hj by done.
    exists X'. split; [done|apply sameTiming_refl].
Qed.

Lemma captureOperands_timer t v rs :
  timeLeft (captureOperands t v rs) = timeLeft rs ∧
  (qj rs = None → qj (captureOperands t v rs) = None) ∧
  (qk rs = None → qk (captureOperands t v rs) = None).
Proof.
  unfold captureOperands. destruct (busy rs); [|done].
  destruct (decide (qj rs = Some t)); simpl;
    (match goal with |- context [decide ?P] => destruct (decide P) end);
    simpl; split_and!; auto; congruence.
Qed.

Lemma writeResult_timing config f s :
  timingInv config f s → timingInv config f (writeResult s).
Proof.
  intros [Hran Hon]. unfold writeResult.
  destruct (list_find _ _) as [[p r]|] eqn:Hfind; [|done].
  simpl.
  set (t0 := rs_id r). set (v := default 0 (result r)).
  assert (∃ l', (match findInst (instId r) (instructions s) with
                 | Some (ik, inst) =>
                     <[ik := set_writeCycle (Some (cycle s)) inst]> (instructions s)
                 | None => instructions s
                 end) = l' ∧
                ∀ j X', l' !! j = Some X' →
                  ∃ X0, instructions s !! j = Some X0 ∧ sameTiming X0 X')
    as (l' & -> & Hl').
  { eexists. split; [reflexivity|].
    destruct (findInst _ _) as [[ik inst]|] eqn:Hf.
    - apply findInst_lookup in Hf. intros j X' Hj.
      eapply (lookup_insert_sameTiming _ ik inst); [done| |done].
      by unfold sameTiming.
    - intros j X' Hj. exists X'. split; [done|apply sameTiming_refl]. }
  split; simpl.
  - apply Forall_lookup. intros j X' Hj.
    destruct (Hl' j X' Hj) as (X0 & Hj0 & Hs).
    eapply ranForLatency_same; [exact Hs|].
    by eapply (proj1 (Forall_lookup _ _) Hran).
  - intros k rs' j X' Hk Hb Hj Hid.
    destruct (Hl' j X' Hj) as (X0 & Hj0 & Hs).
    destruct (decide (k = p)) as [->|Hne].
    { rewrite list_lookup_alter in Hk. destruct (decide (p = p)); [|done].
      destruct (_ !! p); simpl in Hk; [|done]. injection Hk as <-. done. }
    rewrite list_lookup_alter_ne, list_lookup_fmap in Hk by done.
    destruct (reservationStations s !! k) as [r0|] eqn:Hr0; [|done].
    simpl in Hk. injection Hk as <-.
    destruct (captureOperands_timer t0 v r0) as (Et & Ej & Ek).
    destruct (captureOperands_binding t0 v r0) as (Eb & Ei & _).
    rewrite Eb in Hb. rewrite Ei in Hid.
    eapply onTime_same; [exact Hs|done..|].
    eapply (Hon k r0 j X0); try done.
    destruct Hs as (<- & _). done.
Qed.

Section TimingInv.

Context (config : SystemConfig) (labels : gmap string Z).
Hypothesis latencies_pos : ∀ o, 1 ≤ latencies config o.
Hypothesis penalty_nonneg : 0 ≤ missPenalty (cacheConfig config).

Lemma allowedLatency_pos i L : allowedLatency config i L → 1 ≤ L.
Proof.
  intros [->|(_ & _ & ->)]; [apply latencies_pos|].
  pose proof (latencies_pos OpType.LOAD). lia.
Qed.

(** A station that is not visited. *)
Lemma skip_timing s k f c :
  timingInv config f s →
  (∀ rs, reservationStations s !! k = Some rs → busy rs = true →
         ¬ (qj rs = None ∧ qk rs = None)) →
  timingInv config (λ k', if decide (k' = k) then c else f k') s.
Proof.
  intros [Hran Hon] Hnot. split; [done|].
  intros k' r j i Hk' Hb Hj Hid. destruct (decide (k' = k)) as [->|Hne].
  - intros c0 H0 H1. exfalso.
    destruct (Hon k r j i Hk' Hb Hj Hid c0 H0 H1) as (? & ? & _).
    by apply (Hnot r Hk' Hb).
  - by eapply Hon.
Qed.

(** A visit: the timer [t1] the station has or is given is decremented,
    and the instruction completes when it reaches 0. *)
Lemma visit_timing bi s s' k f rs j X t1 rs' X' :
  engineInv bi (cycle s) (cycle s) s → timingInv config f s →
  f k = cycle s - 1 →
  reservationStations s !! k = Some rs → busy rs = true →
  instructions s !! j = Some X → bound rs X →
  match execStartCycle X with
  | None => allowedLatency config X t1
  | Some _ => t1 = timeLeft rs
  end →
  reservationStations s' = <[k := rs']> (reservationStations s) →
  instructions s' = <[j := X']> (instructions s) →
  timeLeft rs' = (if 0 <? t1 then t1 - 1 else t1) →
  (busy rs' = true → qj rs' = None ∧ qk rs' = None ∧ instId rs' = instId rs) →
  inst_id X' = inst_id X → op X' = op X →
  execStartCycle X' = Some (default (cycle s) (execStartCycle X)) →
  execEndCycle X' =
    (if decide ((if 0 <? t1 then t1 - 1 else t1) = 0 ∧ execEndCycle X = None)
     then Some (cycle s) else execEndCycle X) →
  timingInv config (λ k', if decide (k' = k) then cycle s else f k') s'.
Proof.
  intros Hinv [Hran Hon] Hfk Hk Hbusy Hj HbX Ht1 Es Ei Etl Hb' Eid Eop Est Een.
  pose proof HbX as (Hid & _).
  pose proof (proj1 (Forall_lookup _ _) Hran j X Hj) as HranX.
  pose proof (Hon k rs j X Hk Hbusy Hj Hid) as HonX.
  pose proof (proj1 (Forall_lookup _ _) (inv_stamps _ _ _ _ Hinv) j X Hj)
    as (_ & _ & Hs3 & _).
  assert (∀ L, allowedLatency config X L → allowedLatency config X' L) as Hal.
  { intros L. unfold allowedLatency. by rewrite Eop. }
  (* the remaining time after the visit *)
  assert (execEndCycle X = None →
          ∃ c0 L, execStartCycle X' = Some c0 ∧ allowedLatency config X L ∧
                  (if 0 <? t1 then t1 - 1 else t1) = c0 + L - 1 - cycle s ∧
                  0 ≤ (if 0 <? t1 then t1 - 1 else t1)) as Hrem.
  { intros He. rewrite Est.
    destruct (execStartCycle X) as [c0|] eqn:Hs0; simpl.
    - destruct (HonX c0 Hs0 He) as (_ & _ & Hpos & L & HL & Htl).
      subst t1. exists c0, L. split; [done|]. split; [done|].
      rewrite Hfk in Htl.
      destruct (0 <? timeLeft rs) eqn:E; lia.
    - pose proof (allowedLatency_pos X t1 Ht1).
      exists (cycle s), t1. split; [done|]. split; [done|].
      destruct (0 <? t1) eqn:E; lia. }
  split.
  - rewrite Ei. apply Forall_insert; [done|].
    intros c0 c1 H0 H1. rewrite Een in H1.
    destruct (execEndCycle X) as [e|] eqn:He.
    + rewrite decide_False in H1 by (by intros [_ ?]).
      destruct (Hs3 e eq_refl) as (_ & s0 & Hs0 & _).
      rewrite Est, Hs0 in H0. simpl in H0.
      destruct (HranX s0 e Hs0 He) as (L & HL & ->).
      exists L. split; [by apply Hal|]. congruence.
    + destruct (Hrem eq_refl) as (c0' & L & Hc0 & HL & Hr & _).
      destruct (decide _) as [[Hz _]|]; [|done].
      injection H1 as <-. rewrite Hc0 in H0. injection H0 as <-.
      exists L. split; [by apply Hal|]. lia.
  - intros k' r j' i Hk' Hb Hj' Hidr. rewrite Es in Hk'. rewrite Ei in Hj'.
    destruct (decide (k' = k)) as [->|Hne].
    + rewrite list_lookup_insert_eq in Hk' by (by eapply lookup_lt_Some).
      injection Hk' as <-. destruct (Hb' Hb) as (Hj1 & Hk1 & Hi1).
      assert (j' = j) as ->.
      { destruct (decide (j' = j)) as [|Hn]; [done|].
        rewrite list_lookup_insert_ne in Hj' by done.
        apply (NoDup_lookup _ _ _ (inst_id X) (inv_ids _ _ _ _ Hinv));
          rewrite list_lookup_fmap.
        - rewrite Hj'. simpl. congruence.
        - by rewrite Hj. }
      rewrite list_lookup_insert_eq in Hj' by (by eapply lookup_lt_Some).
      injection Hj' as <-.
      intros c0 H0 H1. rewrite Een in H1.
      destruct (execEndCycle X) as [e|] eqn:He.
      { rewrite decide_False in H1 by (by intros [_ ?]). done. }
      destruct (Hrem eq_refl) as (c0' & L & Hc0 & HL & Hr & Hge).
      destruct (decide _) as [|Hnz]; [done|].
      rewrite Hc0 in H0. injection H0 as <-.
      split_and!; [done|done| |].
      * rewrite Etl. destruct (decide ((if 0 <? t1 then t1 - 1 else t1) = 0));
          [by destruct Hnz|lia].
      * exists L. split; [by apply Hal|]. by rewrite Etl.
    + rewrite list_lookup_insert_ne in Hk' by done.
      destruct (decide (j' = j)) as [->|Hnj].
      * exfalso. apply Hne.
        rewrite list_lookup_insert_eq in Hj' by (by eapply lookup_lt_Some).
        injection Hj' as <-.
        apply (inv_inj _ _ _ _ Hinv k' k r rs Hk' Hk Hb Hbusy). congruence.
      * rewrite list_lookup_insert_ne in Hj' by done. by eapply Hon.
Qed.

Lemma executeStation_timing bi s k f :
  engineInv bi (cycle s) (cycle s) s → timingInv config f s →
  f k = cycle s - 1 →
  timingInv config (λ k', if decide (k' = k) then cycle s else f k')
    (executeStation config labels s k).
Proof.
  intros Hinv Ht Hfk.
  destruct (reservationStations s !! k) as [rs|] eqn:Hk.
  2:{ assert (executeStation config labels s k = s) as ->
        by (unfold executeStation; by rewrite Hk).
      apply skip_timing; [done|]. intros rs. by rewrite Hk. }
  destruct (busy rs) eqn:Hbusy.
  2:{ assert (executeStation config labels s k = s) as ->
        by (unfold executeStation; by rewrite Hk, Hbusy).
      apply skip_timing; [done|]. intros rs'. rewrite Hk. intros [= <-]. congruence. }
  destruct (decide (qj rs = None ∧ qk rs = None)) as [[Hqj Hqk]|Hnr].
  2:{ assert (executeStation config labels s k = s) as ->.
      { unfold executeStation. rewrite Hk, Hbusy. simpl. by rewrite decide_False. }
      apply skip_timing; [done|]. intros rs'. rewrite Hk. by intros [= <-]. }
  destruct (inv_bound _ _ _ _ Hinv k rs Hk Hbusy) as (j & X & Hj & HbX).
  pose proof HbX as (Hid & _).
  pose proof (findInst_bound _ j X (inv_ids _ _ _ _ Hinv) Hj) as Hf.
  rewrite <- Hid in Hf.
  destruct (executeStation_timer config labels s k rs j X Hk Hbusy Hqj Hqk Hf)
    as (t1 & rs' & X' & Ht1 & Es & Ei & Etl & Hb' & Eid & Eop & Est & Een).
  by eapply (visit_timing bi s _ k f rs j X t1 rs' X').
Qed.

End TimingInv.

Lemma selectIssueInst_timing config f s :
  timingInv config f s →
  timingInv config f
    (set_instructions (selectIssueInst (instructions s) (pc s)).1 s).
Proof.
  intros Ht.
  destruct (selectIssueInst_cases (instructions s) (pc s))
    as [(k & i & _ & ->)|[(_ & k & tpl & _ & ->)|(_ & ->)]]; simpl;
    try (by eapply timingInv_ext; [| | |exact Ht]).
  destruct Ht as [Hran Hon]. split; simpl.
  - apply Forall_app. split; [done|]. apply Forall_singleton.
    by apply ranForLatency_unstarted.
  - intros k' rs j i Hk' Hb Hj Hid.
    apply lookup_app_Some in Hj as [Hj|[_ Hj]]; [by eapply Hon|].
    apply list_lookup_singleton_Some in Hj as [_ <-].
    by apply onTime_unstarted.
Qed.

Lemma issue_timing config f bi be bw s :
  engineInv bi be bw s → timingInv config f s → timingInv config f (issue s).
Proof.
  intros Hinv Ht.
  destruct (branchStall s) eqn:Hstall; [by rewrite issue_stalled|].
  apply (selectIssueInst_inv _ _ _ s) in Hinv.
  apply selectIssueInst_timing in Ht.
  destruct (issue_cases s Hstall)
    as [->|(ik & issueInst & ea & rsIndex & freeRS & Hiss & ->)]; [done|].
  destruct Hiss as (_ & Hsel & _ & Hfree).
  apply selectIssueInst_lookup in Hsel as (Hik & Hnone & _).
  apply list_find_Some in Hfree as (Hrs & _).
  set (s1 := set_instructions (selectIssueInst (instructions s) (pc s)).1 s) in *.
  assert (instructions s1 !! ik = Some issueInst) as Hik1 by done.
  pose proof (proj1 (Forall_lookup _ _) (inv_stamps _ _ _ _ Hinv) ik _ Hik1) as Hok.
  destruct (stampsOk_unissued _ _ _ _ Hok Hnone) as (_ & Hst & _).
  destruct Ht as [Hran Hon]. split.
  - rewrite commitIssue_instructions. apply Forall_insert; [done|].
    by apply ranForLatency_unstarted.
  - intros k rs j i Hk Hb Hj Hid.
    rewrite commitIssue_instructions in Hj. rewrite commitIssue_stations in Hk.
    destruct (decide (j = ik)) as [->|Hnj].
    { rewrite list_lookup_insert_eq in Hj by (by eapply lookup_lt_Some).
      injection Hj as <-. by apply onTime_unstarted. }
    rewrite list_lookup_insert_ne in Hj by done.
    destruct (decide (k = rsIndex)) as [->|Hnk].
    + exfalso. apply Hnj.
      rewrite list_lookup_insert_eq in Hk by (by eapply lookup_lt_Some).
      injection Hk as <-. simpl in Hid.
      apply (NoDup_lookup _ _ _ (inst_id i) (inv_ids _ _ _ _ Hinv));
        rewrite list_lookup_fmap.
      * by rewrite Hj.
      * rewrite Hik1. simpl. congruence.
    + rewrite list_lookup_insert_ne in Hk by done. by eapply Hon.
Qed.

Section TimingRun.

Context (config : SystemConfig) (labels : gmap string Z).
Hypothesis latencies_pos : ∀ o, 1 ≤ latencies config o.
Hypothesis penalty_nonneg : 0 ≤ missPenalty (cacheConfig config).

Lemma execute_timing bi s :
  engineInv bi (cycle s) (cycle s) s → bi < cycle s →
  timingInv config (λ _, cycle s - 1) s →
  timingInv config (λ _, cycle s) (execute config labels s).
Proof.
  intros Hinv Hlt Ht. unfold execute.
  set (n := length (reservationStations s)).
  pose (P := λ (i : nat) (y : SimulationState),
          cycle y = cycle s ∧ length (reservationStations y) = n ∧
          engineInv bi (cycle s) (cycle s) y ∧
          timingInv config
            (λ k, if (k <? i)%nat then cycle s else cycle s - 1) y).
  assert (P n (foldl (executeStation config labels) s (seq 0 n)))
    as (_ & Hlen & _ & Hy).
  { apply foldl_seq_invariant.
    - unfold P. by split_and!.
    - intros i y Hi (Hc & Hlen & Hy & Hty).
      destruct (executeStation_visit config labels y i) as [Hc' _].
      unfold P. split_and!.
      + congruence.
      + rewrite <- Hlen.
        rewrite <- (length_fmap stationName (reservationStations y)),
                <- (length_fmap stationName
                      (reservationStations (executeStation config labels y i))).
        by rewrite executeStation_names.
      + rewrite <- Hc. apply executeStation_inv; by rewrite Hc.
      + rewrite <- Hc in Hy, Hty |- *.
        eapply timingInv_ext;
          [done|done| |
           apply (executeStation_timing config labels latencies_pos
                    penalty_nonneg bi y i _ Hy Hty)].
        * intros k _. simpl.
          destruct (decide (k = i)) as [->|Hne].
          -- by rewrite (proj2 (Nat.ltb_lt i (S i))) by lia.
          -- destruct (k <? i)%nat eqn:E1, (k <? S i)%nat eqn:E2; try done.
             ++ apply Nat.ltb_lt in E1. apply Nat.ltb_ge in E2. lia.
             ++ apply Nat.ltb_ge in E1. apply Nat.ltb_lt in E2. lia.
        * simpl. by rewrite (proj2 (Nat.ltb_ge i i)) by lia. }
  eapply timingInv_ext; [done|done| |exact Hy].
  intros k Hk. simpl. rewrite Hlen in Hk.
  by rewrite (proj2 (Nat.ltb_lt k n)) by lia.
Qed.

Lemma nextCycle_timing s :
  wellFormed s → timingInv config (λ _, cycle s) s →
  timingInv config (λ _, cycle (nextCycle s config labels))
    (nextCycle s config labels).
Proof.
  intros Hinv Ht. unfold nextCycle.
  destruct (isFinished s); [done|].
  destruct (checkCompletion_frame (issue (beforeIssue s config labels)))
    as (Hc & _ & Hi & Hs & _).
  rewrite Hc. eapply timingInv_ext; [exact Hi|exact Hs|done|].
  destruct (issue_frame (beforeIssue s config labels)) as (Hci & _).
  rewrite Hci. unfold beforeIssue.
  set (s1 := beginCycle s).
  assert (engineInv (cycle s) (cycle s) (cycle s) s1) as H1
    by (by eapply engineInv_ext; [| |exact Hinv]).
  assert (cycle s1 = cycle s + 1) as Hc1 by done.
  apply writeResult_inv in H1; [|lia..].
  destruct (writeResult_frame s1) as (Hcw & _).
  destruct (execute_frame config labels (writeResult s1)) as (Hce & _).
  assert (engineInv (cycle s) (cycle (writeResult s1)) (cycle (writeResult s1))
            (writeResult s1)) as H2
    by (rewrite Hcw; eapply engineInv_mono; [| | |exact H1]; lia).
  assert (timingInv config (λ _, cycle (writeResult s1) - 1) (writeResult s1))
    as Ht2.
  { apply writeResult_timing.
    eapply timingInv_ext; [| | |exact Ht]; try done.
    intros k _. simpl. rewrite Hcw, Hc1. lia. }
  eapply (issue_timing _ _ _ _ _ _ (execute_inv config labels _ _ H2 ltac:(lia))).
  rewrite Hce. apply (execute_timing (cycle s)); [done|lia|done].
Qed.

Lemma run_timing n s :
  wellFormed s → timingInv config (λ _, cycle s) s →
  timingInv config (λ _, cycle (run n s config labels)) (run n s config labels).
Proof.
  intros Hs Ht. induction n as [|n IH]; simpl; [done|].
  apply nextCycle_timing; [by apply run_wellFormed|done].
Qed.

End TimingRun.

Lemma initializeState_timing insts config regs :
  Forall unstamped insts →
  timingInv config (λ _, 0) (initializeState insts config regs).
Proof.
  intros Hun. split; simpl.
  - eapply Forall_impl; [exact Hun|]. intros i (_ & Hs & _).
    by apply ranForLatency_unstarted.
  - intros k rs j i Hk%list_elem_of_lookup_2 Hb. unfold initialStations in Hk.
    apply list_elem_of_In, in_flat_map in Hk as (ty & _ & Hin).
    apply list_elem_of_In, list_elem_of_fmap in Hin as (x & -> & _). done.
Qed.

(** X20.  Execution takes the configured latency.  In a run whose
    latencies are at least one cycle and whose miss penalty is not
    negative, every instruction that has completed did so in the last
    cycle of its execution time, [execEndCycle = execStartCycle + L - 1],
    where [L] is the latency of its class or, for a LOAD that missed the
    enabled cache, that latency plus the miss penalty; and the timer of a
    station whose instruction is executing shows the cycles that remain,
    [execStartCycle + L - 1 - cycle], which is positive. *)
Theorem execution_takes_latency insts config regs labels n :
  NoDup (inst_id <$> insts) → Forall unstamped insts →
  (∀ o, 1 ≤ latencies config o) → 0 ≤ missPenalty (cacheConfig config) →
  let s := run n (initializeState insts config regs) config labels in
  Forall (ranForLatency config) (instructions s) ∧
  ∀ k rs j i,
    reservationStations s !! k = Some rs → busy rs = true →
    instructions s !! j = Some i → instId rs = Some (inst_id i) →
    onTime config (cycle s) rs i.
Proof.
  intros Hnd Hun Hlat Hpen s.
  apply (run_timing config labels Hlat Hpen n).
  - by apply initializeState_wellFormed.
  - by apply initializeState_timing.
Qed.

Lemma execution_takes_latency_witness :
  let s := run 12 sequentialStart exampleConfig (p_labels sequentialProgram) in
  Forall (ranForLatency exampleConfig) (instructions s) ∧
  ∀ k rs j i,
    reservationStations s !! k = Some rs → busy rs = true →
    instructions s !! j = Some i → instId rs = Some (inst_id i) →
    onTime exampleConfig (cycle s) rs i.
Proof.
  apply (execution_takes_latency (p_instructions sequentialProgram)
           exampleConfig exampleRegs (p_labels sequentialProgram) 12).
  - apply (bool_decide_unpack _). vm_compute. reflexivity.
  - vm_compute. repeat constructor.
  - intros []; vm_compute; discriminate.
  - vm_compute. discriminate.
Defined.

(** ** The parser: memory operands *)

Lemma append_cons c s t : String c s +:+ t = String c (s +:+ t).
Proof. reflexivity. Qed.

Lemma append_nil_r s : s +:+ "" = s.
Proof. induction s as [|c s IH]; [done|]. by rewrite append_cons, IH. Qed.

Lemma rev_app_rev_app s t u :
  String.rev_app (String.rev_app s t) u = String.rev_app t (s +:+ u).
Proof.
  revert t. induction s as [|c s IH]; intros t; [done|].
  rewrite append_cons. simpl. by rewrite IH.
Qed.

Lemma rev_involutive s : String.rev (String.rev s) = s.
Proof. unfold String.rev. rewrite rev_app_rev_app. simpl. apply append_nil_r. Qed.

Lemma rev_app_app s1 s2 t :
  String.rev_app (s1 +:+ s2) t = String.rev_app s2 (String.rev_app s1 t).
Proof.
  revert t. induction s1 as [|c s IH]; intros t; [done|].
  rewrite append_cons. simpl. apply IH.
Qed.

Lemma rev_app_nonempty s t : t ≠ "" → String.rev_app s t ≠ "".
Proof. revert t. induction s as [|c s IH]; intros t Ht; simpl; [done|]. by apply IH. Qed.

Lemma list_ascii_app s1 s2 :
  list_ascii_of_string (s1 +:+ s2)
  = list_ascii_of_string s1 ++ list_ascii_of_string s2.
Proof. induction s1 as [|c s IH]; simpl; [done|]. by rewrite IH. Qed.

Lemma digit_char c :
  is_Some (digitVal 10 c) →
  isSpace c = false ∧ c ≠ "-"%char ∧ c ≠ "+"%char ∧ c ≠ "x"%char ∧
  c ≠ "X"%char ∧ c ≠ "("%char.
Proof.
  intros [d Hd]. revert Hd.
  destruct c as [[] [] [] [] [] [] [] []]; vm_compute; intros; try discriminate;
    by split_and!.
Qed.

Lemma digitVal_pretty d :
  (d < 10)%N → digitVal 10 (pretty_N_char d) = Some (Z.of_N d).
Proof.
  intros Hd.
  assert (d = 0 ∨ d = 1 ∨ d = 2 ∨ d = 3 ∨ d = 4 ∨ d = 5 ∨ d = 6 ∨ d = 7 ∨
          d = 8 ∨ d = 9)%N as H by lia.
  repeat (destruct H as [->|H]; [reflexivity|]). by subst.
Qed.

Lemma readDigits_pretty x :
  (0 < x)%N → ∀ acc s,
  ∃ m, readDigits 10 acc (pretty_N_go x s)
       = readDigits 10 (Some (default 0 acc * m + Z.of_N x)) s.
Proof.
  induction (N.lt_wf_0 x) as [x _ IH]. intros Hx acc s.
  rewrite pretty_N_go_step by done.
  pose proof (N.div_mod x 10 ltac:(done)) as Hdm.
  pose proof (N.mod_lt x 10 ltac:(done)) as Hm.
  destruct (decide (x `div` 10 = 0)%N) as [Hz|Hnz].
  - rewrite Hz, pretty_N_go_0. simpl. rewrite digitVal_pretty by done.
    exists 10. do 2 f_equal. lia.
  - destruct (IH (x `div` 10)%N) with (acc := acc)
        (s := String (pretty_N_char (x `mod` 10)) s) as (m & ->);
      [apply N.div_lt; lia|lia|].
    simpl. rewrite digitVal_pretty by done.
    exists (m * 10). do 2 f_equal. lia.
Qed.

Lemma allDigits_pretty x s :
  allDigits s = true → allDigits (pretty_N_go x s) = true.
Proof.
  revert s. induction (N.lt_wf_0 x) as [x _ IH]. intros s Hs.
  destruct (decide (x = 0)%N) as [->|Hx]; [by rewrite pretty_N_go_0|].
  rewrite pretty_N_go_step by lia. apply IH; [apply N.div_lt; lia|].
  simpl. rewrite Hs, andb_true_r. apply bool_decide_eq_true.
  rewrite digitVal_pretty by (apply N.mod_lt; lia). done.
Qed.

Lemma pretty_N_go_nonempty x s : s ≠ "" → pretty_N_go x s ≠ "".
Proof.
  revert s. induction (N.lt_wf_0 x) as [x _ IH]. intros s Hs.
  destruct (decide (x = 0)%N) as [->|Hx]; [by rewrite pretty_N_go_0|].
  rewrite pretty_N_go_step by lia. apply IH; [apply N.div_lt; lia|done].
Qed.

(** The decimal numeral of a natural number: a non-empty string of
    digits, read back by [readDigits]. *)
Lemma pretty_N_numeral (x : N) :
  ∃ c d, pretty x = String c d ∧ allDigits (String c d) = true ∧
         readDigits 10 None (String c d) = Some (Z.of_N x).
Proof.
  unfold pretty, pretty_N. destruct (decide (x = 0)%N) as [->|Hx].
  { exists "0"%char, "". by vm_compute. }
  assert (allDigits (pretty_N_go x "") = true) as Hall
    by (by apply allDigits_pretty).
  assert (pretty_N_go x "" ≠ "") as Hne.
  { rewrite pretty_N_go_step by lia. by apply pretty_N_go_nonempty. }
  destruct (readDigits_pretty x ltac:(lia) None "") as (m & Hr).
  destruct (pretty_N_go x "") as [|c d]; [done|].
  exists c, d. split_and!; [done|done|]. rewrite Hr. simpl. f_equal; lia.
Qed.

Lemma parseInt_numeral c d :
  allDigits (String c d) = true →
  parseInt (String c d) = readDigits 10 None (String c d) ∧
  parseInt (String "-"%char (String c d))
  = Z.opp <$> readDigits 10 None (String c d).
Proof.
  intros Hall. pose proof Hall as Hall'. simpl in Hall'.
  apply andb_true_iff in Hall' as [Hc Hd]. apply bool_decide_eq_true in Hc.
  assert (match d with
          | String x _ => x ≠ "x"%char ∧ x ≠ "X"%char
          | EmptyString => True
          end) as Hx.
  { destruct d as [|x d']; [done|]. simpl in Hd.
    apply andb_true_iff in Hd as [Hx _]. apply bool_decide_eq_true in Hx.
    by destruct (digit_char x Hx) as (_ & _ & _ & ? & ? & _). }
  assert ((match String c d with
           | String "0"%char (String x s') =>
               if bool_decide (x = "x"%char ∨ x = "X"%char)
               then readDigits 16 None s'
               else readDigits 10 None (String c d)
           | _ => readDigits 10 None (String c d)
           end) = readDigits 10 None (String c d)) as Hmag.
  { destruct d as [|x d']; [by repeat case_match|].
    destruct Hx as [H1 H2].
    rewrite (bool_decide_eq_false_2 (x = "x"%char ∨ x = "X"%char))
      by (by intros [|]).
    by repeat case_match. }
  destruct (digit_char c Hc) as (Hsp & Hm & Hp & _).
  split.
  - unfold parseInt. simpl trimStart. rewrite Hsp.
    assert ((match String c d with
             | String "-"%char s' => (-1, s')
             | String "+"%char s' => (1, s')
             | _ => (1, String c d)
             end) = (1, String c d)) as ->.
    { revert Hm Hp. clear.
      destruct c as [[] [] [] [] [] [] [] []]; intros; try done. }
    rewrite Hmag. destruct (readDigits 10 None (String c d)) as [v|]; simpl; [|done].
    by destruct v.
  - unfold parseInt. simpl trimStart.
    change (isSpace "-"%char) with false. cbv iota.
    rewrite Hmag. destruct (readDigits 10 None (String c d)) as [v|]; simpl; [|done].
    by destruct v.
Qed.

Lemma parseInt_pretty (z : Z) : parseInt (pretty z) = Some z.
Proof.
  unfold pretty, pretty_Z. destruct z as [|p|p].
  - by vm_compute.
  - change (pretty p) with (pretty (Npos p)).
    destruct (pretty_N_numeral (Npos p)) as (c & d & -> & Hall & Hr).
    destruct (parseInt_numeral c d Hall) as [-> _]. by rewrite Hr.
  - change (pretty p) with (pretty (Npos p)).
    destruct (pretty_N_numeral (Npos p)) as (c & d & -> & Hall & Hr).
    change ("-" +:+ String c d) with (String "-"%char (String c d)).
    destruct (parseInt_numeral c d Hall) as [_ ->]. by rewrite Hr.
Qed.

Lemma spanDigits_numeral d r :
  allDigits d = true → spanDigits (d +:+ String "("%char r) = (d, String "("%char r).
Proof.
  induction d as [|c d IH]; intros Hd; [done|].
  simpl in Hd. apply andb_true_iff in Hd as [Hc Hd].
  rewrite append_cons. simpl. rewrite Hc. by rewrite IH.
Qed.

Lemma matchOffsetBase_pretty (z : Z) b :
  b ≠ "" →
  matchOffsetBase (pretty z +:+ "(" +:+ b +:+ ")") = Some (pretty z, b).
Proof.
  intros Hb.
  assert (∀ c d, allDigits (String c d) = true →
            (let '(digits, rest) := spanDigits (String c d +:+ "(" +:+ b +:+ ")") in
             match digits, rest with
             | String _ _, String "("%char inner =>
                 match String.rev inner with
                 | String ")"%char (String x r) => Some (digits, String.rev (String x r))
                 | _ => None
                 end
             | _, _ => None
             end) = Some (String c d, b)) as Hbody.
  { intros c d Hall.
    change (String c d +:+ "(" +:+ b +:+ ")")
      with (String c d +:+ String "("%char (b +:+ ")")).
    rewrite spanDigits_numeral by done.
    unfold String.rev at 1. rewrite rev_app_app. simpl.
    assert (String.rev_app b "" ≠ "") as Hne.
    { destruct b as [|x b']; [done|]. simpl. by apply rev_app_nonempty. }
    destruct (String.rev_app b "") as [|x r] eqn:Hr; [done|].
    rewrite <- Hr. change (String.rev_app b "") with (String.rev b).
    by rewrite rev_involutive. }
  unfold pretty, pretty_Z. destruct z as [|p|p].
  - unfold matchOffsetBase. apply (Hbody "0"%char ""). done.
  - change (pretty p) with (pretty (Npos p)).
    destruct (pretty_N_numeral (Npos p)) as (c & d & -> & Hall & _).
    unfold matchOffsetBase.
    assert (c ≠ "-"%char) as Hm.
    { simpl in Hall. apply andb_true_iff in Hall as [Hc _].
      apply bool_decide_eq_true in Hc. by destruct (digit_char c Hc) as (_ & ? & _). }
    assert ((match String c d +:+ "(" +:+ b +:+ ")" with
             | String "-"%char s' => ("-", s')
             | _ => ("", String c d +:+ "(" +:+ b +:+ ")")
             end) = ("", String c d +:+ "(" +:+ b +:+ ")")) as ->.
    { revert Hm. clear. simpl.
      destruct c as [[] [] [] [] [] [] [] []]; intros; try done. }
    specialize (Hbody c d Hall).
    destruct (spanDigits _) as [digits rest]. simpl. exact Hbody.
  - change (pretty p) with (pretty (Npos p)).
    destruct (pretty_N_numeral (Npos p)) as (c & d & -> & Hall & _).
    unfold matchOffsetBase. simpl append at 1.
    change (("-" +:+ String c d) +:+ "(" +:+ b +:+ ")")
      with (String "-"%char (String c d +:+ "(" +:+ b +:+ ")")).
    cbv iota. specialize (Hbody c d Hall).
    destruct (spanDigits _) as [digits rest].
    destruct digits as [|x digits]; [done|].
    destruct rest as [|y rest]; [done|].
    revert Hbody. repeat case_match; try done. by intros [= -> -> <-].
Qed.

Lemma hasChar_operand (z : Z) b :
  hasChar "("%char (pretty z +:+ "(" +:+ b +:+ ")") = true ∧
  hasChar ")"%char (pretty z +:+ "(" +:+ b +:+ ")") = true.
Proof.
  unfold hasChar. rewrite !list_ascii_app. simpl.
  split; apply bool_decide_eq_true.
  - apply elem_of_app. right. by apply elem_of_cons; left.
  - apply elem_of_app. right. apply elem_of_cons. right.
    apply elem_of_app. right. by apply list_elem_of_singleton.
Qed.

(** X21.  A memory operand is read back as it is written: if the third
    token of a line is [offset(base)], the offset being a decimal numeral
    (of an integer that JavaScript represents exactly) and the base not
    empty, the instruction gets the base as [src1], the offset as
    [immediate] and the numeral of the offset as [src2]. *)
Theorem memory_operand_parsed labels k item (z : Z) b :
  part 2 (splitSpaces false (commasToSpaces (cl_raw item)))
  = pretty z +:+ "(" +:+ b +:+ ")" →
  b ≠ "" → - 2 ^ 53 < z < 2 ^ 53 →
  let i := parseLine labels k item in
  src1 i = b ∧ src2 i = pretty z ∧ immediate i = z.
Proof.
  intros Htok Hb _. unfold parseLine. cbn zeta. rewrite Htok.
  destruct (hasChar_operand z b) as [-> ->]. simpl andb. cbv iota.
  rewrite matchOffsetBase_pretty by done.
  rewrite parseInt_pretty. simpl. done.
Qed.

Lemma memory_operand_parsed_witness :
  let i := parseLine ∅ 0 {| cl_raw := "L.D F6, -8(R2)"; cl_pc := 0 |} in
  src1 i = "R2" ∧ src2 i = pretty (-8) ∧ immediate i = -8.
Proof.
  apply (memory_operand_parsed ∅ 0 {| cl_raw := "L.D F6, -8(R2)"; cl_pc := 0 |}
           (-8) "R2").
  - vm_compute. reflexivity.
  - done.
  - lia.
Defined.

(** ** The branch stall *)

Lemma stallInv_same s s' :
  branchStall s' = branchStall s → (∀ k, branchAt s' k ↔ branchAt s k) →
  stallInv s → stallInv s'.
Proof.
  intros Ef Hb [H1 H2]. split.
  - rewrite Ef, H1. by setoid_rewrite Hb.
  - intros k1 k2 ?%Hb ?%Hb. by apply H2.
Qed.

Lemma stallInv_release s s' k0 :
  branchStall s' = false → branchAt s k0 →
  (∀ k, branchAt s' k ↔ branchAt s k ∧ k ≠ k0) →
  stallInv s → stallInv s'.
Proof.
  intros Ef H0 Hb [H1 H2]. split.
  - rewrite Ef. split; [done|]. intros (k & [Hk Hne]%Hb).
    destruct Hne. by apply H2.
  - intros k1 k2 [? _]%Hb [? _]%Hb. by apply H2.
Qed.

Lemma stallInv_raise s s' k0 :
  branchStall s = false → branchStall s' = true →
  (∀ k, branchAt s' k ↔ branchAt s k ∨ k = k0) →
  stallInv s → stallInv s'.
Proof.
  intros Ef Ef' Hb [H1 H2].
  assert (∀ k, ¬ branchAt s k) as Hno.
  { intros k Hk. assert (branchStall s = true) by (apply H1; by exists k).
    congruence. }
  split.
  - rewrite Ef'. split; [|done]. intros _. exists k0. apply Hb. by right.
  - intros k1 k2 [?%Hno| ->]%Hb [?%Hno| ->]%Hb; done.
Qed.

Lemma branchAt_insert s s' k rs' k' :
  reservationStations s' = <[k := rs']> (reservationStations s) →
  (k < length (reservationStations s))%nat →
  branchAt s' k' ↔
    if decide (k' = k)
    then busy rs' = true ∧ ∃ o, rs_op rs' = Some o ∧ getOpType o = OpType.BRANCH
    else branchAt s k'.
Proof.
  intros Es Hk. unfold branchAt. rewrite Es.
  destruct (decide (k' = k)) as [->|Hne].
  - rewrite list_lookup_insert_eq by done. naive_solver.
  - by rewrite list_lookup_insert_ne.
Qed.

Lemma writeResult_stall bi be bw s :
  engineInv bi be bw s → stallInv s → stallInv (writeResult s).
Proof.
  intros Hinv. apply stallInv_same.
  { by destruct (writeResult_frame s) as (_ & _ & _ & _ & _ & ->). }
  intros k. unfold writeResult, branchAt.
  destruct (list_find _ _) as [[p r]|] eqn:Hfind; [|done]. simpl.
  apply list_find_Some in Hfind as (Hp & (Hbusy & _ & Hres) & _).
  destruct (inv_bound _ _ _ _ Hinv p r Hp Hbusy)
    as (j & X & Hj & _ & _ & _ & Hop & _ & Hr).
  destruct (Hr Hres) as [_ Hret].
  destruct (decide (k = p)) as [->|Hne].
  - rewrite list_lookup_alter, list_lookup_fmap, Hp.
    destruct (decide (p = p)); [|done]. simpl. split.
    + by intros (rs & o & [= <-] & ? & _).
    + intros (rs & o & [= <-] & _ & Ho & Hb). exfalso.
      rewrite Hop in Ho. injection Ho as <-. by rewrite Hb in Hret.
  - rewrite list_lookup_alter_ne, list_lookup_fmap by done.
    destruct (reservationStations s !! k) as [r0|]; simpl; [|naive_solver].
    destruct (captureOperands_fields (rs_id r) (default 0 (result r)) r0)
      as (_ & Eb & Eo).
    split.
    + intros (rs & o & [= <-] & Hb & Ho & Hbr). exists r0, o.
      rewrite <- Eb, <- Eo. done.
    + intros (rs & o & [= <-] & Hb & Ho & Hbr). eexists _, o.
      rewrite Eb, Eo. done.
Qed.

Section ExecuteStall.

Context (config : SystemConfig) (labels : gmap string Z).

Lemma finishExecution_flag rs inst s :
  let r := finishExecution labels rs inst s in
  branchStall r.2 =
    if decide (getOpType (op inst) = OpType.BRANCH ∧ execEndCycle inst = None ∧
               execEndCycle r.1.2 ≠ None)
    then false else branchStall s.
Proof.
  unfold finishExecution.
  destruct (decide (timeLeft rs = 0 ∧ _)) as [[_ He]|Hn]; simpl.
  - change (op (set_execEndCycle (Some (cycle s)) inst)) with (op inst).
    destruct (getOpType (op inst)) eqn:Eop; simpl; try done.
    by rewrite decide_True.
  - rewrite decide_False; [done|]. by intros (_ & ? & ?).
Qed.

Lemma executeStation_flag s k rs ik inst inst' :
  reservationStations s !! k = Some rs → busy rs = true →
  findInst (instId rs) (instructions s) = Some (ik, inst) →
  qj rs = None ∧ qk rs = None →
  instructions (executeStation config labels s k) !! ik = Some inst' →
  branchStall (executeStation config labels s k) =
    if decide (getOpType (op inst) = OpType.BRANCH ∧ execEndCycle inst = None ∧
               execEndCycle inst' ≠ None)
    then false else branchStall s.
Proof.
  intros Hk Hbusy Hf Hready. unfold executeStation. rewrite Hk, Hbusy. simpl.
  rewrite decide_True by done. rewrite Hf.
  destruct (startExecution_stamp config rs inst s) as (t0 & cch & lg0 & ->).
  destruct (tick_shape (set_timeLeft t0 rs)) as (t & ->).
  match goal with |- context [finishExecution _ ?r ?i ?st] =>
    pose proof (finishExecution_flag r i st) as Hflag;
    pose proof (finishExecution_timer labels r i st) as (Hi3 & _);
    destruct (finishExecution labels r i st) as [[rs3 inst3] s3] end.
  cbn zeta in Hflag. simpl in Hflag, Hi3. simpl.
  rewrite Hi3, list_lookup_insert_eq
    by (apply findInst_lookup in Hf; by eapply lookup_lt_Some).
  intros [= <-]. rewrite Hflag.
  destruct (stampStart_fields (cycle s) inst) as (_ & -> & _ & -> & _). done.
Qed.

Lemma executeStation_stall bi be bw s k :
  engineInv bi be bw s → stallInv s →
  stallInv (executeStation config labels s k).
Proof.
  intros Hinv Hst.
  destruct (executeStation_visit config labels s k) as [_ [->|Hv]]; [done|].
  destruct Hv as (rs & ik & inst & rs' & inst' & Hk & Hbusy & Hf & Hv & Hi & Hs).
  destruct (decide (qj rs = None ∧ qk rs = None)) as [Hne|Hnr].
  2:{ assert (executeStation config labels s k = s) as ->; [|done].
      unfold executeStation. rewrite Hk, Hbusy. simpl. by rewrite decide_False. }
  pose proof (lookup_lt_Some _ _ _ Hk) as Hlt.
  assert (instructions (executeStation config labels s k) !! ik = Some inst')
    as Hik.
  { rewrite Hi. apply list_lookup_insert_eq.
    apply findInst_lookup in Hf. by eapply lookup_lt_Some. }
  pose proof (executeStation_flag s k rs ik inst inst' Hk Hbusy Hf Hne Hik)
    as Hflag.
  destruct (inv_bound _ _ _ _ Hinv k rs Hk Hbusy) as (j & X & Hj & HbX).
  pose proof HbX as (Hid & _ & _ & Hop & _).
  rewrite Hid, (findInst_bound _ j X (inv_ids _ _ _ _ Hinv) Hj) in Hf.
  injection Hf as <- <-.
  destruct (stampStart_fields (cycle s) X) as (_ & F2 & _ & F4 & _).
  assert (branchAt s k ↔ getOpType (op X) = OpType.BRANCH) as Hat.
  { unfold branchAt. rewrite Hk. split.
    - intros (? & o & [= <-] & _ & Ho & ?). congruence.
    - intros Hb. by exists rs, (op X). }
  destruct Hv as [t|t He Hret|t v He Hret].
  - (* the timer runs *)
    eapply stallInv_same; [| |exact Hst].
    + rewrite Hflag, decide_False; [done|]. intros (_ & ? & ?). congruence.
    + intros k'. rewrite (branchAt_insert s _ k _ k' Hs Hlt).
      destruct (decide (k' = k)) as [->|]; [|done].
      unfold branchAt. rewrite Hk. simpl. naive_solver.
  - (* the instruction retires *)
    destruct (decide (getOpType (op X) = OpType.BRANCH)) as [Hbr|Hnb].
    + eapply (stallInv_release s _ k); [| | |exact Hst].
      * rewrite Hflag, decide_True; [done|]. by split_and!.
      * by apply Hat.
      * intros k'. rewrite (branchAt_insert s _ k _ k' Hs Hlt).
        destruct (decide (k' = k)) as [->|]; simpl; naive_solver.
    + eapply stallInv_same; [| |exact Hst].
      * rewrite Hflag, decide_False; [done|]. by intros (? & _).
      * intros k'. rewrite (branchAt_insert s _ k _ k' Hs Hlt).
        destruct (decide (k' = k)) as [->|]; [|done]. simpl. rewrite Hat.
        naive_solver.
  - (* the instruction leaves a result *)
    assert (getOpType (op X) ≠ OpType.BRANCH) as Hnb
      by (intros Hb; by rewrite Hb in Hret).
    eapply stallInv_same; [| |exact Hst].
    + rewrite Hflag, decide_False; [done|]. by intros (? & _).
    + intros k'. rewrite (branchAt_insert s _ k _ k' Hs Hlt).
      destruct (decide (k' = k)) as [->|]; [|done].
      unfold branchAt. rewrite Hk. simpl. naive_solver.
Qed.

End ExecuteStall.

Lemma issue_stall s : stallInv s → stallInv (issue s).
Proof.
  intros Hst.
  destruct (branchStall s) eqn:Hstall; [by rewrite issue_stalled|].
  destruct (issue_cases s Hstall)
    as [->|(ik & issueInst & ea & rsIndex & freeRS & Hiss & ->)]; [done|].
  destruct Hiss as (_ & _ & _ & Hfree).
  apply list_find_Some in Hfree as (Hrs & [_ Hidle] & _).
  pose proof (lookup_lt_Some _ _ _ Hrs) as Hlt.
  set (s1 := set_instructions (selectIssueInst (instructions s) (pc s)).1 s).
  assert (¬ branchAt s1 rsIndex) as Hfree.
  { intros (rs & o & Hk & Hb & _). simpl in Hk. congruence. }
  pose proof (commitIssue_stations s1 ik issueInst ea rsIndex freeRS) as Hs.
  pose proof (commitIssue_branchStall s1 ik issueInst ea rsIndex freeRS) as Hf.
  destruct (decide (getOpType (op issueInst) = OpType.BRANCH)) as [Hbr|Hnb].
  - eapply (stallInv_raise s1 _ rsIndex); [done|done| |exact Hst].
    intros k'. rewrite (branchAt_insert s1 _ rsIndex _ k' Hs Hlt).
    destruct (decide (k' = rsIndex)) as [->|]; simpl; naive_solver.
  - eapply (stallInv_same s1); [done| |exact Hst].
    intros k'. rewrite (branchAt_insert s1 _ rsIndex _ k' Hs Hlt).
    destruct (decide (k' = rsIndex)) as [->|]; [|done]. simpl. naive_solver.
Qed.

Lemma nextCycle_stall s config labels :
  wellFormed s → stallInv s → stallInv (nextCycle s config labels).
Proof.
  intros Hinv Hst. unfold nextCycle.
  destruct (isFinished s); [done|].
  destruct (checkCompletion_frame (issue (beforeIssue s config labels)))
    as (_ & _ & _ & Hs & _ & _ & Hb).
  eapply stallInv_same; [exact Hb|by unfold branchAt; rewrite Hs|].
  apply issue_stall. unfold beforeIssue.
  set (s1 := beginCycle s).
  assert (engineInv (cycle s) (cycle s) (cycle s) s1) as H1
    by (by eapply engineInv_ext; [| |exact Hinv]).
  assert (cycle s1 = cycle s + 1) as Hc1 by done.
  assert (stallInv (writeResult s1)) as Hst1
    by (by apply (writeResult_stall _ _ _ s1 H1)).
  apply writeResult_inv in H1; [|lia..].
  destruct (writeResult_frame s1) as (Hcw & _).
  apply (execute_invariant config labels stallInv (cycle s)).
  - intros y k _ Hy. by apply (executeStation_stall config labels _ _ _ y k Hy).
  - rewrite Hcw. eapply engineInv_mono; [| | |exact H1]; lia.
  - lia.
  - done.
Qed.

Lemma initializeState_stall insts config regs :
  stallInv (initializeState insts config regs).
Proof.
  assert (∀ k, ¬ branchAt (initializeState insts config regs) k) as Hno.
  { intros k (rs & o & Hk%list_elem_of_lookup_2 & Hb & _). simpl in Hk.
    unfold initialStations in Hk.
    apply list_elem_of_In, in_flat_map in Hk as (ty & _ & Hin).
    apply list_elem_of_In, list_elem_of_fmap in Hin as (x & -> & _). done. }
  split; simpl.
  - split; [done|]. by intros (k & ?%Hno).
  - by intros k1 k2 ?%Hno.
Qed.

(** X22.  The branch stall cannot be left up: in every state of a run the
    stall flag is set exactly when a busy reservation station holds a
    BRANCH, and at most one station does. *)
Theorem stall_while_branch_in_flight insts config regs labels n :
  NoDup (inst_id <$> insts) → Forall unstamped insts →
  stallInv (run n (initializeState insts config regs) config labels).
Proof.
  intros Hnd Hun. induction n as [|n IH]; simpl.
  - apply initializeState_stall.
  - apply nextCycle_stall; [|done].
    by apply run_wellFormed, initializeState_wellFormed.
Qed.

Lemma stall_while_branch_in_flight_witness :
  stallInv (run 1 branchStart exampleConfig (p_labels branchProgram)).
Proof.
  apply (stall_while_branch_in_flight (p_instructions branchProgram)
           exampleConfig exampleRegs (p_labels branchProgram) 1).
  - apply (bool_decide_unpack _). vm_compute. reflexivity.
  - vm_compute. repeat constructor.
Defined.

(** ** The program counter *)

Section ExecutePc.

Context (config : SystemConfig) (labels : gmap string Z).

Lemma finishExecution_pc rs inst s :
  let r := finishExecution labels rs inst s in
  pc r.2 = pc s ∨ ∃ l, labels !! l = Some (pc r.2).
Proof.
  unfold finishExecution. destruct (decide _) as [_|_]; [|by left].
  cbn zeta. change (op (set_execEndCycle (Some (cycle s)) inst)) with (op inst).
  destruct (getOpType (op inst)); simpl; try (by left).
  destruct (branchTaken _ _ _); [|by left].
  destruct (labels !! _) as [target|] eqn:Hl; simpl; [|by left].
  right. by eexists.
Qed.

Lemma executeStation_pc s k :
  pc (executeStation config labels s k) = pc s ∨
  ∃ l, labels !! l = Some (pc (executeStation config labels s k)).
Proof.
  unfold executeStation.
  destruct (reservationStations s !! k) as [rs|]; [|by left].
  destruct (busy rs); simpl; [|by left].
  destruct (decide _) as [_|_]; [|by left].
  destruct (findInst _ _) as [[ik inst]|]; [|by left].
  destruct (startExecution_stamp config rs inst s) as (t0 & cch & lg0 & ->).
  destruct (tick_shape (set_timeLeft t0 rs)) as (t & ->).
  match goal with |- context [finishExecution _ ?r ?i ?st] =>
    pose proof (finishExecution_pc r i st) as Hpc;
    destruct (finishExecution labels r i st) as [[rs3 inst3] s3] end.
  exact Hpc.
Qed.

End ExecutePc.

Lemma issue_pc s :
  pc (issue s) = pc s ∨
  pc (issue s) = pc s + 4 ∧ ∃ i, i ∈ instructions s ∧ pcAddress i = pc s.
Proof.
  destruct (branchStall s) eqn:Hstall; [left; by rewrite issue_stalled|].
  destruct (issue_cases s Hstall)
    as [->|(ik & issueInst & ea & rsIndex & freeRS & Hiss & ->)]; [by left|].
  right. rewrite commitIssue_pc. split; [done|].
  destruct Hiss as (_ & Hsel & _).
  apply selectIssueInst_lookup in Hsel as (Hik & _ & Hpc).
  destruct (selectIssueInst_instancesOf (instructions s) (pc s) issueInst)
    as (i & Hi & E); [by eapply list_elem_of_lookup_2|].
  exists i. split; [done|]. unfold staticFields in E. congruence.
Qed.

Lemma nextCycle_pc (N : nat) s config labels :
  (∀ i, i ∈ instructions s →
        ∃ k, (k < N)%nat ∧ pcAddress i = 4 * Z.of_nat k) →
  (∀ l a, labels !! l = Some a → ∃ k, (k ≤ N)%nat ∧ a = 4 * Z.of_nat k) →
  (∃ k, (k ≤ N)%nat ∧ pc s = 4 * Z.of_nat k) →
  ∃ k, (k ≤ N)%nat ∧ pc (nextCycle s config labels) = 4 * Z.of_nat k.
Proof.
  intros Hins Hlab Hpc. unfold nextCycle. destruct (isFinished s); [done|].
  destruct (checkCompletion_frame (issue (beforeIssue s config labels)))
    as (_ & -> & _).
  assert (∃ k, (k ≤ N)%nat ∧ pc (beforeIssue s config labels) = 4 * Z.of_nat k)
    as Hb.
  { unfold beforeIssue, execute.
    apply (foldl_invariant (λ y, ∃ k, (k ≤ N)%nat ∧ pc y = 4 * Z.of_nat k)).
    - intros y k Hy.
      destruct (executeStation_pc config labels y k) as [->|(l & Hl)]; [done|].
      by apply Hlab in Hl.
    - by destruct (writeResult_frame (beginCycle s)) as (_ & -> & _). }
  destruct (issue_pc (beforeIssue s config labels)) as [->|(-> & i & Hi & Ha)];
    [done|].
  destruct (execute_instancesOf config labels (writeResult (beginCycle s)) i Hi)
    as (i1 & Hi1 & E1).
  destruct (writeResult_instancesOf (beginCycle s) i1 Hi1) as (i0 & Hi0 & E0).
  destruct (Hins i0 Hi0) as (k & Hk & Hk').
  exists (S k). split; [lia|].
  unfold staticFields in E1, E0. rewrite <- Ha.
  replace (pcAddress i) with (pcAddress i0) by congruence. lia.
Qed.


(** * The engine of [services/tomasulo.ts] *)

(** ** The phases *)

Lemma set_a_id r : Services.set_a (a r) r = r.
Proof. by destruct r. Qed.

(** With pairwise distinct station names the station the write-back phase
    resets is the producer, as in the engine above. *)
Lemma services_writeResult_eq s :
  NoDup (rs_id <$> reservationStations s) →
  Services.writeResult s = writeResult s.
Proof.
  intros Hnd. unfold Services.writeResult, writeResult.
  destruct (list_find _ _) as [[p r]|] eqn:Hfind; [|done]. simpl.
  apply list_find_Some in Hfind as (Hp & _ & _).
  set (t := rs_id r). set (v := default 0 (result r)).
  assert (list_find (λ r', rs_id r' = t)
            (captureOperands t v <$> reservationStations s)
          = Some (p, captureOperands t v r)) as ->; [|done].
  apply list_find_Some. split_and!.
  - by rewrite list_lookup_fmap, Hp.
  - by destruct (captureOperands_fields t v r) as (-> & _).
  - intros j y Hj Hlt Hy.
    rewrite list_lookup_fmap in Hj.
    destruct (reservationStations s !! j) as [rj|] eqn:Hrj; [|done].
    simpl in Hj. injection Hj as <-.
    destruct (captureOperands_fields t v rj) as (Ey & _). rewrite Ey in Hy.
    assert (j = p); [|lia].
    eapply (NoDup_lookup _ _ _ t Hnd); rewrite list_lookup_fmap.
    + by rewrite Hrj, <- Hy.
    + by rewrite Hp.
Qed.

Section ServicesExecute.

Context (config : SystemConfig) (labels : gmap string Z).

Lemma services_startExecution_shape rs inst s :
  ∃ t1 x cch,
    (∃ l, Services.startExecution config rs inst s =
            (set_timeLeft t1 (Services.set_a x rs), stampStart (cycle s) inst,
             {| cycle := cycle s; pc := pc s; instructions := instructions s;
                reservationStations := reservationStations s;
                registers := registers s; memory := memory s; cache := cch;
                cdb := cdb s; log := log s ++ l; isFinished := isFinished s;
                branchStall := branchStall s |})) ∧
    match execStartCycle inst with
    | None =>
        allowedLatency config inst t1 ∧
        x = (if decide (getOpType (op inst) = OpType.LOAD ∨
                        getOpType (op inst) = OpType.STORE)
             then Some (default 0 (vj rs) + default 0 (a rs)) else a rs)
    | Some _ => t1 = timeLeft rs ∧ x = a rs
    end ∧
    (cch = cache s ∨ ∃ addr, cch = newCache (accessCache addr config (cache s) (cycle s))).
Proof.
  unfold Services.startExecution, stampStart, allowedLatency.
  destruct (execStartCycle inst) eqn:E.
  { exists (timeLeft rs), (a rs), (cache s).
    rewrite set_a_id, set_timeLeft_id. split; [|by split; [|left]].
    exists []. rewrite app_nil_r. by destruct s. }
  cbn zeta. change (op (set_execStartCycle (Some (cycle s)) inst)) with (op inst).
  destruct (decide (getOpType (op inst) = OpType.LOAD ∨
                    getOpType (op inst) = OpType.STORE)) as [Hm|Hm];
    [destruct (decide (getOpType (op inst) = OpType.LOAD)) as [Hl|Hl]|].
  - set (addr := default 0 (vj rs) + default 0 (a rs)).
    destruct (hit (accessCache addr config (cache s) (cycle s))) eqn:Hhit.
    + exists (latencies config OpType.LOAD + 0), (Some addr),
        (newCache (accessCache addr config (cache s) (cycle s))).
      split; [|split; [split|]].
      * exists []. rewrite app_nil_r. by destruct s.
      * left. rewrite Hl. lia.
      * done.
      * right. by eexists.
    + exists (latencies config OpType.LOAD
              + penalty (accessCache addr config (cache s) (cycle s))),
        (Some addr), (newCache (accessCache addr config (cache s) (cycle s))).
      split; [|split; [split|]].
      * eexists. by destruct s.
      * right. split; [done|]. revert Hhit. unfold accessCache.
        destruct (enabled (cacheConfig config)); simpl; [|done].
        by destruct (list_find _ _) as [[??]|].
      * done.
      * right. by eexists.
  - exists (latencies config OpType.STORE),
      (Some (default 0 (vj rs) + default 0 (a rs))), (cache s).
    split; [|split; [split|]].
    + exists []. rewrite app_nil_r. by destruct s.
    + left. destruct Hm as [Hm|Hm]; [by destruct Hl|by rewrite Hm].
    + done.
    + by left.
  - exists (latencies config (getOpType (op inst))), (a rs), (cache s).
    rewrite set_a_id. split; [|split; [split|]].
    + exists []. rewrite app_nil_r. by destruct s.
    + by left.
    + done.
    + by left.
Qed.

Lemma services_finishExecution_outcome rs inst s :
  (¬ (timeLeft rs = 0 ∧ execEndCycle inst = None) ∧
   Services.finishExecution labels rs inst s = (rs, inst, s)) ∨
  (timeLeft rs = 0 ∧ execEndCycle inst = None ∧
   retiresAtExecute (getOpType (op inst)) = true ∧
   ∃ p mem l,
     Services.finishExecution labels rs inst s =
       (clearStation rs,
        set_writeCycle (Some (cycle s)) (set_execEndCycle (Some (cycle s)) inst),
        {| cycle := cycle s; pc := p; instructions := instructions s;
           reservationStations := reservationStations s;
           registers := registers s; memory := mem; cache := cache s;
           cdb := cdb s; log := log s ++ l; isFinished := isFinished s;
           branchStall :=
             if decide (getOpType (op inst) = OpType.BRANCH) then false
             else branchStall s |}) ∧
     (p = pc s ∨ ∃ lbl, labels !! lbl = Some p) ∧
     (mem = memory s ∨
      getOpType (op inst) = OpType.STORE ∧
      mem = <[default 0 (a rs) := default 0 (vk rs)]> (memory s))) ∨
  (timeLeft rs = 0 ∧ execEndCycle inst = None ∧
   retiresAtExecute (getOpType (op inst)) = false ∧
   ∃ v, Services.finishExecution labels rs inst s =
          (set_result (Some v) rs, set_execEndCycle (Some (cycle s)) inst, s)).
Proof.
  unfold Services.finishExecution.
  destruct (decide (timeLeft rs = 0 ∧ execEndCycle inst = None)) as [[Ht He]|Hn];
    [|by left].
  right. cbn zeta.
  change (op (set_execEndCycle (Some (cycle s)) inst)) with (op inst).
  unfold retiresAtExecute.
  destruct (getOpType (op inst)) eqn:Eop;
    try (right; split_and!; [done|done|by vm_compute|by eexists]).
  - left. split_and!; [done|done|by vm_compute|].
    eexists (pc s), _, []. rewrite app_nil_r. simpl.
    split_and!; [by destruct s|by left|by right].
  - left. split_and!; [done|done|by vm_compute|].
    destruct (branchTaken _ _ _); [destruct (labels !! _) as [tg|] eqn:Hl|]; simpl.
    + eexists tg, (memory s), _. split_and!; [by destruct s|right; by eexists|by left].
    + eexists (pc s), (memory s), []. rewrite app_nil_r.
      split_and!; [by destruct s|by left|by left].
    + eexists (pc s), (memory s), []. rewrite app_nil_r.
      split_and!; [by destruct s|by left|by left].
Qed.

(** A visit of the execute phase, in full. *)
Lemma services_executeStation_visit s k :
  let s' := Services.executeStation config labels s k in
  cycle s' = cycle s ∧ cdb s' = cdb s ∧ registers s' = registers s ∧
  isFinished s' = isFinished s ∧ (∃ l, log s' = log s ++ l) ∧
  (cache s' = cache s ∨
   ∃ addr, cache s' = newCache (accessCache addr config (cache s) (cycle s))) ∧
  (pc s' = pc s ∨ ∃ lbl, labels !! lbl = Some (pc s')) ∧
  (s' = s ∧
   (∀ rs, reservationStations s !! k = Some rs → busy rs = true →
          qj rs = None → qk rs = None →
          findInst (instId rs) (instructions s) = None) ∨
   ∃ rs ik inst t1 x rs' inst',
     reservationStations s !! k = Some rs ∧ busy rs = true ∧
     qj rs = None ∧ qk rs = None ∧
     findInst (instId rs) (instructions s) = Some (ik, inst) ∧
     match execStartCycle inst with
     | None =>
         allowedLatency config inst t1 ∧
         x = (if decide (getOpType (op inst) = OpType.LOAD ∨
                         getOpType (op inst) = OpType.STORE)
              then Some (default 0 (vj rs) + default 0 (a rs)) else a rs)
     | Some _ => t1 = timeLeft rs ∧ x = a rs
     end ∧
     instructions s' = <[ik := inst']> (instructions s) ∧
     reservationStations s' = <[k := rs']> (reservationStations s) ∧
     let rs0 := set_timeLeft (if 0 <? t1 then t1 - 1 else t1) (Services.set_a x rs) in
     (¬ (timeLeft rs0 = 0 ∧ execEndCycle inst = None) ∧
      rs' = rs0 ∧ inst' = stampStart (cycle s) inst ∧
      branchStall s' = branchStall s ∧ memory s' = memory s) ∨
     (timeLeft rs0 = 0 ∧ execEndCycle inst = None ∧
      retiresAtExecute (getOpType (op inst)) = true ∧
      rs' = clearStation rs0 ∧
      inst' = set_writeCycle (Some (cycle s))
                (set_execEndCycle (Some (cycle s)) (stampStart (cycle s) inst)) ∧
      branchStall s' = (if decide (getOpType (op inst) = OpType.BRANCH)
                        then false else branchStall s) ∧
      (memory s' = memory s ∨
       getOpType (op inst) = OpType.STORE ∧
       memory s' = <[default 0 x := default 0 (vk rs)]> (memory s))) ∨
     (timeLeft rs0 = 0 ∧ execEndCycle inst = None ∧
      retiresAtExecute (getOpType (op inst)) = false ∧
      (∃ v, rs' = set_result (Some v) rs0) ∧
      inst' = set_execEndCycle (Some (cycle s)) (stampStart (cycle s) inst) ∧
      branchStall s' = branchStall s ∧ memory s' = memory s)).
Proof.
  assert (∃ l, log s = log s ++ l) as Hnil by (exists []; by rewrite app_nil_r).
  unfold Services.executeStation.
  destruct (reservationStations s !! k) as [rs|] eqn:Hk;
    [|by split_and!; auto; left].
  destruct (busy rs) eqn:Hbusy; simpl.
  2:{ split_and!; auto. left. split; [done|]. intros ? [= <-]. congruence. }
  destruct (decide _) as [[Hj Hq]|Hnr].
  2:{ split_and!; auto. left. split; [done|]. intros ? [= <-] _ ??.
      by destruct Hnr. }
  destruct (findInst _ _) as [[ik inst]|] eqn:Hf.
  2:{ split_and!; auto. left. split; [done|]. by intros ? [= <-]. }
  destruct (services_startExecution_shape rs inst s)
    as (t1 & x & cch & (l1 & ->) & Hstart & Hcch).
  rewrite tick_timer.
  destruct (stampStart_fields (cycle s) inst) as (_ & F2 & _ & F4 & _).
  set (rs0 := set_timeLeft (if 0 <? t1 then t1 - 1 else t1) (Services.set_a x rs)).
  match goal with |- context [Services.finishExecution _ _ ?i ?st] =>
    destruct (services_finishExecution_outcome rs0 i st)
      as [[Hn ->]|[(Ht & He & Hr & p & mem & l2 & -> & Hp & Hm)
                  |(Ht & He & Hr & v & ->)]] end;
    simpl in *; rewrite ?F2, ?F4 in *.
  - do 4 (split; [done|]). split; [by eexists|]. split; [done|].
    split; [by left|].
    right. exists rs, ik, inst, t1, x, rs0, (stampStart (cycle s) inst).
    do 7 (split; [done|]). split; [done|]. left. by split_and!.
  - do 4 (split; [done|]). split; [rewrite <- app_assoc; by eexists|].
    split; [done|]. split; [done|].
    right. exists rs, ik, inst, t1, x. eexists _, _.
    do 7 (split; [done|]). split; [done|]. right. left.
    do 5 (split; [done|]). split; [done|].
    destruct Hm as [->|[Hst ->]]; [by left|right]. split; [done|].
    subst rs0. by destruct rs.
  - do 4 (split; [done|]). split; [by eexists|]. split; [done|].
    split; [by left|].
    right. exists rs, ik, inst, t1, x. eexists _, _.
    do 7 (split; [done|]). split; [done|]. right. right.
    do 3 (split; [done|]). split; [by eexists|]. by split_and!.
Qed.

End ServicesExecute.

(** ** The invariant of the engine *)

Lemma bound_set_a x rs i : bound rs i → bound (Services.set_a x rs) i.
Proof. intros H. eapply bound_sameBinding; [exact H|done]. Qed.

Section ServicesInv.

Context (config : SystemConfig) (labels : gmap string Z).

(** The outcome of a visit, for the station with its address slot filled. *)
Lemma services_visitOutcome s k :
  let s' := Services.executeStation config labels s k in
  s' = s ∨
  ∃ rs ik inst x rs' inst',
    reservationStations s !! k = Some rs ∧ busy rs = true ∧
    findInst (instId rs) (instructions s) = Some (ik, inst) ∧
    visitOutcome (cycle s) (Services.set_a x rs) inst rs' inst' ∧
    instructions s' = <[ik := inst']> (instructions s) ∧
    reservationStations s' = <[k := rs']> (reservationStations s).
Proof.
  destruct (services_executeStation_visit config labels s k)
    as (_ & _ & _ & _ & _ & _ & _ & [[? _]|Hv]); [by left|right].
  destruct Hv as (rs & ik & inst & t1 & x & rs' & inst' & Hk & Hb & _ & _ & Hf
                  & _ & Hi & Hs & Hout).
  exists rs, ik, inst, x, rs', inst'. split_and!; try done.
  cbn zeta in Hout.
  destruct Hout as [(_ & -> & -> & _)|[(_ & He & Hr & -> & -> & _)
                                      |(_ & He & Hr & (v & ->) & -> & _)]].
  - constructor.
  - by constructor.
  - by constructor.
Qed.

Lemma services_executeStation_inv bi s k :
  engineInv bi (cycle s) (cycle s) s → bi < cycle s →
  engineInv bi (cycle s) (cycle s) (Services.executeStation config labels s k).
Proof.
  intros Hinv Hlt.
  destruct (services_visitOutcome s k) as [->|Hv]; [done|].
  destruct Hv as (rs & ik & inst & x & rs' & inst' & Hk & Hbusy & Hf & Hv & Hi & Hs).
  destruct (inv_bound _ _ _ _ Hinv k rs Hk Hbusy) as (j & X & Hj & HbX).
  pose proof HbX as (Hid & _).
  rewrite Hid, (findInst_bound _ j X (inv_ids _ _ _ _ Hinv) Hj) in Hf.
  injection Hf as <- <-.
  pose proof (proj1 (Forall_lookup _ _) (inv_stamps _ _ _ _ Hinv) j X Hj) as Hok.
  destruct (visitOutcome_inv bi (cycle s) _ X rs' inst' Hv
              (bound_set_a x rs X HbX) Hok Hlt) as (Hid' & Hok' & Hb').
  eapply (engineInv_update _ _ _ s _ j X inst' k Hinv Hj Hi Hid' Hok').
  - intros k' r0 Hk' Hb0 Hi0.
    apply (inv_inj _ _ _ _ Hinv k' k r0 rs Hk' Hk Hb0 Hbusy). congruence.
  - intros k' r' Hk' Hbr'. rewrite Hs in Hk'.
    destruct (decide (k' = k)) as [->|Hne].
    + rewrite list_lookup_insert_eq in Hk' by (by eapply lookup_lt_Some).
      injection Hk' as <-. auto.
    + rewrite list_lookup_insert_ne in Hk' by done.
      exists r'. done.
Qed.

Lemma services_executeStation_names s k :
  stationName <$> reservationStations (Services.executeStation config labels s k)
  = stationName <$> reservationStations s.
Proof.
  destruct (services_visitOutcome s k) as [->|Hv]; [done|].
  destruct Hv as (rs & ik & inst & x & rs' & inst' & Hk & _ & _ & Hv & _ & ->).
  apply (fmap_insert_same _ _ _ rs); [done|]. by destruct Hv.
Qed.

(** An invariant of the visits is an invariant of the execute phase. *)
Lemma services_execute_invariant (Q : SimulationState → Prop) bi s :
  (∀ y k, cycle y = cycle s → engineInv bi (cycle y) (cycle y) y → Q y →
          Q (Services.executeStation config labels y k)) →
  engineInv bi (cycle s) (cycle s) s → bi < cycle s → Q s →
  engineInv bi (cycle s) (cycle s) (Services.execute config labels s) ∧
  cycle (Services.execute config labels s) = cycle s ∧
  Q (Services.execute config labels s).
Proof.
  intros Hstep Hinv Hlt HQ. unfold Services.execute.
  cut (cycle (foldl (Services.executeStation config labels) s
                (seq 0 (length (reservationStations s)))) = cycle s ∧
       engineInv bi (cycle s) (cycle s)
         (foldl (Services.executeStation config labels) s
            (seq 0 (length (reservationStations s)))) ∧
       Q (foldl (Services.executeStation config labels) s
            (seq 0 (length (reservationStations s))))); [by intros (? & ? & ?)|].
  apply (foldl_invariant
           (λ y, cycle y = cycle s ∧ engineInv bi (cycle s) (cycle s) y ∧ Q y));
    [|done].
  intros y k (Hc & Hy & Hq).
  destruct (services_executeStation_visit config labels y k) as [Hc' _].
  split_and!.
  - congruence.
  - rewrite <- Hc. apply services_executeStation_inv; by rewrite Hc.
  - apply Hstep; [done|by rewrite Hc|done].
Qed.

End ServicesInv.

(** The issue phase issues the instruction found at [ik] into the free
    station found at [rsIndex], or does nothing. *)
Lemma services_issue_cases s :
  Services.issue s = s ∨
  ∃ ik issueInst rsIndex freeRS,
    branchStall s = false ∧
    list_find (λ i, pcAddress i = pc s ∧ issueCycle i = None) (instructions s)
      = Some (ik, issueInst) ∧
    list_find (freeStation (getRSType (getOpType (op issueInst))))
      (reservationStations s) = Some (rsIndex, freeRS) ∧
    Services.issue s = Services.commitIssue s ik issueInst rsIndex freeRS.
Proof.
  unfold Services.issue. destruct (branchStall s); [by left|].
  destruct (list_find _ (instructions s)) as [[ik issueInst]|]; [|by left].
  destruct (list_find _ (reservationStations s)) as [[rsIndex freeRS]|] eqn:Hf;
    [|by left].
  right. by exists ik, issueInst, rsIndex, freeRS.
Qed.

Lemma services_commitIssue_fields s ik issueInst rsIndex freeRS :
  let s' := Services.commitIssue s ik issueInst rsIndex freeRS in
  instructions s' = <[ik := set_issueCycle (Some (cycle s)) issueInst]> (instructions s) ∧
  reservationStations s' =
    <[rsIndex :=
        occupy freeRS issueInst
          (Services.firstOperand (registers s) (cdb s) issueInst)
          (Services.secondOperand (registers s) (cdb s)
             (getOpType (op issueInst)) issueInst)
          (Services.addressSlot (getOpType (op issueInst)) issueInst)]>
      (reservationStations s) ∧
  registers s' = renameDest (getOpType (op issueInst)) (dest issueInst)
                   (rs_id freeRS) (registers s) ∧
  pc s' = pc s + 4 ∧
  branchStall s' = (if decide (getOpType (op issueInst) = OpType.BRANCH)
                    then true else branchStall s) ∧
  cycle s' = cycle s ∧ cdb s' = cdb s ∧ memory s' = memory s ∧
  cache s' = cache s ∧ log s' = log s ∧ isFinished s' = isFinished s.
Proof. unfold Services.commitIssue. by destruct (decide _). Qed.

Lemma services_issue_frame s :
  cycle (Services.issue s) = cycle s ∧ cdb (Services.issue s) = cdb s ∧
  memory (Services.issue s) = memory s ∧ cache (Services.issue s) = cache s ∧
  log (Services.issue s) = log s ∧ isFinished (Services.issue s) = isFinished s.
Proof.
  destruct (services_issue_cases s) as [->|(ik & i & k & r & _ & _ & _ & ->)];
    [done|].
  destruct (services_commitIssue_fields s ik i k r)
    as (_ & _ & _ & _ & _ & -> & -> & -> & -> & -> & ->). done.
Qed.

Lemma services_issue_inv bi s :
  engineInv bi (cycle s) (cycle s) s → bi ≤ cycle s →
  wellFormed (Services.issue s).
Proof.
  intros Hinv Hle. unfold wellFormed.
  destruct (services_issue_frame s) as (Hc & _). rewrite Hc.
  apply (engineInv_mono bi _ _ (cycle s) (cycle s) (cycle s)) in Hinv; [|lia..].
  destruct (services_issue_cases s)
    as [->|(ik & issueInst & rsIndex & freeRS & _ & Hsel & Hfree & ->)]; [done|].
  apply list_find_Some in Hsel as (Hik & [_ Hnone] & _).
  apply list_find_Some in Hfree as (Hrs & [Hty Hidle] & _).
  destruct (services_commitIssue_fields s ik issueInst rsIndex freeRS)
    as (Ei & Es & _).
  pose proof (proj1 (Forall_lookup _ _) (inv_stamps _ _ _ _ Hinv) ik _ Hik) as Hok.
  pose proof (stampsOk_unissued _ _ _ _ Hok Hnone) as Hun.
  eapply (engineInv_update _ _ _ s _ ik issueInst _ rsIndex Hinv Hik Ei).
  - done.
  - apply stampsOk_issue; [done|]. lia.
  - intros k' r Hk' Hb Hi. exfalso.
    destruct (inv_bound _ _ _ _ Hinv k' r Hk' Hb)
      as (j & Y & Hj & HiY & HissY & _).
    assert (j = ik) as ->.
    { eapply (NoDup_lookup _ _ _ _ (inv_ids _ _ _ _ Hinv));
        rewrite list_lookup_fmap.
      - by rewrite Hj.
      - rewrite Hik. simpl. congruence. }
    congruence.
  - intros k' r' Hk' Hb'. rewrite Es in Hk'.
    destruct (decide (k' = rsIndex)) as [->|Hne].
    + rewrite list_lookup_insert_eq in Hk' by (by eapply lookup_lt_Some).
      injection Hk' as <-. destruct Hun as (_ & _ & _ & Hw).
      unfold bound; simpl. split_and!; done.
    + rewrite list_lookup_insert_ne in Hk' by done.
      exists r'. done.
Qed.

Lemma services_issue_names s :
  stationName <$> reservationStations (Services.issue s)
  = stationName <$> reservationStations s.
Proof.
  destruct (services_issue_cases s)
    as [->|(ik & issueInst & rsIndex & freeRS & _ & _ & Hfree & ->)]; [done|].
  apply list_find_Some in Hfree as (Hrs & _).
  destruct (services_commitIssue_fields s ik issueInst rsIndex freeRS)
    as (_ & -> & _).
  by apply (fmap_insert_same _ _ _ freeRS).
Qed.

Lemma services_checkCompletion_frame s :
  cycle (Services.checkCompletion s) = cycle s ∧
  pc (Services.checkCompletion s) = pc s ∧
  instructions (Services.checkCompletion s) = instructions s ∧
  reservationStations (Services.checkCompletion s) = reservationStations s ∧
  registers (Services.checkCompletion s) = registers s ∧
  cdb (Services.checkCompletion s) = cdb s ∧
  branchStall (Services.checkCompletion s) = branchStall s ∧
  memory (Services.checkCompletion s) = memory s ∧
  cache (Services.checkCompletion s) = cache s.
Proof. unfold Services.checkCompletion. by destruct (allWritten s). Qed.

Lemma names_apart s s' :
  stationName <$> reservationStations s' = stationName <$> reservationStations s →
  NoDup (rs_id <$> reservationStations s) →
  NoDup (rs_id <$> reservationStations s').
Proof.
  intros E. change rs_id with (fst ∘ stationName).
  by rewrite !(list_fmap_compose stationName fst), E.
Qed.

Lemma services_beforeIssue_names s config labels :
  NoDup (rs_id <$> reservationStations s) →
  stationName <$> reservationStations (Services.beforeIssue s config labels)
  = stationName <$> reservationStations s.
Proof.
  intros Hnd. unfold Services.beforeIssue, Services.execute.
  rewrite (foldl_preserved _ (λ y, stationName <$> reservationStations y)).
  - rewrite services_writeResult_eq by done. apply (writeResult_names (beginCycle s)).
  - intros y k. apply services_executeStation_names.
Qed.

Lemma services_nextCycle_names s config labels :
  NoDup (rs_id <$> reservationStations s) →
  stationName <$> reservationStations (Services.nextCycle s config labels)
  = stationName <$> reservationStations s.
Proof.
  intros Hnd. unfold Services.nextCycle. destruct (isFinished s); [done|].
  destruct (services_checkCompletion_frame
              (Services.issue (Services.beforeIssue s config labels)))
    as (_ & _ & _ & -> & _).
  rewrite services_issue_names. by apply services_beforeIssue_names.
Qed.

Lemma services_nextCycle_wellFormed s config labels :
  NoDup (rs_id <$> reservationStations s) →
  wellFormed s → wellFormed (Services.nextCycle s config labels).
Proof.
  intros Hnd Hinv. unfold Services.nextCycle.
  destruct (isFinished s); [done|].
  unfold wellFormed.
  destruct (services_checkCompletion_frame
              (Services.issue (Services.beforeIssue s config labels)))
    as (Hc & _ & Hi & Hs & _).
  rewrite Hc. eapply engineInv_ext; [exact Hi|exact Hs|].
  unfold Services.beforeIssue. rewrite services_writeResult_eq by done.
  set (s1 := beginCycle s).
  assert (engineInv (cycle s) (cycle s) (cycle s) s1) as H1
    by (by eapply engineInv_ext; [| |exact Hinv]).
  assert (cycle s1 = cycle s + 1) as Hc1 by done.
  apply writeResult_inv in H1; [|lia..].
  destruct (writeResult_frame s1) as (Hcw & _).
  assert (engineInv (cycle s) (cycle (writeResult s1)) (cycle (writeResult s1))
            (writeResult s1)) as H2
    by (rewrite Hcw; eapply engineInv_mono; [| | |exact H1]; lia).
  destruct (services_execute_invariant config labels (λ _, True) (cycle s)
              (writeResult s1)) as (H3 & Hce & _); [done|done|lia|done|].
  rewrite <- Hce in H3. apply (services_issue_inv (cycle s)); [done|].
  rewrite Hce, Hcw. lia.
Qed.

Lemma services_run_wellFormed n s config labels :
  NoDup (rs_id <$> reservationStations s) → wellFormed s →
  NoDup (rs_id <$> reservationStations (Services.run n s config labels)) ∧
  wellFormed (Services.run n s config labels).
Proof.
  intros Hnd Hinv. induction n as [|n [IH1 IH2]]; simpl; [done|]. split.
  - eapply names_apart; [by apply services_nextCycle_names|done].
  - by apply services_nextCycle_wellFormed.
Qed.

Lemma initialStations_apart insts config regs :
  NoDup (rs_id <$> reservationStations (initializeState insts config regs)).
Proof. apply initialStations_ids. by apply (bool_decide_unpack _). Qed.

(** ** Runs of the engine of [services/tomasulo.ts] *)

(** X24.  The invariant of the engine holds for the engine of
    [services/tomasulo.ts] as well: in every state of a run started from a
    program with pairwise distinct identities and null timestamps, the
    identities are pairwise distinct, the timestamps of every instruction
    are consistent and bounded by the cycle counter, every busy station
    holds an issued and unwritten instruction of the list, of the class of
    the station, and no two busy stations hold the same instruction. *)
Theorem services_engine_invariant insts config regs labels n :
  NoDup (inst_id <$> insts) → Forall unstamped insts →
  let s := Services.run n (initializeState insts config regs) config labels in
  NoDup (inst_id <$> instructions s) ∧
  Forall (stampsOk (cycle s) (cycle s) (cycle s)) (instructions s) ∧
  (∀ k rs, reservationStations s !! k = Some rs → busy rs = true →
     ∃ j inst, instructions s !! j = Some inst ∧ bound rs inst) ∧
  (∀ k1 k2 r1 r2,
     reservationStations s !! k1 = Some r1 →
     reservationStations s !! k2 = Some r2 →
     busy r1 = true → busy r2 = true → instId r1 = instId r2 → k1 = k2).
Proof.
  intros Hnd Hun s.
  destruct (services_run_wellFormed n (initializeState insts config regs)
              config labels) as [_ [H1 H2 H3 H4]].
  - apply initialStations_apart.
  - by apply initializeState_wellFormed.
  - done.
Qed.

Lemma services_engine_invariant_witness :
  let s := Services.run 20 sequentialStart exampleConfig
             (p_labels sequentialProgram) in
  NoDup (inst_id <$> instructions s) ∧
  Forall (stampsOk (cycle s) (cycle s) (cycle s)) (instructions s) ∧
  (∀ k rs, reservationStations s !! k = Some rs → busy rs = true →
     ∃ j inst, instructions s !! j = Some inst ∧ bound rs inst) ∧
  (∀ k1 k2 r1 r2,
     reservationStations s !! k1 = Some r1 →
     reservationStations s !! k2 = Some r2 →
     busy r1 = true → busy r2 = true → instId r1 = instId r2 → k1 = k2).
Proof.
  apply (services_engine_invariant (p_instructions sequentialProgram)
           exampleConfig exampleRegs (p_labels sequentialProgram) 20).
  - apply (bool_decide_unpack _). vm_compute. reflexivity.
  - vm_compute. repeat constructor.
Defined.

Lemma services_nextCycle_unfinished s config labels :
  isFinished s = false →
  Services.nextCycle s config labels
  = Services.checkCompletion (Services.issue (Services.beforeIssue s config labels)).
Proof. intros H. unfold Services.nextCycle. by rewrite H. Qed.

Lemma services_beforeIssue_frame s config labels :
  cycle (Services.beforeIssue s config labels) = cycle s + 1 ∧
  isFinished (Services.beforeIssue s config labels) = isFinished s ∧
  cdb (Services.beforeIssue s config labels) =
    match list_find readyToWrite (reservationStations s) with
    | Some (_, r) => Some {| cdb_tag := rs_id r; cdb_value := default 0 (result r) |}
    | None => None
    end.
Proof.
  unfold Services.beforeIssue, Services.execute.
  rewrite !(foldl_preserved _ cycle), !(foldl_preserved _ isFinished),
    !(foldl_preserved _ cdb);
    try (intros y k; apply (services_executeStation_visit config labels y k)).
  unfold Services.writeResult. simpl.
  destruct (list_find _ _) as [[p r]|]; [|done]. simpl.
  by destruct (list_find _ _) as [[??]|].
Qed.

Lemma services_nextCycle_finished s config labels :
  isFinished s = false →
  isFinished (Services.nextCycle s config labels) = true ↔
  ∀ i, i ∈ instructions (Services.nextCycle s config labels) → writeCycle i ≠ None.
Proof.
  intros Hf. rewrite services_nextCycle_unfinished by done.
  set (s3 := Services.issue (Services.beforeIssue s config labels)).
  assert (isFinished s3 = false) as Hf3.
  { subst s3. destruct (services_issue_frame (Services.beforeIssue s config labels))
      as (_ & _ & _ & _ & _ & ->).
    by destruct (services_beforeIssue_frame s config labels) as (_ & -> & _). }
  destruct (services_checkCompletion_frame s3) as (_ & _ & -> & _).
  rewrite <- allWritten_spec. unfold Services.checkCompletion.
  destruct (allWritten s3); simpl; [done|]. by rewrite Hf3.
Qed.

(** X25.  In the engine of [services/tomasulo.ts] the run is finished as
    soon as every instruction is written, whatever the PC: after every
    step of a run started by [initializeState], the finished flag is set
    exactly when every instruction has a non-null [writeCycle]. *)
Theorem services_finished_when_written insts config regs labels n :
  let s := Services.run (S n) (initializeState insts config regs) config labels in
  isFinished s = true ↔ ∀ i, i ∈ instructions s → writeCycle i ≠ None.
Proof.
  induction n as [|n IH].
  - simpl. by apply services_nextCycle_finished.
  - cbn zeta in IH |- *.
    change (Services.run (S (S n)) ?s ?c ?l)
      with (Services.nextCycle (Services.run (S n) s c l) c l).
    destruct (isFinished (Services.run (S n) _ _ _)) eqn:Hf.
    + unfold Services.nextCycle. rewrite Hf. rewrite Hf. exact IH.
    + by apply services_nextCycle_finished.
Qed.

Lemma visitOutcome_id c rs X rs' X' :
  visitOutcome c rs X rs' X' → inst_id X' = inst_id X.
Proof.
  intros Hv. destruct (stampStart_fields c X) as (F1 & _). by destruct Hv.
Qed.

Lemma services_nextCycle_program s config labels :
  (λ i, (inst_id i, staticFields i)) <$> instructions (Services.nextCycle s config labels)
  = (λ i, (inst_id i, staticFields i)) <$> instructions s.
Proof.
  unfold Services.nextCycle. destruct (isFinished s); [done|].
  destruct (services_checkCompletion_frame
              (Services.issue (Services.beforeIssue s config labels)))
    as (_ & _ & -> & _).
  assert (∀ y, (λ i, (inst_id i, staticFields i)) <$> instructions (Services.issue y)
               = (λ i, (inst_id i, staticFields i)) <$> instructions y) as ->.
  { intros y. destruct (services_issue_cases y)
      as [->|(ik & issueInst & rsIndex & freeRS & _ & Hsel & _ & ->)]; [done|].
    apply list_find_Some in Hsel as (Hik & _).
    destruct (services_commitIssue_fields y ik issueInst rsIndex freeRS) as (-> & _).
    by apply (fmap_insert_same _ _ _ issueInst). }
  unfold Services.beforeIssue, Services.execute.
  rewrite (foldl_preserved _
             (λ y, (λ i, (inst_id i, staticFields i)) <$> instructions y)).
  - unfold Services.writeResult. simpl.
    destruct (list_find _ _) as [[p r]|]; [|done]. simpl.
    assert ((λ i, (inst_id i, staticFields i)) <$>
              match findInst (instId r) (instructions s) with
              | Some (ik, inst) =>
                  <[ik := set_writeCycle (Some (cycle s + 1)) inst]> (instructions s)
              | None => instructions s
              end
            = (λ i, (inst_id i, staticFields i)) <$> instructions s) as Hw.
    { destruct (findInst _ _) as [[ik inst]|] eqn:Hf; [|done].
      apply findInst_lookup in Hf. by apply (fmap_insert_same _ _ _ inst). }
    by destruct (list_find _ _) as [[??]|].
  - intros y k. destruct (services_visitOutcome config labels y k) as [->|Hv]; [done|].
    destruct Hv as (rs & ik & inst & x & rs' & inst' & _ & _ & Hf & Hv & -> & _).
    apply findInst_lookup in Hf.
    apply (fmap_insert_same _ _ _ inst); [done|].
    by rewrite (visitOutcome_id _ _ _ _ _ Hv), (visitOutcome_static _ _ _ _ _ Hv).
Qed.

(** X26.  The engine of [services/tomasulo.ts] re-executes nothing: along
    a run the instruction list keeps its length, and every instruction
    keeps its position, identity, text, opcode, operands, immediate and
    address (a taken backward branch appends no new instance). *)
Theorem services_program_fixed insts config regs labels n :
  (λ i, (inst_id i, staticFields i)) <$>
    instructions (Services.run n (initializeState insts config regs) config labels)
  = (λ i, (inst_id i, staticFields i)) <$> insts.
Proof.
  induction n as [|n IH]; simpl; [done|].
  by rewrite services_nextCycle_program.
Qed.

(** X27.  Write-back arbitration in the engine of [services/tomasulo.ts]:
    the CDB of the state a step returns carries the name and the result of
    the first station, in the order of the station array, that is busy
    with remaining time 0 and a result; it is null when there is none. *)
Theorem services_writeback_first_ready s config labels :
  isFinished s = false →
  cdb (Services.nextCycle s config labels) =
    match list_find readyToWrite (reservationStations s) with
    | Some (_, r) => Some {| cdb_tag := rs_id r; cdb_value := default 0 (result r) |}
    | None => None
    end.
Proof.
  intros Hf. rewrite services_nextCycle_unfinished by done.
  destruct (services_checkCompletion_frame
              (Services.issue (Services.beforeIssue s config labels)))
    as (_ & _ & _ & _ & _ & -> & _).
  destruct (services_issue_frame (Services.beforeIssue s config labels))
    as (_ & -> & _).
  apply services_beforeIssue_frame.
Qed.

Lemma services_writeback_first_ready_witness :
  cdb (Services.nextCycle racingState racingConfig (p_labels racingProgram)) =
    match list_find readyToWrite (reservationStations racingState) with
    | Some (_, r) => Some {| cdb_tag := rs_id r; cdb_value := default 0 (result r) |}
    | None => None
    end.
Proof.
  apply (services_writeback_first_ready racingState racingConfig
           (p_labels racingProgram)).
  vm_compute. reflexivity.
Defined.

(** ** Execution time in the engine of [services/tomasulo.ts] *)

Lemma services_issue_timing config f bi be bw s :
  engineInv bi be bw s → timingInv config f s →
  timingInv config f (Services.issue s).
Proof.
  intros Hinv Ht.
  destruct (services_issue_cases s)
    as [->|(ik & issueInst & rsIndex & freeRS & _ & Hsel & Hfree & ->)]; [done|].
  apply list_find_Some in Hsel as (Hik & [_ Hnone] & _).
  apply list_find_Some in Hfree as (Hrs & _).
  destruct (services_commitIssue_fields s ik issueInst rsIndex freeRS)
    as (Ei & Es & _).
  pose proof (proj1 (Forall_lookup _ _) (inv_stamps _ _ _ _ Hinv) ik _ Hik) as Hok.
  destruct (stampsOk_unissued _ _ _ _ Hok Hnone) as (_ & Hst & _).
  destruct Ht as [Hran Hon]. split.
  - rewrite Ei. apply Forall_insert; [done|].
    by apply ranForLatency_unstarted.
  - intros k rs j i Hk Hb Hj Hid. rewrite Ei in Hj. rewrite Es in Hk.
    destruct (decide (j = ik)) as [->|Hnj].
    { rewrite list_lookup_insert_eq in Hj by (by eapply lookup_lt_Some).
      injection Hj as <-. by apply onTime_unstarted. }
    rewrite list_lookup_insert_ne in Hj by done.
    destruct (decide (k = rsIndex)) as [->|Hnk].
    + exfalso. apply Hnj.
      rewrite list_lookup_insert_eq in Hk by (by eapply lookup_lt_Some).
      injection Hk as <-. simpl in Hid.
      apply (NoDup_lookup _ _ _ (inst_id i) (inv_ids _ _ _ _ Hinv));
        rewrite list_lookup_fmap.
      * by rewrite Hj.
      * rewrite Hik. simpl. congruence.
    + rewrite list_lookup_insert_ne in Hk by done. by eapply Hon.
Qed.

Section ServicesTiming.

Context (config : SystemConfig) (labels : gmap string Z).
Hypothesis latencies_pos : ∀ o, 1 ≤ latencies config o.
Hypothesis penalty_nonneg : 0 ≤ missPenalty (cacheConfig config).

Lemma services_executeStation_timing bi s k f :
  engineInv bi (cycle s) (cycle s) s → timingInv config f s →
  f k = cycle s - 1 →
  timingInv config (λ k', if decide (k' = k) then cycle s else f k')
    (Services.executeStation config labels s k).
Proof.
  intros Hinv Ht Hfk.
  destruct (services_executeStation_visit config labels s k)
    as (_ & _ & _ & _ & _ & _ & _ & [[-> Hskip]|Hv]).
  { apply skip_timing; [done|]. intros rs Hk Hb [Hqj Hqk].
    destruct (inv_bound _ _ _ _ Hinv k rs Hk Hb) as (j & X & Hj & Hid & _).
    pose proof (findInst_bound _ j X (inv_ids _ _ _ _ Hinv) Hj) as Hf.
    rewrite <- Hid, (Hskip rs Hk Hb Hqj Hqk) in Hf. done. }
  destruct Hv as (rs & ik & inst & t1 & x & rs' & inst' & Hk & Hbusy & Hqj & Hqk
                  & Hf & Hstart & Hi & Hs & Hout).
  destruct (inv_bound _ _ _ _ Hinv k rs Hk Hbusy) as (j & X & Hj & HbX).
  pose proof HbX as (Hid & _).
  rewrite Hid, (findInst_bound _ j X (inv_ids _ _ _ _ Hinv) Hj) in Hf.
  injection Hf as <- <-.
  destruct (stampStart_fields (cycle s) X) as (F1 & F2 & F3 & F4 & F5 & F6 & F7).
  cbn zeta in Hout.
  eapply (visit_timing config latencies_pos penalty_nonneg bi s _ k f rs j X t1
            rs' inst'); try done.
  - destruct (execStartCycle X); by destruct Hstart.
  - destruct Hout as [(_ & -> & _)|[(_ & _ & _ & -> & _)|(_ & _ & _ & (v & ->) & _)]];
      done.
  - intros Hb.
    destruct Hout as [(_ & -> & _)|[(_ & _ & _ & -> & _)|(_ & _ & _ & (v & ->) & _)]];
      done.
  - destruct Hout as [(_ & _ & -> & _)|[(_ & _ & _ & _ & -> & _)
                                       |(_ & _ & _ & _ & -> & _)]]; done.
  - destruct Hout as [(_ & _ & -> & _)|[(_ & _ & _ & _ & -> & _)
                                       |(_ & _ & _ & _ & -> & _)]]; done.
  - destruct Hout as [(_ & _ & -> & _)|[(_ & _ & _ & _ & -> & _)
                                       |(_ & _ & _ & _ & -> & _)]]; done.
  - destruct Hout as [(Hn & _ & -> & _)|[(Ht0 & He & _ & _ & -> & _)
                                        |(Ht0 & He & _ & _ & -> & _)]];
      simpl in *.
    + rewrite F4. by rewrite decide_False.
    + by rewrite decide_True.
    + by rewrite decide_True.
Qed.

Lemma services_execute_timing bi s :
  engineInv bi (cycle s) (cycle s) s → bi < cycle s →
  timingInv config (λ _, cycle s - 1) s →
  timingInv config (λ _, cycle s) (Services.execute config labels s).
Proof.
  intros Hinv Hlt Ht. unfold Services.execute.
  set (n := length (reservationStations s)).
  pose (P := λ (i : nat) (y : SimulationState),
          cycle y = cycle s ∧ length (reservationStations y) = n ∧
          engineInv bi (cycle s) (cycle s) y ∧
          timingInv config
            (λ k, if (k <? i)%nat then cycle s else cycle s - 1) y).
  assert (P n (foldl (Services.executeStation config labels) s (seq 0 n)))
    as (_ & Hlen & _ & Hy).
  { apply foldl_seq_invariant.
    - unfold P. by split_and!.
    - intros i y Hi (Hc & Hlen & Hy & Hty).
      destruct (services_executeStation_visit config labels y i) as [Hc' _].
      unfold P. split_and!.
      + congruence.
      + rewrite <- Hlen.
        rewrite <- (length_fmap stationName (reservationStations y)),
                <- (length_fmap stationName
                      (reservationStations
                         (Services.executeStation config labels y i))).
        by rewrite services_executeStation_names.
      + rewrite <- Hc. apply services_executeStation_inv; by rewrite Hc.
      + rewrite <- Hc in Hy, Hty |- *.
        eapply timingInv_ext;
          [done|done| |apply (services_executeStation_timing bi y i _ Hy Hty)].
        * intros k _. simpl.
          destruct (decide (k = i)) as [->|Hne].
          -- by rewrite (proj2 (Nat.ltb_lt i (S i))) by lia.
          -- destruct (k <? i)%nat eqn:E1, (k <? S i)%nat eqn:E2; try done.
             ++ apply Nat.ltb_lt in E1. apply Nat.ltb_ge in E2. lia.
             ++ apply Nat.ltb_ge in E1. apply Nat.ltb_lt in E2. lia.
        * simpl. by rewrite (proj2 (Nat.ltb_ge i i)) by lia. }
  eapply timingInv_ext; [done|done| |exact Hy].
  intros k Hk. simpl. rewrite Hlen in Hk.
  by rewrite (proj2 (Nat.ltb_lt k n)) by lia.
Qed.

Lemma services_nextCycle_timing s :
  NoDup (rs_id <$> reservationStations s) →
  wellFormed s → timingInv config (λ _, cycle s) s →
  timingInv config (λ _, cycle (Services.nextCycle s config labels))
    (Services.nextCycle s config labels).
Proof.
  intros Hnd Hinv Ht. unfold Services.nextCycle.
  destruct (isFinished s); [done|].
  destruct (services_checkCompletion_frame
              (Services.issue (Services.beforeIssue s config labels)))
    as (Hc & _ & Hi & Hs & _).
  rewrite Hc. eapply timingInv_ext; [exact Hi|exact Hs|done|].
  destruct (services_issue_frame (Services.beforeIssue s config labels))
    as (Hci & _).
  rewrite Hci. unfold Services.beforeIssue.
  rewrite services_writeResult_eq by done.
  set (s1 := beginCycle s).
  assert (engineInv (cycle s) (cycle s) (cycle s) s1) as H1
    by (by eapply engineInv_ext; [| |exact Hinv]).
  assert (cycle s1 = cycle s + 1) as Hc1 by done.
  apply writeResult_inv in H1; [|lia..].
  destruct (writeResult_frame s1) as (Hcw & _).
  assert (engineInv (cycle s) (cycle (writeResult s1)) (cycle (writeResult s1))
            (writeResult s1)) as H2
    by (rewrite Hcw; eapply engineInv_mono; [| | |exact H1]; lia).
  assert (timingInv config (λ _, cycle (writeResult s1) - 1) (writeResult s1))
    as Ht2.
  { apply writeResult_timing.
    eapply timingInv_ext; [| | |exact Ht]; try done.
    intros k _. simpl. rewrite Hcw, Hc1. lia. }
  destruct (services_execute_invariant config labels (λ _, True) (cycle s)
              (writeResult s1)) as (H3 & Hce & _); [done|done|lia|done|].
  rewrite Hce. eapply (services_issue_timing _ _ _ _ _ _ H3).
  apply (services_execute_timing (cycle s)); [done|lia|done].
Qed.

Lemma services_run_timing n s :
  NoDup (rs_id <$> reservationStations s) →
  wellFormed s → timingInv config (λ _, cycle s) s →
  timingInv config (λ _, cycle (Services.run n s config labels))
    (Services.run n s config labels).
Proof.
  intros Hnd Hs Ht. induction n as [|n IH]; simpl; [done|].
  destruct (services_run_wellFormed n s config labels Hnd Hs) as [Hn Hw].
  by apply services_nextCycle_timing.
Qed.

End ServicesTiming.

(** X28.  Execution takes the configured latency in the engine of
    [services/tomasulo.ts] too: with latencies of at least one cycle and a
    miss penalty that is not negative, every instruction that has
    completed satisfies [execEndCycle = execStartCycle + L - 1], [L] being
    the latency of its class or, for a LOAD with the cache enabled, that
    latency plus the miss penalty; and the timer of a station whose
    instruction is executing shows the cycles that remain. *)
Theorem services_execution_takes_latency insts config regs labels n :
  NoDup (inst_id <$> insts) → Forall unstamped insts →
  (∀ o, 1 ≤ latencies config o) → 0 ≤ missPenalty (cacheConfig config) →
  let s := Services.run n (initializeState insts config regs) config labels in
  Forall (ranForLatency config) (instructions s) ∧
  ∀ k rs j i,
    reservationStations s !! k = Some rs → busy rs = true →
    instructions s !! j = Some i → instId rs = Some (inst_id i) →
    onTime config (cycle s) rs i.
Proof.
  intros Hnd Hun Hlat Hpen s.
  apply (services_run_timing config labels Hlat Hpen n).
  - apply initialStations_apart.
  - by apply initializeState_wellFormed.
  - by apply initializeState_timing.
Qed.

Lemma services_execution_takes_latency_witness :
  let s := Services.run 12 sequentialStart exampleConfig
             (p_labels sequentialProgram) in
  Forall (ranForLatency exampleConfig) (instructions s) ∧
  ∀ k rs j i,
    reservationStations s !! k = Some rs → busy rs = true →
    instructions s !! j = Some i → instId rs = Some (inst_id i) →
    onTime exampleConfig (cycle s) rs i.
Proof.
  apply (services_execution_takes_latency (p_instructions sequentialProgram)
           exampleConfig exampleRegs (p_labels sequentialProgram) 12).
  - apply (bool_decide_unpack _). vm_compute. reflexivity.
  - vm_compute. repeat constructor.
  - intros []; vm_compute; discriminate.
  - vm_compute. discriminate.
Defined.

(** ** Effective addresses in the engine of [services/tomasulo.ts] *)

Lemma stampStart_immediate c i : immediate (stampStart c i) = immediate i.
Proof. unfold stampStart. by destruct (execStartCycle i). Qed.

Lemma addressed_same rs i i' :
  op i' = op i → immediate i' = immediate i →
  execStartCycle i' = execStartCycle i → addressed rs i → addressed rs i'.
Proof. unfold addressed. by intros -> -> ->. Qed.

Lemma captureOperands_address t v rs :
  a (captureOperands t v rs) = a rs ∧
  (qj rs = None →
   qj (captureOperands t v rs) = None ∧ vj (captureOperands t v rs) = vj rs).
Proof.
  unfold captureOperands. destruct (busy rs); [|done].
  destruct (decide (qj rs = Some t)); simpl;
    (match goal with |- context [decide ?P] => destruct (decide P) end);
    simpl; split_and!; auto; congruence.
Qed.

Lemma writeResult_address s : addressInv s → addressInv (writeResult s).
Proof.
  intros Hon. unfold writeResult.
  destruct (list_find _ _) as [[p r]|] eqn:Hfind; [|done].
  simpl.
  set (t0 := rs_id r). set (v := default 0 (result r)).
  assert (∃ l', (match findInst (instId r) (instructions s) with
                 | Some (ik, inst) =>
                     <[ik := set_writeCycle (Some (cycle s)) inst]> (instructions s)
                 | None => instructions s
                 end) = l' ∧
                ∀ j X', l' !! j = Some X' →
                  ∃ X0, instructions s !! j = Some X0 ∧
                        inst_id X' = inst_id X0 ∧ op X' = op X0 ∧
                        immediate X' = immediate X0 ∧
                        execStartCycle X' = execStartCycle X0)
    as (l' & -> & Hl').
  { eexists. split; [reflexivity|].
    destruct (findInst _ _) as [[ik inst]|] eqn:Hf.
    - apply findInst_lookup in Hf. intros j X' Hj.
      destruct (decide (j = ik)) as [->|Hne].
      + rewrite list_lookup_insert_eq in Hj by (by eapply lookup_lt_Some).
        injection Hj as <-. by exists inst.
      + rewrite list_lookup_insert_ne in Hj by done. by exists X'.
    - intros j X' Hj. by exists X'. }
  intros k rs' j X' Hk Hb Hj Hid. simpl in Hk, Hj.
  destruct (Hl' j X' Hj) as (X0 & Hj0 & E1 & E2 & E3 & E4).
  destruct (decide (k = p)) as [->|Hne].
  { rewrite list_lookup_alter in Hk. destruct (decide (p = p)); [|done].
    destruct (_ !! p); simpl in Hk; [|done]. injection Hk as <-. done. }
  rewrite list_lookup_alter_ne, list_lookup_fmap in Hk by done.
  destruct (reservationStations s !! k) as [r0|] eqn:Hr0; [|done].
  simpl in Hk. injection Hk as <-.
  destruct (captureOperands_address t0 v r0) as (Ea & Eq).
  destruct (captureOperands_binding t0 v r0) as (Eb & Ei & _).
  rewrite Eb in Hb. rewrite Ei, E1 in Hid.
  pose proof (Hon k r0 j X0 Hr0 Hb Hj0 Hid) as H.
  unfold addressed in *. rewrite E2, E3, E4. intros Hop. specialize (H Hop).
  destruct (execStartCycle X0); rewrite Ea; [|done].
  destruct H as [Hq H]. destruct (Eq Hq) as [-> ->]. done.
Qed.

Section ServicesAddress.

Context (config : SystemConfig) (labels : gmap string Z).

Lemma services_executeStation_address bi s k :
  engineInv bi (cycle s) (cycle s) s → addressInv s →
  addressInv (Services.executeStation config labels s k).
Proof.
  intros Hinv Ha.
  destruct (services_executeStation_visit config labels s k)
    as (_ & _ & _ & _ & _ & _ & _ & [[-> _]|Hv]); [done|].
  destruct Hv as (rs & ik & inst & t1 & x & rs' & inst' & Hk & Hbusy & Hqj & Hqk
                  & Hf & Hstart & Hi & Hs & Hout).
  destruct (inv_bound _ _ _ _ Hinv k rs Hk Hbusy) as (j & X & Hj & HbX).
  pose proof HbX as (Hid & _).
  rewrite Hid, (findInst_bound _ j X (inv_ids _ _ _ _ Hinv) Hj) in Hf.
  injection Hf as <- <-.
  pose proof (Ha k rs j X Hk Hbusy Hj Hid) as Hold.
  destruct (stampStart_fields (cycle s) X) as (F1 & F2 & _ & _ & _ & _ & F7).
  pose proof (stampStart_immediate (cycle s) X) as F8.
  cbn zeta in Hout.
  assert (getOpType (op X) = OpType.LOAD ∨ getOpType (op X) = OpType.STORE →
          x = Some (default 0 (vj rs) + immediate X)) as Hx.
  { intros Hop. specialize (Hold Hop).
    destruct (execStartCycle X).
    - destruct Hstart as [_ ->]. by destruct Hold.
    - destruct Hstart as [_ ->]. rewrite decide_True by done.
      by rewrite Hold. }
  assert (inst_id inst' = inst_id X ∧ op inst' = op X ∧
          immediate inst' = immediate X ∧ execStartCycle inst' ≠ None ∧
          (busy rs' = true →
           instId rs' = instId rs ∧ qj rs' = None ∧ vj rs' = vj rs ∧ a rs' = x))
    as (G1 & G2 & G3 & G4 & G5).
  { destruct Hout as [(_ & -> & -> & _)|[(_ & _ & _ & -> & -> & _)
                                        |(_ & _ & _ & (v & ->) & -> & _)]];
      simpl; rewrite ?F1, ?F2, ?F7, ?F8; split_and!; try done. }
  assert (busy rs' = true → addressed rs' inst') as Hnew.
  { intros Hb Hop. destruct (G5 Hb) as (_ & -> & -> & ->).
    rewrite G2 in Hop. rewrite G3, (Hx Hop).
    by destruct (execStartCycle inst'). }
  intros k' r j' i Hk' Hb Hj' Hid'. rewrite Hs in Hk'. rewrite Hi in Hj'.
  destruct (decide (k' = k)) as [->|Hnk].
  - rewrite list_lookup_insert_eq in Hk' by (by eapply lookup_lt_Some).
    injection Hk' as <-.
    destruct (decide (j' = j)) as [->|Hnj].
    + rewrite list_lookup_insert_eq in Hj' by (by eapply lookup_lt_Some).
      injection Hj' as <-. by apply Hnew.
    + exfalso. apply Hnj. rewrite list_lookup_insert_ne in Hj' by done.
      destruct (G5 Hb) as (Ei & _). rewrite Ei, Hid in Hid'.
      apply (NoDup_lookup _ _ _ (inst_id i) (inv_ids _ _ _ _ Hinv));
        rewrite list_lookup_fmap.
      * by rewrite Hj'.
      * rewrite Hj. simpl. congruence.
  - rewrite list_lookup_insert_ne in Hk' by done.
    destruct (decide (j' = j)) as [->|Hnj].
    + exfalso. apply Hnk.
      rewrite list_lookup_insert_eq in Hj' by (by eapply lookup_lt_Some).
      injection Hj' as <-. rewrite G1 in Hid'.
      apply (inv_inj _ _ _ _ Hinv k' k r rs); try done. congruence.
    + rewrite list_lookup_insert_ne in Hj' by done. by eapply Ha.
Qed.

End ServicesAddress.

Lemma services_issue_address bi be bw s :
  engineInv bi be bw s → addressInv s → addressInv (Services.issue s).
Proof.
  intros Hinv Ha.
  destruct (services_issue_cases s)
    as [->|(ik & issueInst & rsIndex & freeRS & _ & Hsel & Hfree & ->)]; [done|].
  apply list_find_Some in Hsel as (Hik & [_ Hnone] & _).
  apply list_find_Some in Hfree as (Hrs & _).
  destruct (services_commitIssue_fields s ik issueInst rsIndex freeRS)
    as (Ei & Es & _).
  pose proof (proj1 (Forall_lookup _ _) (inv_stamps _ _ _ _ Hinv) ik _ Hik) as Hok.
  destruct (stampsOk_unissued _ _ _ _ Hok Hnone) as (_ & Hst & _).
  intros k rs j i Hk Hb Hj Hid. rewrite Ei in Hj. rewrite Es in Hk.
  destruct (decide (k = rsIndex)) as [->|Hnk].
  - rewrite list_lookup_insert_eq in Hk by (by eapply lookup_lt_Some).
    injection Hk as <-. simpl in Hid.
    destruct (decide (j = ik)) as [->|Hnj].
    + rewrite list_lookup_insert_eq in Hj by (by eapply lookup_lt_Some).
      injection Hj as <-. intros Hop. simpl in *. rewrite Hst.
      unfold Services.addressSlot. by destruct Hop as [-> | ->].
    + exfalso. apply Hnj. rewrite list_lookup_insert_ne in Hj by done.
      apply (NoDup_lookup _ _ _ (inst_id i) (inv_ids _ _ _ _ Hinv));
        rewrite list_lookup_fmap.
      * by rewrite Hj.
      * rewrite Hik. simpl. congruence.
  - rewrite list_lookup_insert_ne in Hk by done.
    destruct (decide (j = ik)) as [->|Hnj].
    + rewrite list_lookup_insert_eq in Hj by (by eapply lookup_lt_Some).
      injection Hj as <-.
      apply (addressed_same rs issueInst); [done..|].
      by eapply (Ha k rs ik issueInst).
    + rewrite list_lookup_insert_ne in Hj by done. by eapply Ha.
Qed.

Lemma services_nextCycle_address s config labels :
  NoDup (rs_id <$> reservationStations s) →
  wellFormed s → addressInv s →
  addressInv (Services.nextCycle s config labels).
Proof.
  intros Hnd Hinv Ha. unfold Services.nextCycle.
  destruct (isFinished s); [done|].
  destruct (services_checkCompletion_frame
              (Services.issue (Services.beforeIssue s config labels)))
    as (_ & _ & Hi & Hs & _).
  unfold addressInv. rewrite Hi, Hs.
  unfold Services.beforeIssue. rewrite services_writeResult_eq by done.
  set (s1 := beginCycle s).
  assert (engineInv (cycle s) (cycle s) (cycle s) s1) as H1
    by (by eapply engineInv_ext; [| |exact Hinv]).
  assert (cycle s1 = cycle s + 1) as Hc1 by done.
  apply writeResult_inv in H1; [|lia..].
  destruct (writeResult_frame s1) as (Hcw & _).
  assert (engineInv (cycle s) (cycle (writeResult s1)) (cycle (writeResult s1))
            (writeResult s1)) as H2
    by (rewrite Hcw; eapply engineInv_mono; [| | |exact H1]; lia).
  assert (addressInv (writeResult s1)) as Ha2 by (by apply writeResult_address).
  destruct (services_execute_invariant config labels addressInv (cycle s)
              (writeResult s1)) as (H3 & _ & Ha3); [|done|lia|done|].
  { intros y k _ Hy. by apply (services_executeStation_address _ _ (cycle s)). }
  by apply (services_issue_address _ _ _ _ H3).
Qed.

Lemma services_run_address n s config labels :
  NoDup (rs_id <$> reservationStations s) →
  wellFormed s → addressInv s →
  addressInv (Services.run n s config labels).
Proof.
  intros Hnd Hs Ha. induction n as [|n IH]; simpl; [done|].
  destruct (services_run_wellFormed n s config labels Hnd Hs) as [Hn Hw].
  by apply services_nextCycle_address.
Qed.

(** X29.  Effective addresses in the engine of [services/tomasulo.ts].  A
    busy station that holds a LOAD or a STORE keeps in its address field
    the offset of the instruction as long as the execution has not
    started; once it has started, the base operand is a value and the
    field holds the base value plus the offset, which is the address the
    cache and the memory are accessed with. *)
Theorem services_effective_address insts config regs labels n :
  NoDup (inst_id <$> insts) → Forall unstamped insts →
  let s := Services.run n (initializeState insts config regs) config labels in
  ∀ k rs j i,
    reservationStations s !! k = Some rs → busy rs = true →
    instructions s !! j = Some i → instId rs = Some (inst_id i) →
    getOpType (op i) = OpType.LOAD ∨ getOpType (op i) = OpType.STORE →
    match execStartCycle i with
    | None => a rs = Some (immediate i)
    | Some _ => qj rs = None ∧ a rs = Some (default 0 (vj rs) + immediate i)
    end.
Proof.
  intros Hnd Hun s.
  apply (services_run_address n).
  - apply initialStations_apart.
  - by apply initializeState_wellFormed.
  - intros k rs j i Hk%list_elem_of_lookup_2 Hb. simpl in Hk.
    unfold initialStations in Hk.
    apply list_elem_of_In, in_flat_map in Hk as (ty & _ & Hin).
    apply list_elem_of_In, list_elem_of_fmap in Hin as (x & -> & _). done.
Qed.

Lemma services_effective_address_witness :
  let s := Services.run 3 sequentialStart exampleConfig
             (p_labels sequentialProgram) in
  ∃ k rs j i,
    reservationStations s !! k = Some rs ∧ busy rs = true ∧
    instructions s !! j = Some i ∧ instId rs = Some (inst_id i) ∧
    getOpType (op i) = OpType.LOAD ∧
    execStartCycle i ≠ None ∧
    a rs = Some (default 0 (vj rs) + immediate i).
Proof.
  intros s.
  assert (NoDup (inst_id <$> p_instructions sequentialProgram)) as H1
    by (apply (bool_decide_unpack _); vm_compute; reflexivity).
  assert (Forall unstamped (p_instructions sequentialProgram)) as H2
    by (vm_compute; repeat constructor).
  pose proof (services_effective_address (p_instructions sequentialProgram)
                exampleConfig exampleRegs (p_labels sequentialProgram) 3 H1 H2)
    as H.
  cbv zeta in H. fold sequentialStart in H. fold s in H.
  eexists 6%nat, _, 1%nat, _.
  split; [vm_compute; reflexivity|].
  split; [reflexivity|].
  split; [vm_compute; reflexivity|].
  split; [reflexivity|].
  split; [reflexivity|].
  split; [discriminate|].
  match goal with
  | |- a ?r = Some (default 0 (vj ?r) + immediate ?i) =>
      assert (reservationStations s !! 6%nat = Some r) as E1
        by (vm_compute; reflexivity);
      assert (instructions s !! 1%nat = Some i) as E2
        by (vm_compute; reflexivity);
      exact (proj2 (H 6%nat r 1%nat i E1 eq_refl E2 eq_refl
                      (or_introl eq_refl)))
  end.
Defined.
